(** * Round-trip translation noise study: a shallow embedding of its core

    The development follows the Python sources:
    - [src/input/error_injector.py]  (module [ErrorInjector] below),
    - [src/input/generator.py]       (modules [Generator], [Storage]),
    - [src/agents/pipeline.py]       (modules [Pipeline], [Skills]),
    - [src/analysis/embeddings.py]   (module [Embeddings]),
    - [src/utils/config.py]          (module [Config]),
    - [src/main.py], its analysis loop (module [Analysis]).

    Python values are modelled as follows.  A [str] is a list of code
    points; an [int] is a
    [Z]; a [float] is an IEEE-754 binary64 value of [SpecFloat]; exceptions
    are values of [exn] carried by [result]; code that uses the global
    [random] module, the network client or the clock threads an explicit
    state through the monad [M].  The [random] module, the text-generation
    service with [time.sleep] and the clock, the embedding model and the
    JSON codec are interfaces ([Random], [Service], [Encoder], [Codec]):
    what is proved holds for every implementation of them.  The file
    system is a function from paths to what there is at them.  Output
    written with [print] is not modelled.

    The definitions come first; the properties follow, module by
    module. *)

From Stdlib Require Import ZArith List Bool Ascii String Lia.
From Stdlib Require Import Floats.SpecFloat DecimalString Sorted.
Import ListNotations.

Open Scope Z_scope.

(** [length] is the length of a list throughout. *)
Abbreviation length := List.length (only parsing).

(** ** Python basics *)

Module Py.

(** A character is a code point. *)
Definition char := Z.

Definition str := list char.

(** The code point of an ASCII character, for literals. *)
Definition chr (c : ascii) : char := Z.of_N (N_of_ascii c).

(** A literal, for readability. *)
Definition lit (s : string) : str := map chr (list_ascii_of_string s).

Definition len {A} (l : list A) : Z := Z.of_nat (List.length l).

Inductive exn :=
| ValueError (msg : str)
| OverflowError (msg : str)
| IndexError (msg : str)
| ZeroDivisionError (msg : str)
| FileNotFoundError (path : str)
| IsADirectoryError (path : str)
| UnicodeDecodeError (msg : str)
| OSError (msg : str)
| Exception (msg : str).

(** [str(e)] *)
Definition str_of_exn (e : exn) : str :=
  match e with
  | ValueError m | OverflowError m | IndexError m | ZeroDivisionError m
  | UnicodeDecodeError m | OSError m | Exception m => m
  | FileNotFoundError p =>
      lit "[Errno 2] No such file or directory: '" ++ p ++ lit "'"
  | IsADirectoryError p =>
      lit "[Errno 21] Is a directory: '" ++ p ++ lit "'"
  end.

Inductive result (A : Type) :=
| Ok (a : A)
| Raise (e : exn).
Arguments Ok {A} a.
Arguments Raise {A} e.

(** Stateful, fallible computations.  The state survives an exception, as
    the interpreter's does. *)
Definition M (S A : Type) := S -> result A * S.

Definition ret {S A} (a : A) : M S A := fun s => (Ok a, s).

Definition raise {S A} (e : exn) : M S A := fun s => (Raise e, s).

Definition bind {S A B} (c : M S A) (k : A -> M S B) : M S B :=
  fun s =>
    match c s with
    | (Ok a, s') => k a s'
    | (Raise e, s') => (Raise e, s')
    end.

(** A pure, fallible step inside a stateful computation. *)
Definition lift {S A} (r : result A) : M S A := fun s => (r, s).

(** [try: c  except Exception as e: h e] *)
Definition try_except {S A} (c : M S A) (h : exn -> M S A) : M S A :=
  fun s =>
    match c s with
    | (Ok a, s') => (Ok a, s')
    | (Raise e, s') => h e s'
    end.

(** *** Characters and strings *)

(** The whitespace of [str.split] and [str.strip]: the Unicode code points
    that Python takes for spaces. *)
Definition isspace (c : char) : bool :=
  ((9 <=? c) && (c <=? 13)) || ((28 <=? c) && (c <=? 32))
  || (c =? 133) || (c =? 160) || (c =? 5760)
  || ((8192 <=? c) && (c <=? 8202))
  || (c =? 8232) || (c =? 8233) || (c =? 8239) || (c =? 8287) || (c =? 12288).

Definition str_eqb (a b : str) : bool :=
  if list_eq_dec Z.eq_dec a b then true else false.

(** [text.split()]: maximal runs of non-whitespace characters.  [cur]
    holds the current run, reversed. *)
Fixpoint split_from (cur : str) (s : str) : list str :=
  match s with
  | [] => match cur with [] => [] | _ => [rev cur] end
  | c :: s' =>
      if isspace c
      then match cur with
           | [] => split_from [] s'
           | _ => rev cur :: split_from [] s'
           end
      else split_from (c :: cur) s'
  end.

Definition split (s : str) : list str := split_from [] s.

(** [sep.join(words)] *)
Fixpoint join (sep : str) (ws : list str) : str :=
  match ws with
  | [] => []
  | [w] => w
  | w :: ws' => w ++ sep ++ join sep ws'
  end.

(** [s.strip()] *)
Fixpoint lstrip (s : str) : str :=
  match s with
  | c :: s' => if isspace c then lstrip s' else s
  | [] => []
  end.

Definition rstrip (s : str) : str := rev (lstrip (rev s)).

Definition strip (s : str) : str := rstrip (lstrip s).

(** [s.startswith(p)] *)
Fixpoint startswith (s p : str) : bool :=
  match p, s with
  | [], _ => true
  | a :: p', b :: s' => (a =? b) && startswith s' p'
  | _ :: _, [] => false
  end.

(** [p in s] *)
Fixpoint contains (s p : str) : bool :=
  startswith s p ||
  match s with
  | [] => false
  | _ :: s' => contains s' p
  end.

(** [s.rindex(c)] for a one-character needle: the highest index holding
    [c]; [ValueError] when there is none. *)
Fixpoint rfind_from (i : Z) (c : char) (s : str) : option Z :=
  match s with
  | [] => None
  | a :: s' =>
      match rfind_from (i + 1) c s' with
      | Some j => Some j
      | None => if a =? c then Some i else None
      end
  end.

Definition rindex (s : str) (c : char) : result Z :=
  match rfind_from 0 c s with
  | Some j => Ok j
  | None => Raise (ValueError (lit "substring not found"))
  end.

(** Indexing and slicing with Python's treatment of negative and
    out-of-range positions. *)
Definition clamp_index {A} (l : list A) (i : Z) : nat :=
  Z.to_nat (if i <? 0 then Z.max 0 (i + len l) else Z.min i (len l)).

(** [l[:hi]] *)
Definition slice_to {A} (l : list A) (hi : Z) : list A :=
  firstn (clamp_index l hi) l.

(** [l[lo:]] *)
Definition slice_from {A} (l : list A) (lo : Z) : list A :=
  skipn (clamp_index l lo) l.

(** [l[i]] *)
Definition getitem {A} (l : list A) (i : Z) : result A :=
  let j := if i <? 0 then i + len l else i in
  if (0 <=? j) && (j <? len l)
  then match nth_error l (Z.to_nat j) with
       | Some a => Ok a
       | None => Raise (IndexError (lit "list index out of range"))
       end
  else Raise (IndexError (lit "list index out of range")).

(** [l[i] = v] *)
Fixpoint set_nth {A} (l : list A) (n : nat) (v : A) : list A :=
  match l, n with
  | [], _ => []
  | _ :: l', O => v :: l'
  | a :: l', S n' => a :: set_nth l' n' v
  end.

Definition setitem {A} (l : list A) (i : Z) (v : A) : result (list A) :=
  let j := if i <? 0 then i + len l else i in
  if (0 <=? j) && (j <? len l)
  then Ok (set_nth l (Z.to_nat j) v)
  else Raise (IndexError (lit "list assignment index out of range")).

(** [sys.maxsize]: no [str] or [list] is longer. *)
Definition maxsize : Z := 2 ^ 63 - 1.

(** [str(n)] for an [int] *)
Definition str_of_int (n : Z) : str :=
  lit (NilZero.string_of_int (Z.to_int n)).

End Py.

Export Py.

Declare Scope py_scope.
Delimit Scope py_scope with py.
Notation "x <- c ;; k" := (bind c (fun x => k))
  (at level 61, c at next level, right associativity) : py_scope.
Notation "' pat <- c ;; k" := (bind c (fun x => match x with pat => k end))
  (at level 61, pat pattern, c at next level, right associativity) : py_scope.
Open Scope py_scope.


(** ** Python's [float]: IEEE-754 binary64, round to nearest even *)

Module PyFloat.

Definition prec : Z := 53.
Definition emax : Z := 1024.

Definition float := spec_float.

Definition is_finite (x : float) : bool :=
  match x with
  | S754_zero _ | S754_finite _ _ _ => true
  | S754_infinity _ | S754_nan => false
  end.

(** [float(n)] for an [int], as used when an [int] meets a [float] in
    arithmetic: the nearest binary64, [OverflowError] beyond the range. *)
Definition of_int (n : Z) : result float :=
  match binary_normalize prec emax n 0 false with
  | S754_infinity _ => Raise (OverflowError (lit "int too large to convert to float"))
  | x => Ok x
  end.

Definition mul (x y : float) : float := SFmul prec emax x y.

(** [n * x] for an [int] [n] and a [float] [x] *)
Definition int_mul_float (n : Z) (x : float) : result float :=
  match of_int n with
  | Ok f => Ok (mul f x)
  | Raise e => Raise e
  end.

(** [x * n] for a [float] [x] and an [int] [n] *)
Definition float_mul_int (x : float) (n : Z) : result float :=
  match of_int n with
  | Ok f => Ok (mul x f)
  | Raise e => Raise e
  end.

(** [int(x)]: truncation toward zero. *)
Definition to_int (x : float) : result Z :=
  match x with
  | S754_zero _ => Ok 0
  | S754_finite s m e => Ok (cond_Zopp s (Z.shiftl (Z.pos m) e))
  | S754_infinity _ =>
      Raise (OverflowError (lit "cannot convert float infinity to integer"))
  | S754_nan => Raise (ValueError (lit "cannot convert float NaN to integer"))
  end.

(** The mathematical floor of a finite value (0 on infinities and NaN,
    where there is none). *)
Definition floor (x : float) : Z :=
  match x with
  | S754_finite s m e => Z.shiftl (cond_Zopp s (Z.pos m)) e
  | _ => 0
  end.

(** [round(x)] with one argument: the nearest [int], ties to even. *)
Definition round_half_even (m : Z) (e : Z) : Z :=
  if 0 <=? e then Z.shiftl m e
  else
    let d := Z.pow 2 (- e) in
    let q := m / d in
    let r := m mod d in
    match Z.compare (2 * r) d with
    | Lt => q
    | Gt => q + 1
    | Eq => if Z.even q then q else q + 1
    end.

Definition round (x : float) : result Z :=
  match x with
  | S754_zero _ => Ok 0
  | S754_finite s m e => Ok (cond_Zopp s (round_half_even (Z.pos m) e))
  | S754_infinity _ =>
      Raise (OverflowError (lit "cannot convert float infinity to integer"))
  | S754_nan => Raise (ValueError (lit "cannot convert float NaN to integer"))
  end.

(** An [int] as an unrounded operand of a floating-point operation. *)
Definition exact (n : Z) : float :=
  match n with
  | Z0 => S754_zero false
  | Zpos p => S754_finite false p 0
  | Zneg p => S754_finite true p 0
  end.

(** [a / b] for two [int]s (true division): the correctly rounded
    quotient of the exact integers. *)
Definition int_truediv (a b : Z) : result float :=
  if b =? 0 then Raise (ZeroDivisionError (lit "division by zero"))
  else
    match SFdiv prec emax (exact a) (exact b) with
    | S754_infinity _ =>
        Raise (OverflowError (lit "integer division result too large for a float"))
    | x => Ok x
    end.

Definition zero : float := S754_zero false.
Definition one : float := S754_finite false 4503599627370496 (-52).

(** [x <= y] *)
Definition leb (x y : float) : bool := SFleb x y.


(** Every value of a Python [float] is a valid binary64. *)
Definition valid (x : float) : bool := valid_binary prec emax x.

(** A rate in the unit interval, as the injector's contract has it: a
    binary64 [r] with [0 <= r <= 1]. *)
Definition unit_rate (r : float) : bool :=
  valid r && leb zero r && leb r one.

End PyFloat.

(** ** The [random] module

    The generator is global state; [random.seed] replaces it.  The code
    relies on [_randbelow] (through [randint] and [choice]) and on
    [sample] over a [range]; their documented contracts are the laws. *)

Class Random := {
  rng : Type;
  (** [random.seed(n)] *)
  seed : Z -> rng;
  (** [_randbelow(n)] *)
  randbelow : Z -> rng -> Z * rng;
  (** [random.sample(range(n), k)] for [0 <= k <= n] *)
  sample_range : Z -> Z -> rng -> list Z * rng;
  randbelow_bound : forall n g, 0 < n -> 0 <= fst (randbelow n g) < n;
  sample_range_length : forall n k g,
      0 <= k <= n -> len (fst (sample_range n k g)) = k;
  sample_range_bound : forall n k g,
      0 <= k <= n -> Forall (fun i => 0 <= i < n) (fst (sample_range n k g));
  sample_range_distinct : forall n k g,
      0 <= k <= n -> NoDup (fst (sample_range n k g))
}.

Module PyRandom.
Section WithRandom.
Context {R : Random}.

(** [random.randint(a, b)] *)
Definition randint (a b : Z) : M rng Z :=
  if a <=? b
  then fun g => let '(r, g') := randbelow (b - a + 1) g in (Ok (a + r), g')
  else raise (ValueError (lit "empty range for randrange()")).

(** [random.choice(seq)] *)
Definition choice {A} (seq : list A) : M rng A :=
  match seq with
  | [] => raise (IndexError (lit "Cannot choose from an empty sequence"))
  | _ => fun g => let '(i, g') := randbelow (len seq) g in (getitem seq i, g')
  end.

(** [random.sample(range(n), k)] *)
Definition sample (n k : Z) : M rng (list Z) :=
  if (0 <=? k) && (k <=? n)
  then fun g => let '(l, g') := sample_range n k g in (Ok l, g')
  else raise (ValueError (lit "Sample larger than population or is negative")).

End WithRandom.
End PyRandom.

(** [list(range(n))] *)
Definition range (n : Z) : list Z := map Z.of_nat (seq 0 (Z.to_nat n)).

(** ** [src/input/error_injector.py] *)

Module ErrorInjector.
Import PyRandom.

(** The four edit operations ([error_type] in [_corrupt_word]). *)
Inductive error_type :=
| character_swap
| character_deletion
| character_insertion
| character_replacement.

Definition alphabet : str := lit "abcdefghijklmnopqrstuvwxyz".

Definition punctuation : str := lit ".,!?;:".

Section WithRandom.
Context {R : Random}.

(** [ErrorInjector.__init__]: seeds the global generator. *)
Definition init (seed_value : Z) : M rng unit :=
  fun _ => (Ok tt, seed seed_value).

Definition _swap_characters (word : str) : M rng str :=
  if len word <? 2 then ret word
  else
    pos <- randint 0 (len word - 2) ;;
    let word_list := word in
    a <- lift (getitem word_list (pos + 1)) ;;
    b <- lift (getitem word_list pos) ;;
    word_list <- lift (setitem word_list pos a) ;;
    word_list <- lift (setitem word_list (pos + 1) b) ;;
    ret word_list.

Definition _delete_character (word : str) : M rng str :=
  if len word <? 2 then ret word
  else
    pos <- randint 0 (len word - 1) ;;
    ret (slice_to word pos ++ slice_from word (pos + 1)).

Definition _insert_character (word : str) : M rng str :=
  pos <- randint 0 (len word) ;;
  char <- choice alphabet ;;
  ret (slice_to word pos ++ [char] ++ slice_from word pos).

Definition _replace_character (word : str) : M rng str :=
  pos <- randint 0 (len word - 1) ;;
  char <- choice alphabet ;;
  ret (slice_to word pos ++ [char] ++ slice_from word (pos + 1)).

Definition _corrupt_word (word : str) : M rng str :=
  if len word <? 3 then ret word
  else
    last <- lift (getitem word (-1)) ;;
    let '(has_punct, punct, word) :=
      if contains punctuation [last]
      then (true, [last], slice_to word (-1))
      else (false, [], word) in
    if len word <? 3
    then ret (if has_punct : bool then word ++ punct else word)
    else
      error_type <- choice [character_swap; character_deletion;
                            character_insertion; character_replacement] ;;
      corrupted <- match error_type with
                   | character_swap => _swap_characters word
                   | character_deletion => _delete_character word
                   | character_insertion => _insert_character word
                   | character_replacement => _replace_character word
                   end ;;
      ret (if has_punct then corrupted ++ punct else corrupted).

(** [for idx in error_indices: words[idx] = self._corrupt_word(words[idx])] *)
Fixpoint corrupt_at (error_indices : list Z) (words : list str)
  : M rng (list str) :=
  match error_indices with
  | [] => ret words
  | idx :: rest =>
      w <- lift (getitem words idx) ;;
      w' <- _corrupt_word w ;;
      words <- lift (setitem words idx w') ;;
      corrupt_at rest words
  end.

Definition inject_errors (text : str) (error_rate : PyFloat.float)
  : M rng (str * Z) :=
  let words := split text in
  let total_words := len words in
  product <- lift (PyFloat.int_mul_float total_words error_rate) ;;
  truncated <- lift (PyFloat.to_int product) ;;
  let num_errors := Z.max 1 truncated in
  error_indices <- (if num_errors >=? total_words
                    then ret (range total_words)
                    else sample total_words num_errors) ;;
  words <- corrupt_at error_indices words ;;
  ret (join (lit " ") words, len error_indices).

End WithRandom.

(** [sum(1 for o, c in zip(orig_words, corr_words) if o != c)] *)
Fixpoint count_differing (orig_words corr_words : list str) : Z :=
  match orig_words, corr_words with
  | o :: os, c :: cs =>
      (if str_eqb o c then 0 else 1) + count_differing os cs
  | _, _ => 0
  end.

Definition calculate_actual_error_rate (original corrupted : str)
  : result PyFloat.float :=
  let orig_words := split original in
  let corr_words := split corrupted in
  if negb (len orig_words =? len corr_words)
  then PyFloat.int_truediv (Z.min (len orig_words) (len corr_words))
                           (Z.max (len orig_words) (len corr_words))
  else
    let errors := count_differing orig_words corr_words in
    match orig_words with
    | [] => Ok PyFloat.zero
    | _ => PyFloat.int_truediv errors (len orig_words)
    end.

End ErrorInjector.

(** ** [src/input/generator.py] *)

Module Generator.

Record TestCase := {
  id : Z;
  original : str;
  corrupted : str;
  target_error_rate : PyFloat.float;
  actual_error_rate : PyFloat.float;
  word_count : Z;
  num_errors : Z
}.

(** What there is at a path (a [Path], as [Path(...)] builds it from the
    string given): nothing; a file whose bytes decode as UTF-8, to
    [text]; or anything else, a directory, a file that may not be read,
    a file whose bytes are no UTF-8, with what [exists()] answers for it
    and the exception that [open] or the reading raises. *)
Inductive entry :=
| Missing
| Text (text : str)
| Other (found : result bool) (e : exn).

Definition filesystem := str -> entry.

(** [open(path, 'r', encoding='utf-8')] and the decoding of the file to
    its end. *)
Definition open_read (fs : filesystem) (path : str) : result str :=
  match fs path with
  | Text text => Ok text
  | Missing => Raise (FileNotFoundError path)
  | Other _ e => Raise e
  end.

(** [path.exists()] *)
Definition path_exists (fs : filesystem) (path : str) : result bool :=
  match fs path with
  | Text _ => Ok true
  | Missing => Ok false
  | Other found _ => found
  end.

Definition LF : char := 10.
Definition CR : char := 13.

(** [for line in f] in text mode: the lines of the file, ended by LF, CR
    or CR LF.  The terminator is left out: the loop strips every line
    before it looks at it. *)
Fixpoint lines_from (cur : str) (s : str) : list str :=
  match s with
  | [] => match cur with [] => [] | _ => [rev cur] end
  | c :: s' =>
      if c =? LF then rev cur :: lines_from [] s'
      else if c =? CR
           then rev cur :: match s' with
                           | c' :: s'' =>
                               if c' =? LF then lines_from [] s''
                               else lines_from [] s'
                           | [] => lines_from [] s'
                           end
           else lines_from (c :: cur) s'
  end.

Definition lines (text : str) : list str := lines_from [] text.

(** [f.read()] in text mode: every line end, LF, CR or CR LF, is given
    as LF. *)
Fixpoint universal_newlines (s : str) : str :=
  match s with
  | [] => []
  | c :: s' =>
      if c =? CR
      then LF :: match s' with
                 | c' :: s'' =>
                     if c' =? LF then universal_newlines s''
                     else universal_newlines s'
                 | [] => []
                 end
      else c :: universal_newlines s'
  end.

(** The body of the loop of [_load_base_sentences]. *)
Definition load_line (sentences : list str) (line : str)
  : result (list str) :=
  let line := strip line in
  if negb (len line =? 0) && negb (startswith line (lit "#"))
  then
    if contains line (lit "(") && contains line (lit "words)")
    then match rindex line (chr "(") with
         | Ok i => Ok (sentences ++ [strip (slice_to line i)])
         | Raise e => Raise e
         end
    else Ok (sentences ++ [line])
  else Ok sentences.

Fixpoint load_lines (ls : list str) (sentences : list str)
  : result (list str) :=
  match ls with
  | [] => Ok sentences
  | line :: rest =>
      match load_line sentences line with
      | Ok sentences' => load_lines rest sentences'
      | Raise e => Raise e
      end
  end.

Definition _load_base_sentences (fs : filesystem) (base_sentences_file : str)
  : result (list str) :=
  match open_read fs base_sentences_file with
  | Ok text => load_lines (lines text) []
  | Raise e => Raise e
  end.

(** The fields of a [TestCaseGenerator]; its [error_injector] has no
    state of its own beyond the global generator it seeded. *)
Record TestCaseGenerator := {
  base_sentences_file : str;
  base_sentences : list str
}.

Section WithRandom.
Context {R : Random}.

(** [TestCaseGenerator.__init__] *)
Definition init (fs : filesystem) (file : str) (seed_value : Z)
  : M rng TestCaseGenerator :=
  sentences <- lift (_load_base_sentences fs file) ;;
  _ <- ErrorInjector.init seed_value ;;
  ret {| base_sentences_file := file; base_sentences := sentences |}.

(** The inner loop of [generate_test_cases], over the error rates; the
    state of the loops is [(test_cases, test_id)]. *)
Fixpoint rates_loop (sentence : str) (error_rates : list PyFloat.float)
  (acc : list TestCase * Z) : M rng (list TestCase * Z) :=
  match error_rates with
  | [] => ret acc
  | error_rate :: rest =>
      let '(test_cases, test_id) := acc in
      '(corrupted, num_errors) <-
         ErrorInjector.inject_errors sentence error_rate ;;
      actual_rate <-
         lift (ErrorInjector.calculate_actual_error_rate sentence corrupted) ;;
      let word_count := len (split sentence) in
      let test_case := {| id := test_id;
                          original := sentence;
                          corrupted := corrupted;
                          target_error_rate := error_rate;
                          actual_error_rate := actual_rate;
                          word_count := word_count;
                          num_errors := num_errors |} in
      rates_loop sentence rest (test_cases ++ [test_case], test_id + 1)
  end.

Fixpoint sentences_loop (sentences : list str)
  (error_rates : list PyFloat.float)
  (acc : list TestCase * Z) : M rng (list TestCase * Z) :=
  match sentences with
  | [] => ret acc
  | sentence :: rest =>
      acc' <- rates_loop sentence error_rates acc ;;
      sentences_loop rest error_rates acc'
  end.

Definition generate_test_cases (self : TestCaseGenerator)
  (error_rates : list PyFloat.float) : M rng (list TestCase) :=
  acc <- sentences_loop (base_sentences self) error_rates ([], 1) ;;
  ret (fst acc).

End WithRandom.
End Generator.

(** ** [src/agents/pipeline.py] *)

(** A number handed to [time.sleep]: the backoff is an [int], the
    configured delay whatever the configuration holds. *)
Inductive number :=
| Int (n : Z)
| Float (x : PyFloat.float).

Module Pipeline.

(** The arguments of [client.messages.create]. *)
Record request := {
  req_model : str;
  req_max_tokens : Z;
  req_temperature : PyFloat.float;
  req_system : str;
  req_content : str
}.

(** The text-generation service, [time.sleep] and the wall clock.  A
    call yields the text of [message.content[0].text] or the exception
    raised while getting it.  [time_sleep] pauses, or raises: the
    interpreter refuses a negative length, a NaN and a length too large
    for its timer.  [time_time] reads the clock. *)
Class Service := {
  service : Type;
  messages_create : request -> service -> result str * service;
  time_sleep : number -> service -> result unit * service;
  time_time : service -> PyFloat.float
}.

(** What a run does to the outside, in order.  [print] is left out. *)
Inductive event :=
| Request (r : request)
| Sleep (seconds : number).

Section WithService.
Context {Srv : Service}.

Record world := {
  srv : service;
  log : list event
}.

Definition create (r : request) : M world str :=
  fun w =>
    let '(answer, s') := messages_create r (srv w) in
    (answer, {| srv := s'; log := log w ++ [Request r] |}).

(** [time.sleep(seconds)]; a pause that is refused leaves no event. *)
Definition sleep (seconds : number) : M world unit :=
  fun w =>
    match time_sleep seconds (srv w) with
    | (Ok _, s') => (Ok tt, {| srv := s'; log := log w ++ [Sleep seconds] |})
    | (Raise e, s') => (Raise e, {| srv := s'; log := log w |})
    end.

Definition now : M world PyFloat.float :=
  fun w => (Ok (time_time (srv w)), w).

(** The fields of a [TranslationPipeline] that the calls read. *)
Record TranslationPipeline := {
  model : str;
  max_retries : Z;
  delay : number;
  skills : list (str * str)
}.

(** [self.skills.get(agent_name, "")] *)
Fixpoint skills_get (skills : list (str * str)) (agent_name : str) : str :=
  match skills with
  | [] => []
  | (k, v) :: rest => if str_eqb k agent_name then v else skills_get rest agent_name
  end.

Definition temperature : PyFloat.float :=
  S754_finite false 5404319552844595 (-54).

Definition system_prompt_of (skill_prompt : str) : str :=
  skill_prompt ++ [Generator.LF; Generator.LF]
  ++ lit "Please translate the following text according to the instructions above.".

Definition failure_message (agent_name : str) (retries : Z) (e : exn) : str :=
  lit "Agent " ++ agent_name ++ lit " failed after " ++ str_of_int retries
  ++ lit " attempts: " ++ str_of_exn e.

(** The loop [for attempt in range(self.max_retries)] of [_call_agent];
    [todo] counts the iterations left and [attempt] is the loop variable.
    After the loop the method returns the empty string. *)
Fixpoint attempts (self : TranslationPipeline) (agent_name : str)
  (r : request) (todo : nat) (attempt : Z) : M world str :=
  match todo with
  | O => ret []
  | S todo' =>
      try_except
        (text <- create r ;;
         let translation := strip text in
         _ <- sleep (delay self) ;;
         ret translation)
        (fun e =>
           if attempt =? max_retries self - 1
           then raise (Exception (failure_message agent_name (max_retries self) e))
           else
             let wait_time := 2 ^ attempt in
             _ <- sleep (Int wait_time) ;;
             attempts self agent_name r todo' (attempt + 1))
  end.

Definition request_of (self : TranslationPipeline) (agent_name input_text : str)
  : request :=
  {| req_model := model self;
     req_max_tokens := 1024;
     req_temperature := temperature;
     req_system := system_prompt_of (skills_get (skills self) agent_name);
     req_content := input_text |}.

Definition _call_agent (self : TranslationPipeline)
  (agent_name input_text : str) : M world str :=
  attempts self agent_name (request_of self agent_name input_text)
    (Z.to_nat (max_retries self)) 0.

Record metadata := {
  duration : PyFloat.float;
  success : bool;
  meta_model : str
}.

(** The dictionary that [process] returns. *)
Record translation := {
  test_id : Z;
  original : str;
  french : str;
  hebrew : str;
  final : str;
  meta : metadata
}.

Definition process (self : TranslationPipeline) (english_input : str)
  (test_id : Z) : M world translation :=
  start_time <- now ;;
  french <- _call_agent self (lit "agent1") english_input ;;
  hebrew <- _call_agent self (lit "agent2") french ;;
  final_english <- _call_agent self (lit "agent3") hebrew ;;
  end_time <- now ;;
  let duration := SFsub PyFloat.prec PyFloat.emax end_time start_time in
  ret {| test_id := test_id;
         original := english_input;
         french := french;
         hebrew := hebrew;
         final := final_english;
         meta := {| duration := duration;
                    success := true;
                    meta_model := model self |} |}.

(** The copy of the test case's fields added to a result. *)
Record test_case_fields := {
  tc_id : Z;
  original_clean : str;
  tc_target_error_rate : PyFloat.float;
  tc_actual_error_rate : PyFloat.float;
  tc_word_count : Z
}.

(** An element of the list that [process_batch] returns: the dictionary
    of [process] with its ["test_case"] entry, or the dictionary built by
    the handler, [{"test_id", "error", "metadata": {"success": False}}]. *)
Inductive batch_result :=
| Translated (r : translation) (test_case : test_case_fields)
| Failed (failed_test_id : Z) (error : str).

(** [result["metadata"]["success"]] *)
Definition result_success (b : batch_result) : bool :=
  match b with
  | Translated r _ => success (meta r)
  | Failed _ _ => false
  end.

(** [result["test_id"]] *)
Definition result_test_id (b : batch_result) : Z :=
  match b with
  | Translated r _ => test_id r
  | Failed i _ => i
  end.

Definition fields_of (test_case : Generator.TestCase) : test_case_fields :=
  {| tc_id := Generator.id test_case;
     original_clean := Generator.original test_case;
     tc_target_error_rate := Generator.target_error_rate test_case;
     tc_actual_error_rate := Generator.actual_error_rate test_case;
     tc_word_count := Generator.word_count test_case |}.

(** The body of the loop of [process_batch]. *)
Definition process_item (self : TranslationPipeline)
  (test_case : Generator.TestCase) (results : list batch_result)
  : M world (list batch_result) :=
  try_except
    (result <- process self (Generator.corrupted test_case)
                       (Generator.id test_case) ;;
     ret (results ++ [Translated result (fields_of test_case)]))
    (fun e =>
       ret (results ++ [Failed (Generator.id test_case) (str_of_exn e)])).

Fixpoint batch_loop (self : TranslationPipeline)
  (test_cases : list Generator.TestCase) (results : list batch_result)
  : M world (list batch_result) :=
  match test_cases with
  | [] => ret results
  | test_case :: rest =>
      results' <- process_item self test_case results ;;
      batch_loop self rest results'
  end.

Definition process_batch (self : TranslationPipeline)
  (test_cases : list Generator.TestCase) : M world (list batch_result) :=
  batch_loop self test_cases [].

End WithService.
End Pipeline.

(** ** [src/analysis/embeddings.py] *)

(** The element type of an embedding with the arithmetic NumPy performs on
    it.  Only two laws are relied on; both hold of IEEE arithmetic, which
    is neither associative nor distributive. *)
Class Scalar := {
  scalar : Type;
  s_zero : scalar;
  s_one : scalar;
  s_add : scalar -> scalar -> scalar;
  s_sub : scalar -> scalar -> scalar;
  s_mul : scalar -> scalar -> scalar;
  s_div : scalar -> scalar -> scalar;
  s_sqrt : scalar -> scalar;
  s_mul_comm : forall x y, s_mul x y = s_mul y x;
  s_sub_square : forall x y,
      s_mul (s_sub x y) (s_sub x y) = s_mul (s_sub y x) (s_sub y x)
}.

Module Embeddings.
Section WithScalar.
Context {K : Scalar}.

(** A one-dimensional array. *)
Definition vector := list scalar.

(** The embedding model behind [self.model.encode]. *)
Class Encoder := {
  encoder : Type;
  encode : str -> encoder -> vector * encoder
}.

(** [a - b] on arrays of one shape. *)
Fixpoint subtract (a b : vector) : result vector :=
  match a, b with
  | [], [] => Ok []
  | x :: a', y :: b' =>
      match subtract a' b' with
      | Ok d => Ok (s_sub x y :: d)
      | Raise e => Raise e
      end
  | _, _ => Raise (ValueError (lit "operands could not be broadcast together"))
  end.

(** [np.dot(a, b)]: the sum of the products, here taken in index order
    (the order is the library's; it is the same for [np.dot(b, a)]). *)
Fixpoint dot_from (acc : scalar) (a b : vector) : result scalar :=
  match a, b with
  | [], [] => Ok acc
  | x :: a', y :: b' => dot_from (s_add acc (s_mul x y)) a' b'
  | _, _ => Raise (ValueError (lit "shapes not aligned"))
  end.

Definition dot (a b : vector) : result scalar := dot_from s_zero a b.

(** [np.linalg.norm(a)] for a one-dimensional array: [sqrt(a.dot(a))]. *)
Definition norm (a : vector) : result scalar :=
  match dot a a with
  | Ok q => Ok (s_sqrt q)
  | Raise e => Raise e
  end.

(** The arithmetic of [calculate_cosine_distance] on two embeddings. *)
Definition cosine_distance_of (emb1 emb2 : vector) : result scalar :=
  match dot emb1 emb2, norm emb1, norm emb2 with
  | Ok d, Ok n1, Ok n2 =>
      let similarity := s_div d (s_mul n1 n2) in
      Ok (s_sub s_one similarity)
  | Raise e, _, _ | _, Raise e, _ | _, _, Raise e => Raise e
  end.

(** The arithmetic of [calculate_euclidean_distance]. *)
Definition euclidean_distance_of (emb1 emb2 : vector) : result scalar :=
  match subtract emb1 emb2 with
  | Ok d => norm d
  | Raise e => Raise e
  end.

Context {E : Encoder}.

(** A [SemanticAnalyzer]: the model and the dictionary [self.cache], in
    insertion order. *)
Record SemanticAnalyzer := {
  model : encoder;
  cache : list (str * vector)
}.

(** [self.cache[text]], when [text in self.cache] *)
Fixpoint cache_get (cache : list (str * vector)) (text : str) : option vector :=
  match cache with
  | [] => None
  | (k, v) :: rest => if str_eqb k text then Some v else cache_get rest text
  end.

Definition get_embedding (text : str) : M SemanticAnalyzer vector :=
  fun self =>
    match cache_get (cache self) text with
    | Some embedding => (Ok embedding, self)
    | None =>
        let '(embedding, model') := encode text (model self) in
        (Ok embedding,
         {| model := model'; cache := cache self ++ [(text, embedding)] |})
    end.

Definition calculate_cosine_distance (text1 text2 : str)
  : M SemanticAnalyzer scalar :=
  emb1 <- get_embedding text1 ;;
  emb2 <- get_embedding text2 ;;
  lift (cosine_distance_of emb1 emb2).

Definition calculate_euclidean_distance (text1 text2 : str)
  : M SemanticAnalyzer scalar :=
  emb1 <- get_embedding text1 ;;
  emb2 <- get_embedding text2 ;;
  lift (euclidean_distance_of emb1 emb2).

Definition calculate_distance (text1 text2 metric : str)
  : M SemanticAnalyzer scalar :=
  if str_eqb metric (lit "cosine")
  then calculate_cosine_distance text1 text2
  else if str_eqb metric (lit "euclidean")
       then calculate_euclidean_distance text1 text2
       else raise (ValueError (lit "Unknown metric: " ++ metric)).

(** The loop of [batch_calculate_distances]; [distances] is the list
    built so far. *)
Fixpoint distances_loop (text_pairs : list (str * str)) (metric : str)
  (distances : list scalar) : M SemanticAnalyzer (list scalar) :=
  match text_pairs with
  | [] => ret distances
  | (text1, text2) :: rest =>
      distance <- calculate_distance text1 text2 metric ;;
      distances_loop rest metric (distances ++ [distance])
  end.

Definition batch_calculate_distances (text_pairs : list (str * str))
  (metric : str) : M SemanticAnalyzer (list scalar) :=
  distances_loop text_pairs metric [].

End WithScalar.
End Embeddings.

(** ** Dictionaries with string keys, in insertion order *)

Module Dict.

Definition dict (V : Type) := list (str * V).

(** [d.get(key)] *)
Fixpoint get {V} (d : dict V) (key : str) : option V :=
  match d with
  | [] => None
  | (k, v) :: rest => if str_eqb k key then Some v else get rest key
  end.

(** [d[key] = value] *)
Fixpoint set {V} (d : dict V) (key : str) (value : V) : dict V :=
  match d with
  | [] => [(key, value)]
  | (k, v) :: rest =>
      if str_eqb k key then (k, value) :: rest else (k, v) :: set rest key value
  end.

End Dict.

(** ** [TranslationPipeline._load_skills] ([src/agents/pipeline.py]) *)

Module Skills.

(** What the loader can raise: [KeyError] for a missing key of an
    agent's configuration, and whatever the file system raises. *)
Inductive error :=
| KeyError (key : str)
| Raised (e : exn).

(** [self.config.get("agents", {})]: for each agent its configuration, a
    dictionary of strings. *)
Definition agents_config := Dict.dict (Dict.dict str).

(** The body of the loop of [_load_skills]. *)
Definition load_skill (fs : Generator.filesystem)
  (skills : Dict.dict str) (agent_name : str) (agent_config : Dict.dict str)
  : error + Dict.dict str :=
  match Dict.get agent_config (lit "skill_file") with
  | None => inl (KeyError (lit "skill_file"))
  | Some skill_file =>
      match Generator.path_exists fs skill_file with
      | Ok true =>
          match Generator.open_read fs skill_file with
          | Ok text =>
              inr (Dict.set skills agent_name
                     (Generator.universal_newlines text))
          | Raise e => inl (Raised e)
          end
      | Ok false => inr skills
      | Raise e => inl (Raised e)
      end
  end.

Fixpoint load_skills_loop (fs : Generator.filesystem)
  (agents : agents_config) (skills : Dict.dict str) : error + Dict.dict str :=
  match agents with
  | [] => inr skills
  | (agent_name, agent_config) :: rest =>
      match load_skill fs skills agent_name agent_config with
      | inr skills' => load_skills_loop fs rest skills'
      | inl e => inl e
      end
  end.

Definition _load_skills (fs : Generator.filesystem) (agents : agents_config)
  : error + Dict.dict str :=
  load_skills_loop fs agents [].

End Skills.

(** ** Stored test cases ([save_test_cases] and [load_test_cases] of
    [src/input/generator.py]) and configuration lookup
    ([src/utils/config.py])

    A JSON document is what [json.load] returns for it. *)

Module Json.

#[warnings="-register-all"]
Inductive value :=
| Null
| Bool (b : bool)
| Integer (n : Z)
| Real (x : PyFloat.float)
| String (s : str)
| Array (items : list value)
| Object (members : list (str * value)).

(** [json.dump] into a text file and [json.load] from one.  Writing can
    fail (a string with a lone surrogate has no UTF-8 encoding), and not
    every text is a document; a text that was written is read back as
    the lists, dictionaries, strings and numbers it was written from. *)
Class Codec := {
  text : Type;
  dump : value -> option text;
  load : text -> option value;
  load_dump : forall v t, dump v = Some t -> load t = Some v
}.

End Json.

Module Storage.
Import Json.

(** [EncodeError] stands for what [json.dump] raises when it cannot
    write. *)
Inductive error :=
| FileNotFoundError (path : str)
| EncodeError
| JSONDecodeError
| KeyError (key : str)
| TypeError (msg : str).

(** A test case as [load_test_cases] builds it: the fields hold whatever
    the document has under their keys. *)
Record LoadedCase := {
  id : value;
  original : value;
  corrupted : value;
  target_error_rate : value;
  actual_error_rate : value;
  word_count : value;
  num_errors : value
}.

(** A generated test case as the Python object it is. *)
Definition dynamic (tc : Generator.TestCase) : LoadedCase :=
  {| id := Integer (Generator.id tc);
     original := String (Generator.original tc);
     corrupted := String (Generator.corrupted tc);
     target_error_rate := Real (Generator.target_error_rate tc);
     actual_error_rate := Real (Generator.actual_error_rate tc);
     word_count := Integer (Generator.word_count tc);
     num_errors := Integer (Generator.num_errors tc) |}.

(** The dictionary that [save_test_cases] writes for a test case. *)
Definition to_dict (tc : Generator.TestCase) : value :=
  Object [(lit "id", Integer (Generator.id tc));
          (lit "original", String (Generator.original tc));
          (lit "corrupted", String (Generator.corrupted tc));
          (lit "target_error_rate", Real (Generator.target_error_rate tc));
          (lit "actual_error_rate", Real (Generator.actual_error_rate tc));
          (lit "word_count", Integer (Generator.word_count tc));
          (lit "num_errors", Integer (Generator.num_errors tc))].

Section WithCodec.
Context {C : Codec}.

(** The texts held by the files that exist. *)
Definition store := str -> option text.

(** The files after [save_test_cases], if it returns. *)
Definition save_test_cases (files : store)
  (test_cases : list Generator.TestCase) (output_file : str) : error + store :=
  let data := Array (map to_dict test_cases) in
  match dump data with
  | Some written =>
      inr (fun path => if str_eqb path output_file then Some written
                       else files path)
  | None => inl EncodeError
  end.

End WithCodec.

(** [item[key]] for a string [key] *)
Definition subscript (item : value) (key : str) : error + value :=
  match item with
  | Object members =>
      match Dict.get members key with
      | Some v => inr v
      | None => inl (KeyError key)
      end
  | Array _ => inl (TypeError (lit "list indices must be integers or slices, not str"))
  | String _ => inl (TypeError (lit "string indices must be integers"))
  | Null | Bool _ | Integer _ | Real _ =>
      inl (TypeError (lit "object is not subscriptable"))
  end.

(** [for item in data] *)
Definition iterate (data : value) : error + list value :=
  match data with
  | Array items => inr items
  | Object members => inr (map (fun kv => String (fst kv)) members)
  | String s => inr (map (fun c => String [c]) s)
  | Null | Bool _ | Integer _ | Real _ =>
      inl (TypeError (lit "object is not iterable"))
  end.

Definition and_then {A B} (r : error + A) (k : A -> error + B) : error + B :=
  match r with
  | inr a => k a
  | inl e => inl e
  end.

(** [TestCase(id=item["id"], ...)], the fields read in this order. *)
Definition load_case (item : value) : error + LoadedCase :=
  and_then (subscript item (lit "id")) (fun v1 =>
  and_then (subscript item (lit "original")) (fun v2 =>
  and_then (subscript item (lit "corrupted")) (fun v3 =>
  and_then (subscript item (lit "target_error_rate")) (fun v4 =>
  and_then (subscript item (lit "actual_error_rate")) (fun v5 =>
  and_then (subscript item (lit "word_count")) (fun v6 =>
  and_then (subscript item (lit "num_errors")) (fun v7 =>
  inr {| id := v1; original := v2; corrupted := v3;
         target_error_rate := v4; actual_error_rate := v5;
         word_count := v6; num_errors := v7 |}))))))).

Fixpoint load_cases (items : list value) : error + list LoadedCase :=
  match items with
  | [] => inr []
  | item :: rest =>
      and_then (load_case item) (fun tc =>
      and_then (load_cases rest) (fun tcs => inr (tc :: tcs)))
  end.

Section WithCodec.
Context {C : Codec}.

Definition load_test_cases (files : store) (input_file : str)
  : error + list LoadedCase :=
  match files input_file with
  | None => inl (FileNotFoundError input_file)
  | Some written =>
      match load written with
      | Some data => and_then (iterate data) load_cases
      | None => inl JSONDecodeError
      end
  end.

End WithCodec.

End Storage.

Module Config.
Import Json.

(** [get_config_value(config, *keys, default=default)] *)
Fixpoint get_config_value (config : value) (keys : list str) (default : value)
  : value :=
  match keys with
  | [] => config
  | key :: rest =>
      match config with
      | Object members =>
          match Dict.get members key with
          | Some v => get_config_value v rest default
          | None => default
          end
      | _ => default
      end
  end.

End Config.

(** ** The analysis loop of [run_full_pipeline] ([src/main.py]) *)

Module Analysis.
Section WithScalar.
Context {K : Scalar} {E : @Embeddings.Encoder K}.

(** A row of [analysis_data]. *)
Record row := {
  row_test_id : Z;
  error_rate : PyFloat.float;
  row_target_error_rate : PyFloat.float;
  distance : scalar;
  row_original : str;
  row_final : str;
  row_word_count : Z
}.

(** [for result in results: if result.get('metadata', {}).get('success'): ...] *)
Fixpoint analysis_loop (results : list Pipeline.batch_result) (metric : str)
  (analysis_data : list row) : M Embeddings.SemanticAnalyzer (list row) :=
  match results with
  | [] => ret analysis_data
  | result :: rest =>
      match result with
      | Pipeline.Translated r test_case =>
          if Pipeline.success (Pipeline.meta r)
          then
            let original := Pipeline.original_clean test_case in
            let final := Pipeline.final r in
            let error_rate := Pipeline.tc_actual_error_rate test_case in
            distance <- Embeddings.calculate_distance original final metric ;;
            analysis_loop rest metric
              (analysis_data
               ++ [{| row_test_id := Pipeline.test_id r;
                      error_rate := error_rate;
                      row_target_error_rate :=
                        Pipeline.tc_target_error_rate test_case;
                      distance := distance;
                      row_original := original;
                      row_final := final;
                      row_word_count := Pipeline.tc_word_count test_case |}])
          else analysis_loop rest metric analysis_data
      | Pipeline.Failed _ _ => analysis_loop rest metric analysis_data
      end
  end.

Definition analyze (results : list Pipeline.batch_result) (metric : str)
  : M Embeddings.SemanticAnalyzer (list row) :=
  analysis_loop results metric [].

End WithScalar.
End Analysis.

(** * Properties *)

(** ** Words, [split] and [join] *)

Module PyFacts.

(** A word as [split] makes them: not empty and free of whitespace. *)
Definition solid (w : str) : Prop :=
  w <> [] /\ Forall (fun c => isspace c = false) w.

Lemma len_nonneg {A} (l : list A) : 0 <= len l.
Proof. unfold len. lia. Qed.

Lemma len_app {A} (a b : list A) : len (a ++ b) = len a + len b.
Proof. unfold len. rewrite length_app. lia. Qed.

Lemma len_cons {A} (x : A) (l : list A) : len (x :: l) = 1 + len l.
Proof. unfold len. cbn [length]. lia. Qed.

Lemma len_nil_iff {A} (l : list A) : len l = 0 <-> l = [].
Proof.
  unfold len. destruct l; cbn [length]; split; intro H;
    try reflexivity; try discriminate; lia.
Qed.

Lemma split_from_app (w : str) :
  Forall (fun c => isspace c = false) w ->
  forall cur s, split_from cur (w ++ s) = split_from (rev w ++ cur) s.
Proof.
  induction 1 as [|c w Hc Hw IH]; intros cur s.
  - reflexivity.
  - simpl. rewrite Hc, IH, <- app_assoc. reflexivity.
Qed.

Lemma split_solid_word (w : str) : solid w -> split w = [w].
Proof.
  intros [Hne Hw]. unfold split.
  rewrite <- (app_nil_r w) at 1. rewrite split_from_app by assumption.
  rewrite app_nil_r. simpl.
  destruct (rev w) eqn:E.
  - apply (f_equal (@rev char)) in E. rewrite rev_involutive in E. contradiction.
  - rewrite <- E, rev_involutive. reflexivity.
Qed.

Lemma split_word_space (w s : str) :
  solid w -> split (w ++ lit " " ++ s) = w :: split s.
Proof.
  intros [Hne Hw]. unfold split.
  rewrite split_from_app by assumption. rewrite app_nil_r. simpl.
  destruct (rev w) eqn:E.
  - apply (f_equal (@rev char)) in E. rewrite rev_involutive in E. contradiction.
  - rewrite <- E, rev_involutive. reflexivity.
Qed.

(** Joining words with single spaces and splitting again gives the words
    back. *)
Lemma split_join (ws : list str) :
  Forall solid ws -> split (join (lit " ") ws) = ws.
Proof.
  induction 1 as [|w ws Hw Hws IH].
  - reflexivity.
  - destruct ws as [|w2 ws'].
    + simpl. apply split_solid_word; assumption.
    + change (join (lit " ") (w :: w2 :: ws'))
        with (w ++ lit " " ++ join (lit " ") (w2 :: ws')).
      rewrite split_word_space by assumption. rewrite IH. reflexivity.
Qed.

Lemma split_from_solid (s : str) :
  forall cur, Forall (fun c => isspace c = false) cur ->
  Forall solid (split_from cur s).
Proof.
  assert (Hrev : forall cur : str, cur <> [] ->
            Forall (fun c => isspace c = false) cur -> solid (rev cur)).
  { intros cur Hne Hc. split.
    - intro E. apply (f_equal (@rev char)) in E.
      rewrite rev_involutive in E. contradiction.
    - apply Forall_rev. assumption. }
  induction s as [|c s IH]; intros cur Hcur; simpl.
  - destruct cur; constructor; [apply Hrev; [discriminate|assumption]|constructor].
  - destruct (isspace c) eqn:Ec.
    + destruct cur.
      * apply IH. constructor.
      * constructor; [apply Hrev; [discriminate|assumption]|apply IH; constructor].
    + apply IH. constructor; assumption.
Qed.

Lemma split_solid (s : str) : Forall solid (split s).
Proof. apply split_from_solid. constructor. Qed.

Lemma split_from_length (s : str) :
  forall cur,
    (length (split_from cur s) <= length s + Nat.min 1 (length cur))%nat.
Proof.
  induction s as [|c s IH]; intros cur; simpl.
  - destruct cur; simpl; lia.
  - destruct (isspace c).
    + destruct cur; simpl.
      * specialize (IH []). simpl in IH. lia.
      * specialize (IH []). simpl in IH. lia.
    + specialize (IH (c :: cur)). simpl in IH. lia.
Qed.

(** A text has no more words than characters. *)
Lemma split_length (s : str) : len (split s) <= len s.
Proof.
  unfold len, split. pose proof (split_from_length s []) as H. simpl in H. lia.
Qed.

End PyFacts.

(** ** Rounding to binary64 stays finite on the values the injector meets *)

Module PyFloatFacts.
Import PyFloat.

Lemma digits2_pos_size (p : positive) : digits2_pos p = Pos.size p.
Proof. induction p; simpl; congruence. Qed.

Lemma pos_lt_pow_digits (p : positive) : Z.pos p < 2 ^ Z.pos (digits2_pos p).
Proof.
  rewrite digits2_pos_size.
  pose proof (Pos.size_gt p) as H.
  change 2 with (Z.pos 2). rewrite <- Pos2Z.inj_pow. lia.
Qed.

Lemma digits_le_of_lt_pow (p : positive) (k : Z) :
  Z.pos p < 2 ^ k -> Z.pos (digits2_pos p) <= k.
Proof.
  intros H. rewrite digits2_pos_size.
  destruct (Z_le_gt_dec (Z.pos (Pos.size p)) k) as [Hle|Hgt]; [assumption|exfalso].
  assert (Hk : 0 <= k).
  { destruct (Z_lt_le_dec k 0) as [Hn|]; [|assumption].
    rewrite (Z.pow_neg_r 2 k Hn) in H. lia. }
  pose proof (Pos.size_le p) as Hs.
  assert (Hz : 2 ^ Z.pos (Pos.size p) <= 2 * Z.pos p).
  { change 2 with (Z.pos 2) at 1. rewrite <- Pos2Z.inj_pow.
    change (2 * Z.pos p) with (Z.pos p~0). lia. }
  assert (Hp : 2 ^ (k + 1) <= 2 ^ Z.pos (Pos.size p))
    by (apply Z.pow_le_mono_r; lia).
  rewrite Z.pow_add_r in Hp by lia. lia.
Qed.

Lemma Zdigits2_le (m k : Z) : 0 <= m < 2 ^ k -> 0 <= k -> Zdigits2 m <= k.
Proof.
  intros [H0 H] Hk. destruct m as [|p|p]; simpl; try lia.
  apply digits_le_of_lt_pow. assumption.
Qed.

Lemma fexp_mono (a b : Z) : a <= b -> fexp prec emax a <= fexp prec emax b.
Proof. unfold fexp. lia. Qed.

Lemma shr_1_bounds (mrs : shr_record) :
  0 <= shr_m mrs -> 0 <= shr_m (shr_1 mrs) <= shr_m mrs.
Proof.
  destruct mrs as [m r s]. simpl. intros H.
  destruct m as [|[p|p|]|p]; simpl; lia.
Qed.

Lemma iter_pos_invariant {A} (f : A -> A) (P : A -> Prop) :
  (forall x, P x -> P (f x)) ->
  forall n x, P x -> P (iter_pos f n x).
Proof.
  intros Hf. induction n as [n IH|n IH|]; intros x Hx; simpl; auto.
Qed.

Lemma shr_m_of_loc (m : Z) (l : location) : shr_m (shr_record_of_loc m l) = m.
Proof. destruct l as [|[| |]]; reflexivity. Qed.

(** One rounding shift: the exponent moves up to the canonical one and the
    mantissa does not grow. *)
Lemma shr_fexp_bounds (m e : Z) (l : location) :
  0 <= m ->
  let '(mrs, e') := shr_fexp prec emax m e l in
  0 <= shr_m mrs <= m /\ e' = Z.max e (fexp prec emax (Zdigits2 m + e)).
Proof.
  intros Hm. unfold shr_fexp, shr.
  destruct (fexp prec emax (Zdigits2 m + e) - e) as [|p|p] eqn:En.
  - rewrite shr_m_of_loc. lia.
  - split; [|lia].
    apply (iter_pos_invariant shr_1 (fun x => 0 <= shr_m x <= m)).
    + intros x Hx. pose proof (shr_1_bounds x). lia.
    + rewrite shr_m_of_loc. lia.
  - rewrite shr_m_of_loc. lia.
Qed.

Lemma round_nearest_even_bounds (m : Z) (l : location) :
  m <= round_nearest_even m l <= m + 1.
Proof.
  destruct l as [|[| |]]; simpl; try lia. destruct (Z.even m); lia.
Qed.

(** Rounding a mantissa below [2^k] at exponent [e]: the outcome is a zero
    or a finite number whenever the bound [e2] on its exponent is in
    range. *)
Lemma binary_round_aux_finite (s : bool) (m e : Z) (l : location) (k : Z) :
  0 <= m < 2 ^ k -> 0 <= k ->
  let e1 := Z.max e (fexp prec emax (k + e)) in
  let e2 := Z.max e1 (fexp prec emax (k + 1 + e1)) in
  e2 <= emax - prec ->
  match binary_round_aux prec emax s m e l with
  | S754_zero s' => s' = s
  | S754_finite s' m' e' => s' = s /\ Z.pos m' < 2 ^ (k + 1) /\ e' <= e2
  | S754_infinity _ | S754_nan => False
  end.
Proof.
  intros Hm Hk e1 e2 He2. unfold binary_round_aux.
  pose proof (shr_fexp_bounds m e l (proj1 Hm)) as H1.
  destruct (shr_fexp prec emax m e l) as [mrs' e'].
  destruct H1 as [Hm' He'].
  pose proof (round_nearest_even_bounds (shr_m mrs') (loc_of_shr_record mrs')) as Hr.
  set (m1 := round_nearest_even (shr_m mrs') (loc_of_shr_record mrs')) in *.
  assert (Hm1 : 0 <= m1) by lia.
  pose proof (shr_fexp_bounds m1 e' loc_Exact Hm1) as H2.
  destruct (shr_fexp prec emax m1 e' loc_Exact) as [mrs'' e''].
  destruct H2 as [Hm'' He''].
  assert (Hpow : 2 ^ (k + 1) = 2 * 2 ^ k) by (rewrite Z.pow_add_r; lia).
  assert (Hd : Zdigits2 m <= k) by (apply Zdigits2_le; lia).
  assert (Hd1 : Zdigits2 m1 <= k + 1) by (apply Zdigits2_le; lia).
  assert (Hf1 : fexp prec emax (Zdigits2 m + e) <= fexp prec emax (k + e))
    by (apply fexp_mono; lia).
  assert (He1 : e' <= e1) by (unfold e1; lia).
  assert (Hf2 : fexp prec emax (Zdigits2 m1 + e') <= fexp prec emax (k + 1 + e1))
    by (apply fexp_mono; lia).
  assert (Hle : e'' <= e2) by (unfold e2; lia).
  destruct (shr_m mrs'') as [|p|p] eqn:Ep.
  - reflexivity.
  - replace (e'' <=? emax - prec) with true by (symmetry; apply Z.leb_le; lia).
    repeat split; lia.
  - lia.
Qed.

Lemma iter_xO_pow (m d : positive) :
  Z.pos (Pos.iter xO m d) = Z.pos m * 2 ^ Z.pos d.
Proof.
  induction d as [|d IH] using Pos.peano_ind.
  - simpl. lia.
  - rewrite Pos.iter_succ, Pos2Z.inj_succ, Z.pow_succ_r by lia.
    rewrite Pos2Z.inj_xO, IH. lia.
Qed.

(** The shape of a finite float with a bounded mantissa and exponent. *)
Definition small (x : float) (k b : Z) : Prop :=
  match x with
  | S754_zero _ => True
  | S754_finite _ m e => Z.pos m < 2 ^ k /\ e <= b
  | S754_infinity _ | S754_nan => False
  end.

Lemma small_finite (x : float) (k b : Z) : small x k b -> is_finite x = true.
Proof. destruct x; simpl; intros H; try reflexivity; contradiction. Qed.

Lemma of_int_small (n : Z) :
  0 <= n <= maxsize -> exists f, of_int n = Ok f /\ small f 64 21.
Proof.
  intros Hn. unfold of_int, binary_normalize.
  destruct n as [|p|p]; [eexists; split; [reflexivity|exact I]| |lia].
  unfold binary_round.
  set (fe := fexp prec emax (Z.pos (digits2_pos p) + 0)).
  assert (Hal : exists mz ez, shl_align p 0 fe = (mz, ez)
                              /\ Z.pos mz < 2 ^ 63 /\ ez <= 0).
  { unfold shl_align. destruct (fe - 0) as [|d|d] eqn:Ed.
    - exists p, 0. repeat split; unfold maxsize in Hn; lia.
    - exists p, 0. repeat split; unfold maxsize in Hn; lia.
    - exists (Pos.iter xO p d), fe. split; [reflexivity|]. split; [|lia].
      rewrite iter_xO_pow.
      pose proof (pos_lt_pow_digits p) as Hp.
      assert (Hd : Z.pos (digits2_pos p) + Z.pos d <= 53)
        by (unfold fe, fexp, emin, prec, emax in Ed; lia).
      assert (Hpow : 2 ^ (Z.pos (digits2_pos p) + Z.pos d) <= 2 ^ 63)
        by (apply Z.pow_le_mono_r; lia).
      rewrite Z.pow_add_r in Hpow by lia.
      assert (0 < 2 ^ Z.pos d) by (apply Z.pow_pos_nonneg; lia).
      nia. }
  destruct Hal as (mz & ez & -> & Hmz & Hez).
  pose proof (binary_round_aux_finite false (Z.pos mz) ez loc_Exact 63) as H.
  cbv zeta in H.
  assert (Hb : Z.max (Z.max ez (fexp prec emax (63 + ez)))
                 (fexp prec emax (63 + 1 + Z.max ez (fexp prec emax (63 + ez))))
               <= 21)
    by (unfold fexp, emin, prec, emax; lia).
  specialize (H ltac:(lia) ltac:(lia) ltac:(unfold prec, emax in *; lia)).
  destruct (binary_round_aux prec emax false (Z.pos mz) ez loc_Exact)
    as [s'|s'| |s' m' e']; try contradiction.
  - eexists; split; [reflexivity|exact I].
  - eexists; split; [reflexivity|]. simpl. destruct H as (_ & Hm' & He'). split; lia.
Qed.

Lemma unit_rate_small (r : float) : unit_rate r = true -> small r 53 (-52).
Proof.
  unfold unit_rate. intros H.
  apply andb_true_iff in H as [H H1]. apply andb_true_iff in H as [Hv H0].
  destruct r as [s|s| |s m e]; simpl.
  - exact I.
  - destruct s; discriminate.
  - discriminate.
  - destruct s; [discriminate|].
    unfold leb, SFleb, SFcompare, one in H1.
    unfold valid, valid_binary, bounded, canonical_mantissa in Hv.
    apply andb_true_iff in Hv as [Hc _]. apply Z.eqb_eq in Hc.
    pose proof (pos_lt_pow_digits m) as Hm.
    assert (Hd : Z.pos (digits2_pos m) <= 53)
      by (unfold fexp, emin, prec, emax in Hc; lia).
    assert (Hpow : 2 ^ Z.pos (digits2_pos m) <= 2 ^ 53)
      by (apply Z.pow_le_mono_r; lia).
    split; [lia|].
    destruct (Z.compare_spec e (-52)); lia.
Qed.

Lemma mul_small (x y : float) :
  small x 64 21 -> small y 53 (-52) -> is_finite (mul x y) = true.
Proof.
  destruct x as [sx|sx| |sx mx ex]; destruct y as [sy|sy| |sy my ey];
    simpl; try tauto.
  intros [Hx Hex] [Hy Hey].
  pose proof (binary_round_aux_finite (xorb sx sy) (Z.pos (mx * my)) (ex + ey)
                loc_Exact 117) as H.
  cbv zeta in H.
  assert (Hm : 0 <= Z.pos (mx * my) < 2 ^ 117).
  { rewrite Pos2Z.inj_mul. change 117 with (64 + 53).
    rewrite Z.pow_add_r by lia. split; [lia|].
    apply Z.mul_lt_mono_nonneg; lia. }
  specialize (H Hm ltac:(lia)
                ltac:(unfold fexp, emin, prec, emax; lia)).
  unfold mul, SFmul.
  destruct (binary_round_aux prec emax (xorb sx sy) (Z.pos (mx * my)) (ex + ey)
              loc_Exact); try contradiction; reflexivity.
Qed.

(** [total_words * error_rate] is a finite float for every list of words
    and every rate in the unit interval. *)
Lemma int_mul_float_finite (n : Z) (r : float) :
  0 <= n <= maxsize -> unit_rate r = true ->
  exists x, int_mul_float n r = Ok x /\ is_finite x = true.
Proof.
  intros Hn Hr. unfold int_mul_float.
  destruct (of_int_small n Hn) as (f & -> & Hf).
  eexists; split; [reflexivity|].
  apply mul_small; [assumption|apply unit_rate_small; assumption].
Qed.

(** [int] truncates and [floor] rounds down; under [max(1, _)] they
    agree. *)
Lemma to_int_floor (x : float) :
  is_finite x = true ->
  exists t, to_int x = Ok t /\ Z.max 1 t = Z.max 1 (floor x).
Proof.
  destruct x as [s|s| |s m e]; simpl; intros H; try discriminate.
  - eexists; split; reflexivity.
  - eexists; split; [reflexivity|].
    destruct s; simpl; [|reflexivity].
    assert (H1 : 0 <= Z.shiftl (Z.pos m) e) by (apply Z.shiftl_nonneg; lia).
    assert (H2 : ~ 0 <= Z.shiftl (Z.neg m) e) by (rewrite Z.shiftl_nonneg; lia).
    lia.
Qed.

(** The quotient of two sizes is a finite float: true division of word
    counts raises nothing but [ZeroDivisionError]. *)
Lemma int_truediv_finite (a b : Z) :
  0 <= a <= maxsize -> 0 < b <= maxsize ->
  exists x, int_truediv a b = Ok x /\ is_finite x = true.
Proof.
  intros Ha Hb. unfold int_truediv.
  replace (b =? 0) with false by (symmetry; apply Z.eqb_neq; lia).
  destruct b as [|pb|pb]; try lia.
  destruct a as [|pa|pa]; try lia.
  - simpl. eexists; split; reflexivity.
  - unfold exact, SFdiv, SFdiv_core_binary.
    set (d1 := Zdigits2 (Z.pos pa)). set (d2 := Zdigits2 (Z.pos pb)).
    set (e' := Z.min (fexp prec emax (d1 + 0 - (d2 + 0))) (0 - 0)).
    set (m' := match 0 - 0 - e' with
               | Z0 => Z.pos pa
               | Z.pos _ => Z.shiftl (Z.pos pa) (0 - 0 - e')
               | Z.neg _ => 0
               end).
    assert (Hd1 : 1 <= d1) by (unfold d1; simpl; lia).
    assert (Hd2 : d2 <= 63).
    { unfold d2. simpl. apply digits_le_of_lt_pow. unfold maxsize in Hb. lia. }
    assert (He' : -115 <= e' <= 0) by (unfold e', fexp, emin, prec, emax; lia).
    assert (Hpa : Z.pos pa < 2 ^ 63) by (unfold maxsize in Ha; lia).
    assert (Hm' : 0 <= m' < 2 ^ 178).
    { assert (Hs : 0 <= 0 - 0 - e' <= 115) by lia.
      assert (Hp : 2 ^ (0 - 0 - e') <= 2 ^ 115) by (apply Z.pow_le_mono_r; lia).
      assert (Hp0 : 0 < 2 ^ (0 - 0 - e')) by (apply Z.pow_pos_nonneg; lia).
      assert (Hsh : Z.shiftl (Z.pos pa) (0 - 0 - e') = Z.pos pa * 2 ^ (0 - 0 - e'))
        by (apply Z.shiftl_mul_pow2; lia).
      change (2 ^ 178) with (2 ^ 63 * 2 ^ 115).
      unfold m'. destruct (0 - 0 - e') as [|s|s].
      - lia.
      - rewrite Hsh. split; [lia|].
        apply Z.le_lt_trans with (Z.pos pa * 2 ^ 115).
        + apply Z.mul_le_mono_nonneg_l; lia.
        + apply Z.mul_lt_mono_pos_r; lia.
      - lia. }
    destruct (Z.div_eucl m' (Z.pos pb)) as [q r] eqn:Ediv.
    assert (Hq : q = m' / Z.pos pb) by (unfold Z.div; rewrite Ediv; reflexivity).
    assert (Hq0 : 0 <= q) by (subst q; apply Z.div_pos; lia).
    assert (Hqm : q <= m') by (subst q; apply Z.div_le_upper_bound; nia).
    pose proof (binary_round_aux_finite (xorb false false) q e'
                  (new_location (Z.pos pb) r) 178) as H.
    cbv zeta in H.
    specialize (H ltac:(lia) ltac:(lia)
                  ltac:(unfold fexp, emin, prec, emax; lia)).
    destruct (binary_round_aux prec emax (xorb false false) q e'
                (new_location (Z.pos pb) r)); try contradiction;
      eexists; split; reflexivity.
Qed.

End PyFloatFacts.

(** ** The error injector *)

Module ErrorInjectorFacts.
Import PyFacts PyRandom ErrorInjector.

Definition nospace (w : str) : Prop := Forall (fun c => isspace c = false) w.

(** The word without one trailing punctuation character, if it has one. *)
Definition strip_punct (w : str) : str :=
  match rev w with
  | c :: r => if contains punctuation [c] then rev r else w
  | [] => w
  end.

Lemma nospace_firstn (n : nat) (w : str) : nospace w -> nospace (firstn n w).
Proof.
  unfold nospace. intros H. rewrite <- (firstn_skipn n w) in H.
  apply Forall_app in H. tauto.
Qed.

Lemma nospace_skipn (n : nat) (w : str) : nospace w -> nospace (skipn n w).
Proof.
  unfold nospace. intros H. rewrite <- (firstn_skipn n w) in H.
  apply Forall_app in H. tauto.
Qed.

Lemma nospace_alphabet (c : char) : In c alphabet -> isspace c = false.
Proof.
  assert (H : forallb (fun c => negb (isspace c)) alphabet = true) by reflexivity.
  rewrite forallb_forall in H. intros Hc. apply H in Hc.
  destruct (isspace c); [discriminate|reflexivity].
Qed.

Lemma length_set_nth {A} (l : list A) :
  forall n v, length (set_nth l n v) = length l.
Proof.
  induction l as [|a l IH]; intros [|n] v; simpl; try reflexivity.
  rewrite IH. reflexivity.
Qed.

Lemma Forall_set_nth {A} (P : A -> Prop) (l : list A) :
  forall n v, Forall P l -> P v -> Forall P (set_nth l n v).
Proof.
  induction l as [|a l IH]; intros [|n] v Hl Hv; simpl; try assumption.
  - inversion Hl; subst. constructor; assumption.
  - inversion Hl; subst. constructor; [assumption|apply IH; assumption].
Qed.

Lemma nth_error_set_nth_same {A} (l : list A) :
  forall n v, nth_error l n = Some v -> set_nth l n v = l.
Proof.
  induction l as [|a l IH]; intros [|n] v H; simpl in *; try discriminate.
  - congruence.
  - rewrite IH by assumption. reflexivity.
Qed.

Lemma nth_error_set_nth_other {A} (l : list A) :
  forall n m v, n <> m -> nth_error (set_nth l n v) m = nth_error l m.
Proof.
  induction l as [|a l IH]; intros [|n] [|m] v H; simpl; try reflexivity.
  - contradiction.
  - apply IH. congruence.
Qed.

Lemma getitem_ok {A} (l : list A) (i : Z) :
  0 <= i < len l ->
  exists a, getitem l i = Ok a /\ nth_error l (Z.to_nat i) = Some a.
Proof.
  intros Hi. unfold getitem.
  replace (i <? 0) with false by (symmetry; apply Z.ltb_ge; lia).
  replace ((0 <=? i) && (i <? len l)) with true
    by (symmetry; apply andb_true_iff; split;
        [apply Z.leb_le|apply Z.ltb_lt]; lia).
  destruct (nth_error l (Z.to_nat i)) as [a|] eqn:E.
  - exists a. split; reflexivity.
  - apply nth_error_None in E. unfold len in Hi. lia.
Qed.

Lemma setitem_ok {A} (l : list A) (i : Z) (v : A) :
  0 <= i < len l -> setitem l i v = Ok (set_nth l (Z.to_nat i) v).
Proof.
  intros Hi. unfold setitem.
  replace (i <? 0) with false by (symmetry; apply Z.ltb_ge; lia).
  replace ((0 <=? i) && (i <? len l)) with true
    by (symmetry; apply andb_true_iff; split;
        [apply Z.leb_le|apply Z.ltb_lt]; lia).
  reflexivity.
Qed.

(** [w[-1]] and [w[:-1]] take a non-empty word apart. *)
Lemma getitem_last (w : str) :
  w <> [] ->
  exists a, getitem w (-1) = Ok a /\ w = slice_to w (-1) ++ [a]
            /\ len (slice_to w (-1)) = len w - 1.
Proof.
  intros Hne.
  destruct (exists_last Hne) as (w0 & a & ->).
  exists a. unfold getitem, slice_to, clamp_index.
  replace (-1 <? 0) with true by reflexivity.
  rewrite len_app. change (len [a]) with 1.
  pose proof (len_nonneg w0) as H0.
  replace ((0 <=? -1 + (len w0 + 1)) && (-1 + (len w0 + 1) <? len w0 + 1))
    with true
    by (symmetry; apply andb_true_iff; split;
        [apply Z.leb_le|apply Z.ltb_lt]; lia).
  replace (Z.to_nat (-1 + (len w0 + 1))) with (length w0) by (unfold len; lia).
  replace (Z.to_nat (Z.max 0 (-1 + (len w0 + 1)))) with (length w0)
    by (unfold len; lia).
  rewrite nth_error_app2 by lia. rewrite Nat.sub_diag. simpl.
  rewrite firstn_app, Nat.sub_diag, firstn_all. simpl. rewrite app_nil_r.
  repeat split; try reflexivity. lia.
Qed.

Section WithRandom.
Context {R : Random}.

Lemma randint_ok (a b : Z) (g : rng) :
  a <= b -> exists r g', randint a b g = (Ok r, g') /\ a <= r <= b.
Proof.
  intros H. unfold randint.
  replace (a <=? b) with true by (symmetry; apply Z.leb_le; lia).
  pose proof (randbelow_bound (b - a + 1) g ltac:(lia)) as Hb.
  destruct (randbelow (b - a + 1) g) as [r g']. simpl in Hb.
  exists (a + r), g'. split; [reflexivity|lia].
Qed.

Lemma choice_ok {A} (l : list A) (g : rng) :
  l <> [] -> exists x g', choice l g = (Ok x, g') /\ In x l.
Proof.
  intros Hne. unfold choice. destruct l as [|a l]; [contradiction|].
  set (l' := a :: l) in *.
  assert (Hl : 0 < len l') by (unfold l'; rewrite len_cons; pose proof (len_nonneg l); lia).
  pose proof (randbelow_bound (len l') g Hl) as Hb.
  destruct (randbelow (len l') g) as [i g']. simpl in Hb.
  destruct (getitem_ok l' i Hb) as (x & Hx & Hn).
  exists x, g'. split; [rewrite Hx; reflexivity|].
  eapply nth_error_In; eassumption.
Qed.

Lemma solid_of_length (w w' : str) :
  nospace w' -> 0 < len w' -> solid w'.
Proof.
  intros Hn Hl. split; [|assumption].
  intros ->. unfold len in Hl. simpl in Hl. lia.
Qed.

Lemma solid_len (w : str) : solid w -> 0 < len w.
Proof.
  intros [Hne _]. destruct w; [contradiction|].
  rewrite len_cons. pose proof (len_nonneg w). lia.
Qed.

Lemma _swap_characters_solid (w : str) (g : rng) :
  solid w ->
  exists w' g', _swap_characters w g = (Ok w', g') /\ solid w'.
Proof.
  intros Hw. unfold _swap_characters.
  destruct (len w <? 2) eqn:E; [exists w, g; split; [reflexivity|assumption]|].
  apply Z.ltb_ge in E.
  destruct (randint_ok 0 (len w - 2) g ltac:(lia)) as (pos & g' & Hr & Hpos).
  destruct (getitem_ok w (pos + 1) ltac:(lia)) as (a & Ha & Hna).
  destruct (getitem_ok w pos ltac:(lia)) as (b & Hb & Hnb).
  assert (Hlen : len (set_nth w (Z.to_nat pos) a) = len w)
    by (unfold len; rewrite length_set_nth; reflexivity).
  unfold bind, lift. rewrite Hr, Ha, Hb.
  rewrite (setitem_ok w pos a) by lia.
  rewrite setitem_ok by lia.
  eexists _, g'. split; [reflexivity|].
  destruct Hw as [_ Hw]. pose proof (proj1 (Forall_forall _ _) Hw) as Hin.
  apply (solid_of_length w).
  - apply Forall_set_nth; [apply Forall_set_nth|]; try assumption.
    + apply Hin. eapply nth_error_In; eassumption.
    + apply Hin. eapply nth_error_In; eassumption.
  - unfold len. rewrite !length_set_nth. fold (len w). lia.
Qed.

Lemma len_slice_to (w : str) (pos : Z) :
  0 <= pos <= len w -> len (slice_to w pos) = pos.
Proof.
  intros H. unfold slice_to, clamp_index.
  replace (pos <? 0) with false by (symmetry; apply Z.ltb_ge; lia).
  unfold len in *. rewrite length_firstn. lia.
Qed.

Lemma len_slice_from (w : str) (pos : Z) :
  0 <= pos <= len w -> len (slice_from w pos) = len w - pos.
Proof.
  intros H. unfold slice_from, clamp_index.
  replace (pos <? 0) with false by (symmetry; apply Z.ltb_ge; lia).
  unfold len in *. rewrite length_skipn. lia.
Qed.

Lemma _delete_character_solid (w : str) (g : rng) :
  solid w ->
  exists w' g', _delete_character w g = (Ok w', g') /\ solid w'.
Proof.
  intros Hw. unfold _delete_character.
  destruct (len w <? 2) eqn:E; [exists w, g; split; [reflexivity|assumption]|].
  apply Z.ltb_ge in E.
  destruct (randint_ok 0 (len w - 1) g ltac:(lia)) as (pos & g' & Hr & Hpos).
  unfold bind. rewrite Hr.
  eexists _, g'. split; [reflexivity|].
  destruct Hw as [_ Hw].
  apply (solid_of_length w).
  - apply Forall_app. split; [apply nospace_firstn|apply nospace_skipn]; assumption.
  - rewrite len_app, len_slice_to, len_slice_from by lia. lia.
Qed.

Lemma _insert_character_solid (w : str) (g : rng) :
  solid w ->
  exists w' g', _insert_character w g = (Ok w', g') /\ solid w'.
Proof.
  intros Hw. unfold _insert_character.
  pose proof (len_nonneg w) as H0.
  destruct (randint_ok 0 (len w) g ltac:(lia)) as (pos & g' & Hr & Hpos).
  destruct (choice_ok alphabet g' ltac:(discriminate)) as (c & g'' & Hc & Hin).
  unfold bind. rewrite Hr, Hc.
  eexists _, g''. split; [reflexivity|].
  destruct Hw as [_ Hw]. split.
  - intros Habs. apply (f_equal (@List.length char)) in Habs.
    rewrite !length_app in Habs. simpl in Habs. lia.
  - apply Forall_app. split; [apply nospace_firstn; assumption|].
    apply Forall_app. split; [|apply nospace_skipn; assumption].
    constructor; [apply nospace_alphabet; assumption|constructor].
Qed.

Lemma _replace_character_solid (w : str) (g : rng) :
  solid w ->
  exists w' g', _replace_character w g = (Ok w', g') /\ solid w'.
Proof.
  intros Hw. unfold _replace_character.
  pose proof (solid_len w Hw) as H0.
  destruct (randint_ok 0 (len w - 1) g ltac:(lia)) as (pos & g' & Hr & Hpos).
  destruct (choice_ok alphabet g' ltac:(discriminate)) as (c & g'' & Hc & Hin).
  unfold bind. rewrite Hr, Hc.
  eexists _, g''. split; [reflexivity|].
  destruct Hw as [_ Hw]. split.
  - intros Habs. apply (f_equal (@List.length char)) in Habs.
    rewrite !length_app in Habs. simpl in Habs. lia.
  - apply Forall_app. split; [apply nospace_firstn; assumption|].
    apply Forall_app. split; [|apply nospace_skipn; assumption].
    constructor; [apply nospace_alphabet; assumption|constructor].
Qed.

(** Each of the four edits turns a word into a word. *)
Lemma edit_solid (t : error_type) (w : str) (g : rng) :
  solid w ->
  exists w' g',
    match t with
    | character_swap => _swap_characters w
    | character_deletion => _delete_character w
    | character_insertion => _insert_character w
    | character_replacement => _replace_character w
    end g = (Ok w', g')
    /\ solid w'.
Proof.
  intros Hw. destruct t.
  - apply _swap_characters_solid; assumption.
  - apply _delete_character_solid; assumption.
  - apply _insert_character_solid; assumption.
  - apply _replace_character_solid; assumption.
Qed.

Lemma solid_snoc (w : str) (a : char) :
  solid w -> isspace a = false -> solid (w ++ [a]).
Proof.
  intros [_ Hw] Ha. split.
  - intros Habs. apply (f_equal (@List.length char)) in Habs.
    rewrite length_app in Habs. simpl in Habs. lia.
  - apply Forall_app. split; [assumption|]. constructor; [assumption|constructor].
Qed.

(** [_corrupt_word] never raises on a word, and returns a word. *)
Lemma _corrupt_word_solid (w : str) (g : rng) :
  solid w ->
  exists w' g', _corrupt_word w g = (Ok w', g') /\ solid w'.
Proof.
  intros Hw. unfold _corrupt_word.
  destruct (len w <? 3) eqn:E3; [exists w, g; split; [reflexivity|assumption]|].
  destruct (getitem_last w (proj1 Hw)) as (a & Ha & Heq & Hlen).
  unfold bind at 1. unfold lift at 1. rewrite Ha.
  assert (Hsp : isspace a = false).
  { destruct Hw as [_ Hw]. rewrite Forall_forall in Hw. apply Hw.
    rewrite Heq. apply in_or_app. right. left. reflexivity. }
  assert (Hpre : nospace (slice_to w (-1))) by (apply nospace_firstn, Hw).
  set (ops := [character_swap; character_deletion;
               character_insertion; character_replacement]).
  destruct (contains punctuation [a]).
  - destruct (len (slice_to w (-1)) <? 3) eqn:E.
    + exists w, g. rewrite <- Heq. split; [reflexivity|assumption].
    + apply Z.ltb_ge in E.
      assert (Hs : solid (slice_to w (-1)))
        by (apply (solid_of_length w); [assumption|lia]).
      destruct (choice_ok ops g ltac:(discriminate)) as (t & g1 & Ht & _).
      destruct (edit_solid t _ g1 Hs) as (w' & g2 & He & Hw').
      unfold bind. rewrite Ht, He.
      exists (w' ++ [a]), g2. split; [reflexivity|].
      apply solid_snoc; assumption.
  - rewrite E3.
    destruct (choice_ok ops g ltac:(discriminate)) as (t & g1 & Ht & _).
    destruct (edit_solid t _ g1 Hw) as (w' & g2 & He & Hw').
    unfold bind. rewrite Ht, He.
    exists w', g2. split; [reflexivity|assumption].
Qed.

(** A word that is under three characters once its trailing punctuation
    is set aside comes back as it was, and no random number is drawn. *)
Lemma _corrupt_word_short (w : str) (g : rng) :
  len (strip_punct w) < 3 -> _corrupt_word w g = (Ok w, g).
Proof.
  intros Hs. unfold _corrupt_word.
  destruct (len w <? 3) eqn:E3; [reflexivity|].
  apply Z.ltb_ge in E3.
  assert (Hne : w <> []) by (intros ->; unfold len in E3; simpl in E3; lia).
  destruct (getitem_last w Hne) as (a & Ha & Heq & Hlen).
  unfold bind at 1. unfold lift at 1. rewrite Ha.
  unfold strip_punct in Hs. rewrite Heq in Hs at 1.
  rewrite rev_app_distr in Hs. cbn [rev app] in Hs.
  destruct (contains punctuation [a]).
  - rewrite rev_involutive in Hs.
    replace (len (slice_to w (-1)) <? 3) with true
      by (symmetry; apply Z.ltb_lt; assumption).
    rewrite <- Heq. reflexivity.
  - lia.
Qed.

Lemma count_differing_nonneg (orig ws : list str) : 0 <= count_differing orig ws.
Proof.
  revert ws. induction orig as [|o orig IH]; intros [|c ws]; simpl; try lia.
  specialize (IH ws). destruct (str_eqb o c); lia.
Qed.

Lemma count_differing_le (orig ws : list str) :
  count_differing orig ws <= len orig.
Proof.
  revert ws. induction orig as [|o orig IH]; intros [|c ws]; simpl;
    try apply len_nonneg.
  rewrite len_cons. specialize (IH ws). destruct (str_eqb o c); lia.
Qed.

Lemma count_differing_set_nth (orig : list str) :
  forall ws n v,
    count_differing orig (set_nth ws n v) <= count_differing orig ws + 1.
Proof.
  induction orig as [|o orig IH]; intros [|c ws] [|n] v; simpl; try lia.
  - pose proof (count_differing_nonneg orig ws).
    destruct (str_eqb o v), (str_eqb o c); lia.
  - specialize (IH ws n v). destruct (str_eqb o c); lia.
Qed.

Lemma count_differing_refl (ws : list str) : count_differing ws ws = 0.
Proof.
  induction ws as [|w ws IH]; simpl; [reflexivity|].
  unfold str_eqb. destruct (list_eq_dec Z.eq_dec w w); [lia|contradiction].
Qed.

(** The loop over the selected indices: it ends without an exception,
    keeps every entry a word, leaves the short words as they are and
    changes at most one entry per index. *)
Lemma corrupt_at_spec (orig : list str) (idxs : list Z) :
  forall (words : list str) (g : rng),
    Forall solid words ->
    Forall (fun i => 0 <= i < len words) idxs ->
    exists words' g',
      corrupt_at idxs words g = (Ok words', g')
      /\ Forall solid words'
      /\ length words' = length words
      /\ (forall n w, nth_error words n = Some w -> len (strip_punct w) < 3 ->
                      nth_error words' n = Some w)
      /\ count_differing orig words' <= count_differing orig words + len idxs.
Proof.
  induction idxs as [|idx rest IH]; intros words g Hsolid Hidx.
  - exists words, g. simpl. repeat split; auto. unfold len. simpl. lia.
  - inversion Hidx as [|? ? Hi Hrest]; subst.
    destruct (getitem_ok words idx Hi) as (w & Hget & Hnth).
    assert (Hw : solid w).
    { rewrite Forall_forall in Hsolid. apply Hsolid.
      eapply nth_error_In; eassumption. }
    destruct (_corrupt_word_solid w g Hw) as (w' & g1 & Hc & Hw').
    set (words1 := set_nth words (Z.to_nat idx) w').
    assert (Hlen1 : length words1 = length words) by apply length_set_nth.
    destruct (IH words1 g1) as (words' & g' & Hrun & Hs' & Hlen' & Hshort & Hcount).
    { apply Forall_set_nth; assumption. }
    { unfold len. rewrite Hlen1. exact Hrest. }
    exists words', g'. simpl. unfold bind, lift.
    rewrite Hget, Hc, (setitem_ok words idx w' Hi). fold words1. rewrite Hrun.
    repeat split.
    + assumption.
    + congruence.
    + intros n v Hn Hv. apply Hshort; [|assumption].
      destruct (Nat.eq_dec (Z.to_nat idx) n) as [Heqn|Hneq].
      * subst n. assert (v = w) by congruence. subst v.
        rewrite (_corrupt_word_short w g Hv) in Hc.
        inversion Hc; subst w'. unfold words1.
        rewrite nth_error_set_nth_same; assumption.
      * unfold words1. rewrite nth_error_set_nth_other; assumption.
    + pose proof (count_differing_set_nth orig words (Z.to_nat idx) w').
      fold words1 in H. rewrite len_cons. lia.
Qed.

Lemma len_range (n : Z) : 0 <= n -> len (range n) = n.
Proof. intros H. unfold len, range. rewrite length_map, length_seq. lia. Qed.

Lemma range_bound (n : Z) : Forall (fun i => 0 <= i < n) (range n).
Proof.
  unfold range. apply Forall_forall. intros i Hi.
  apply in_map_iff in Hi as (k & <- & Hk). apply in_seq in Hk. lia.
Qed.

(** What [inject_errors] does, in one statement: the product is a finite
    float, the call returns, the reported count is the clamped selection
    count, and the words it joins are the input's words with at most that
    many of them altered and the short ones intact. *)
Lemma inject_errors_spec (text : str) (rate : PyFloat.float) (g : rng) :
  len text <= maxsize -> PyFloat.unit_rate rate = true ->
  exists x words' g',
    PyFloat.int_mul_float (len (split text)) rate = Ok x
    /\ PyFloat.is_finite x = true
    /\ inject_errors text rate g
       = (Ok (join (lit " ") words',
              Z.min (len (split text)) (Z.max 1 (PyFloat.floor x))), g')
    /\ Forall solid words'
    /\ length words' = length (split text)
    /\ (forall n w, nth_error (split text) n = Some w ->
                    len (strip_punct w) < 3 -> nth_error words' n = Some w)
    /\ count_differing (split text) words'
       <= Z.min (len (split text)) (Z.max 1 (PyFloat.floor x)).
Proof.
  intros Hlen Hrate.
  pose proof (split_length text) as Hn. pose proof (len_nonneg (split text)) as Hn0.
  destruct (PyFloatFacts.int_mul_float_finite (len (split text)) rate
              ltac:(lia) Hrate) as (x & Hx & Hfin).
  destruct (PyFloatFacts.to_int_floor x Hfin) as (t & Ht & Hmax).
  exists x. unfold inject_errors, bind. unfold lift at 1 2. rewrite Hx, Ht, Hmax.
  set (N := len (split text)) in *. set (k := Z.max 1 (PyFloat.floor x)).
  assert (Hsel : exists idxs g1,
             (if k >=? N then ret (range N) else sample N k) g = (Ok idxs, g1)
             /\ Forall (fun i => 0 <= i < N) idxs /\ len idxs = Z.min N k).
  { destruct (k >=? N) eqn:E.
    - apply Z.geb_le in E. exists (range N), g.
      repeat split; [apply range_bound|rewrite len_range; lia].
    - assert (Hk : 0 <= k <= N).
      { unfold k in *. rewrite Z.geb_leb in E. apply Z.leb_gt in E. lia. }
      unfold sample.
      replace ((0 <=? k) && (k <=? N)) with true
        by (symmetry; apply andb_true_iff; split; apply Z.leb_le; lia).
      pose proof (sample_range_length N k g Hk) as Hl.
      pose proof (sample_range_bound N k g Hk) as Hb.
      destruct (sample_range N k g) as [idxs g1]. simpl in Hl, Hb.
      exists idxs, g1. repeat split; [assumption|lia]. }
  destruct Hsel as (idxs & g1 & Hsel & Hin & Hcount).
  destruct (corrupt_at_spec (split text) idxs (split text) g1 (split_solid text) Hin)
    as (words' & g' & Hrun & Hsolid & Hlen' & Hshort & Hdiff).
  exists words', g'. rewrite Hsel, Hrun, Hcount.
  repeat split; try assumption.
  rewrite count_differing_refl in Hdiff. lia.
Qed.

End WithRandom.
End ErrorInjectorFacts.

(** A [random] module to run the code with: a counter for a state,
    [_randbelow] by remainder and [sample] by rotation. *)

Module Counter.
Import PyFacts ErrorInjectorFacts.

Definition rotate (n k g : Z) : list Z :=
  map (fun i => (g + i) mod n) (range k).

Lemma remainder_bound (n g : Z) : 0 < n -> 0 <= fst (g mod n, g + 1) < n.
Proof. intros H. simpl. apply Z.mod_pos_bound. assumption. Qed.

Lemma rotate_length (n k g : Z) : 0 <= k <= n -> len (fst (rotate n k g, g + 1)) = k.
Proof.
  intros H. simpl. unfold rotate, len. rewrite length_map.
  change (len (range k) = k). apply len_range. lia.
Qed.

Lemma rotate_bound (n k g : Z) :
  0 <= k <= n -> Forall (fun i => 0 <= i < n) (fst (rotate n k g, g + 1)).
Proof.
  intros H. simpl. unfold rotate. apply Forall_forall. intros i Hi.
  apply in_map_iff in Hi as (j & <- & Hj).
  pose proof (proj1 (Forall_forall _ _) (range_bound k) j Hj) as Hb.
  cbv beta in Hb. apply Z.mod_pos_bound. lia.
Qed.

Lemma rotate_distinct (n k g : Z) :
  0 <= k <= n -> NoDup (fst (rotate n k g, g + 1)).
Proof.
  intros H. simpl. unfold rotate.
  apply NoDup_map_NoDup_ForallPairs.
  - intros i j Hi Hj Heq.
    pose proof (proj1 (Forall_forall _ _) (range_bound k) i Hi) as Hbi.
    pose proof (proj1 (Forall_forall _ _) (range_bound k) j Hj) as Hbj.
    cbv beta in Hbi, Hbj.
    assert (Hn : 0 < n) by lia.
    pose proof (Z.div_mod (g + i) n ltac:(lia)).
    pose proof (Z.div_mod (g + j) n ltac:(lia)).
    assert (Hd : n * ((g + i) / n - (g + j) / n) = i - j) by lia.
    assert ((g + i) / n - (g + j) / n = 0) by nia.
    lia.
  - unfold range. apply NoDup_map_NoDup_ForallPairs.
    + intros a b _ _. apply Nat2Z.inj.
    + apply seq_NoDup.
Qed.

#[export] Instance random : Random := {|
  rng := Z;
  seed := fun n => n;
  randbelow := fun n g => (g mod n, g + 1);
  sample_range := fun n k g => (rotate n k g, g + 1);
  randbelow_bound := remainder_bound;
  sample_range_length := rotate_length;
  sample_range_bound := rotate_bound;
  sample_range_distinct := rotate_distinct
|}.

End Counter.

(** ** The injector's contract *)

Module ErrorInjectorSpec.
Import PyFacts ErrorInjectorFacts ErrorInjector.

Definition quarter : PyFloat.float := S754_finite false 4503599627370496 (-54).

Definition fox : str :=
  lit "The quick brown fox jumps over the lazy dog near the forest".

Definition greeting : str := lit "Hello, world! This is a test.".

(** C1.  For every text (of [N] words) and every rate [R] in the unit
    interval, [inject_errors] returns, and the count it reports is
    [max(1, floor(N * R))] clamped to [N], where [N * R] is the binary64
    product that the code computes.  (The statement holds for [N = 0] as
    well: the count is then 0.) *)
Theorem inject_errors_reports_clamped_count
  {R : Random} (text : str) (rate : PyFloat.float) (g : rng) :
  len text <= maxsize -> PyFloat.unit_rate rate = true ->
  exists x corrupted g',
    PyFloat.int_mul_float (len (split text)) rate = Ok x
    /\ PyFloat.is_finite x = true
    /\ inject_errors text rate g
       = (Ok (corrupted, Z.min (len (split text)) (Z.max 1 (PyFloat.floor x))),
          g').
Proof.
  intros Hlen Hrate.
  destruct (inject_errors_spec text rate g Hlen Hrate)
    as (x & words' & g' & Hx & Hfin & Hrun & _).
  exists x, (join (lit " ") words'), g'. repeat split; assumption.
Qed.

Lemma inject_errors_reports_clamped_count_witness :
  (len fox <= maxsize /\ PyFloat.unit_rate quarter = true)
  /\ exists x corrupted g',
      PyFloat.int_mul_float (len (split fox)) quarter = Ok x
      /\ PyFloat.is_finite x = true
      /\ @inject_errors Counter.random fox quarter 42
         = (Ok (corrupted, Z.min (len (split fox)) (Z.max 1 (PyFloat.floor x))),
            g').
Proof.
  assert (H1 : len fox <= maxsize) by (vm_compute; discriminate).
  assert (H2 : PyFloat.unit_rate quarter = true) by reflexivity.
  split; [split; assumption|].
  exact (@inject_errors_reports_clamped_count Counter.random fox quarter 42 H1 H2).
Defined.

(** Twelve words at a quarter: three words are reported. *)
Example fox_quarter :
  fst (@inject_errors Counter.random fox quarter 42)
  = Ok (lit "The quick brown fox jumps over tht lawzy do near the forest", 3).
Proof. vm_compute. reflexivity. Qed.

(** C2.  For every text and every rate in the unit interval, the text
    that [inject_errors] returns has exactly as many words as the input. *)
Theorem inject_errors_preserves_word_count
  {R : Random} (text : str) (rate : PyFloat.float) (g : rng) :
  len text <= maxsize -> PyFloat.unit_rate rate = true ->
  exists corrupted n g',
    inject_errors text rate g = (Ok (corrupted, n), g')
    /\ len (split corrupted) = len (split text).
Proof.
  intros Hlen Hrate.
  destruct (inject_errors_spec text rate g Hlen Hrate)
    as (x & words' & g' & _ & _ & Hrun & Hsolid & Hl & _).
  eexists _, _, g'. split; [exact Hrun|].
  rewrite split_join by assumption. unfold len. rewrite Hl. reflexivity.
Qed.

Lemma inject_errors_preserves_word_count_witness :
  (len greeting <= maxsize /\ PyFloat.unit_rate quarter = true)
  /\ exists corrupted n g',
      @inject_errors Counter.random greeting quarter 5 = (Ok (corrupted, n), g')
      /\ len (split corrupted) = len (split greeting).
Proof.
  assert (H1 : len greeting <= maxsize) by (vm_compute; discriminate).
  assert (H2 : PyFloat.unit_rate quarter = true) by reflexivity.
  split; [split; assumption|].
  exact (@inject_errors_preserves_word_count Counter.random greeting quarter 5 H1 H2).
Defined.

(** C8.  A word of the input that is under three characters long once one
    trailing punctuation character is set aside stands unchanged, at its
    position, in the text that [inject_errors] returns, whichever indices
    the generator selects. *)
Theorem inject_errors_keeps_short_words
  {R : Random} (text : str) (rate : PyFloat.float) (g : rng)
  (n : nat) (w : str) :
  len text <= maxsize -> PyFloat.unit_rate rate = true ->
  nth_error (split text) n = Some w -> len (strip_punct w) < 3 ->
  exists corrupted k g',
    inject_errors text rate g = (Ok (corrupted, k), g')
    /\ nth_error (split corrupted) n = Some w.
Proof.
  intros Hlen Hrate Hn Hw.
  destruct (inject_errors_spec text rate g Hlen Hrate)
    as (x & words' & g' & _ & _ & Hrun & Hsolid & _ & Hshort & _).
  eexists _, _, g'. split; [exact Hrun|].
  rewrite split_join by assumption. apply Hshort; assumption.
Qed.

(** At rate 1 every index is selected; ["is"] is the fourth word. *)
Lemma inject_errors_keeps_short_words_witness :
  (len greeting <= maxsize /\ PyFloat.unit_rate PyFloat.one = true
   /\ nth_error (split greeting) 3 = Some (lit "is")
   /\ len (strip_punct (lit "is")) < 3)
  /\ exists corrupted k g',
      @inject_errors Counter.random greeting PyFloat.one 7
      = (Ok (corrupted, k), g')
      /\ nth_error (split corrupted) 3 = Some (lit "is").
Proof.
  assert (H1 : len greeting <= maxsize) by (vm_compute; discriminate).
  assert (H2 : PyFloat.unit_rate PyFloat.one = true) by reflexivity.
  assert (H3 : nth_error (split greeting) 3 = Some (lit "is")) by reflexivity.
  assert (H4 : len (strip_punct (lit "is")) < 3) by reflexivity.
  split; [repeat split; assumption|].
  exact (@inject_errors_keeps_short_words Counter.random greeting PyFloat.one 7
           3%nat (lit "is") H1 H2 H3 H4).
Defined.

(** The product is the rounded one: ten words at the float nearest 0.7
    give 7, although ten times that float is below 7. *)
Example ten_words_at_seven_tenths :
  let r := S754_finite false 6305039478318694 (-53) in
  PyFloat.int_mul_float 10 r = Ok (S754_finite false 7881299347898368 (-50))
  /\ PyFloat.floor (S754_finite false 7881299347898368 (-50)) = 7
  /\ 10 * 6305039478318694 < 7 * 2 ^ 53.
Proof. repeat split. Qed.

(** The positions at which two word lists differ. *)
Definition differing_positions (a b : list str) : list nat :=
  filter (fun i => negb (str_eqb (nth i a []) (nth i b [])))
         (seq 0 (length a)).

Lemma length_filter_map {A B} (f : B -> bool) (h : A -> B) (l : list A) :
  length (filter f (map h l)) = length (filter (fun x => f (h x)) l).
Proof.
  induction l as [|x l IH]; simpl; [reflexivity|].
  destruct (f (h x)); simpl; rewrite IH; reflexivity.
Qed.

(** The sum over [zip] counts the differing positions. *)
Lemma count_differing_positions (a : list str) :
  forall b, length a = length b ->
            count_differing a b = len (differing_positions a b).
Proof.
  induction a as [|x a IH]; intros [|y b] Hl; simpl in Hl; try discriminate.
  - reflexivity.
  - injection Hl as Hl. specialize (IH b Hl).
    unfold differing_positions in *. cbn [length seq filter count_differing].
    change (nth 0 (x :: a) []) with x. change (nth 0 (y :: b) []) with y.
    rewrite <- seq_shift.
    assert (Htl : len (filter (fun i => negb (str_eqb (nth i (x :: a) [])
                                                      (nth i (y :: b) [])))
                              (map S (seq 0 (length a))))
                  = count_differing a b).
    { unfold len. rewrite length_filter_map. cbn [nth]. exact (eq_sym IH). }
    destruct (str_eqb x y); cbn [negb]; [|rewrite len_cons]; rewrite Htl; lia.
Qed.

Lemma rate_aligned (original corrupted : str) :
  len (split original) = len (split corrupted) ->
  calculate_actual_error_rate original corrupted
  = if len (split original) =? 0 then Ok PyFloat.zero
    else PyFloat.int_truediv
           (len (differing_positions (split original) (split corrupted)))
           (len (split original)).
Proof.
  intros Hl. unfold calculate_actual_error_rate.
  replace (len (split original) =? len (split corrupted)) with true
    by (symmetry; apply Z.eqb_eq; assumption).
  cbn [negb]. rewrite count_differing_positions by (unfold len in Hl; lia).
  destruct (split original); reflexivity.
Qed.

Lemma rate_misaligned (original corrupted : str) :
  len (split original) <> len (split corrupted) ->
  calculate_actual_error_rate original corrupted
  = PyFloat.int_truediv (Z.min (len (split original)) (len (split corrupted)))
                        (Z.max (len (split original)) (len (split corrupted))).
Proof.
  intros Hl. unfold calculate_actual_error_rate.
  replace (len (split original) =? len (split corrupted)) with false
    by (symmetry; apply Z.eqb_neq; assumption).
  reflexivity.
Qed.

Lemma differing_positions_le (a b : list str) :
  length a = length b -> 0 <= len (differing_positions a b) <= len a.
Proof.
  intros Hl. rewrite <- count_differing_positions by assumption.
  pose proof (count_differing_nonneg a b). pose proof (count_differing_le a b).
  lia.
Qed.

Lemma rate_aligned_returns (original corrupted : str) :
  len original <= maxsize ->
  len (split original) = len (split corrupted) ->
  exists x, calculate_actual_error_rate original corrupted = Ok x
            /\ PyFloat.is_finite x = true.
Proof.
  intros Ho Hl. rewrite (rate_aligned original corrupted Hl).
  pose proof (split_length original). pose proof (len_nonneg (split original)).
  destruct (len (split original) =? 0) eqn:E0.
  - eexists; split; reflexivity.
  - apply Z.eqb_neq in E0.
    pose proof (differing_positions_le (split original) (split corrupted)
                  ltac:(unfold len in Hl; lia)).
    apply PyFloatFacts.int_truediv_finite; lia.
Qed.

Definition abcd : str := lit "a b c d".
Definition axcy : str := lit "a x c y".

(** C9.  On texts with equal word counts [calculate_actual_error_rate]
    returns the number of differing word positions divided by the word
    count (0.0 when there are no words); of a text and itself it returns
    0.0; on texts with different word counts it returns the smaller count
    divided by the larger; and it never raises. *)
Theorem calculate_actual_error_rate_spec (original corrupted : str) :
  len original <= maxsize -> len corrupted <= maxsize ->
  let orig_words := split original in
  let corr_words := split corrupted in
  (len orig_words = len corr_words ->
   calculate_actual_error_rate original corrupted
   = if len orig_words =? 0 then Ok PyFloat.zero
     else PyFloat.int_truediv (len (differing_positions orig_words corr_words))
                              (len orig_words))
  /\ (len orig_words <> len corr_words ->
      calculate_actual_error_rate original corrupted
      = PyFloat.int_truediv (Z.min (len orig_words) (len corr_words))
                            (Z.max (len orig_words) (len corr_words)))
  /\ (exists x, calculate_actual_error_rate original corrupted = Ok x
                /\ PyFloat.is_finite x = true)
  /\ calculate_actual_error_rate original original = Ok PyFloat.zero.
Proof.
  intros Ho Hc ow cw.
  pose proof (split_length original) as Hlo. fold ow in Hlo.
  pose proof (split_length corrupted) as Hlc. fold cw in Hlc.
  pose proof (len_nonneg ow) as Ho0. pose proof (len_nonneg cw) as Hc0.
  split; [apply rate_aligned|]. split; [apply rate_misaligned|]. split.
  - destruct (Z.eq_dec (len ow) (len cw)) as [Hl|Hl].
    + apply rate_aligned_returns; assumption.
    + rewrite (rate_misaligned _ _ Hl). fold ow cw.
      apply PyFloatFacts.int_truediv_finite; lia.
  - rewrite rate_aligned by reflexivity.
    destruct (len (split original) =? 0) eqn:E0; [reflexivity|].
    apply Z.eqb_neq in E0.
    assert (Hd : len (differing_positions (split original) (split original)) = 0).
    { rewrite <- count_differing_positions by reflexivity.
      apply count_differing_refl. }
    rewrite Hd. unfold PyFloat.int_truediv. fold ow in E0 |- *.
    replace (len ow =? 0) with false by (symmetry; apply Z.eqb_neq; assumption).
    destruct (len ow) eqn:E1; try lia. reflexivity.
Qed.

(** Two of four words differ: one half.  Three words against four: three
    quarters. *)
Lemma calculate_actual_error_rate_spec_witness :
  (len abcd <= maxsize /\ len axcy <= maxsize)
  /\ calculate_actual_error_rate abcd axcy
     = Ok (S754_finite false 4503599627370496 (-53))
  /\ calculate_actual_error_rate abcd abcd = Ok PyFloat.zero.
Proof.
  assert (H1 : len abcd <= maxsize) by (vm_compute; discriminate).
  assert (H2 : len axcy <= maxsize) by (vm_compute; discriminate).
  destruct (calculate_actual_error_rate_spec abcd axcy H1 H2)
    as (Heq & _ & _ & Hself).
  split; [split; assumption|]. split; [|exact Hself].
  rewrite (Heq eq_refl). reflexivity.
Defined.

Example three_words_against_four :
  calculate_actual_error_rate abcd (lit "a x c")
  = Ok (S754_finite false 6755399441055744 (-53)).
Proof. reflexivity. Qed.

End ErrorInjectorSpec.

(** ** The test case generator *)

Module GeneratorSpec.
Import PyFacts ErrorInjectorFacts ErrorInjector Generator.

(** A line that the loader keeps, once stripped: not empty and not a
    comment. *)
Definition usable (line : str) : bool :=
  negb (len line =? 0) && negb (startswith line (lit "#")).

(** The sentence in a kept line: the line without its trailing
    [(... words)] annotation. *)
Definition unannotated (line : str) : str :=
  if contains line (lit "(") && contains line (lit "words)")
  then match rfind_from 0 (chr "(") line with
       | Some i => strip (slice_to line i)
       | None => line
       end
  else line.

(** The sentences of a file, as a filter and a map over its lines. *)
Definition sentences_of (text : str) : list str :=
  map unannotated (filter usable (map strip (lines text))).

Lemma contains_rfind (c : char) (s : str) :
  forall i, contains s [c] = true -> exists j, rfind_from i c s = Some j.
Proof.
  induction s as [|a s IH]; intros i H; simpl in H.
  - discriminate.
  - simpl. destruct (contains s [c]) eqn:Ec.
    + destruct (IH (i + 1) eq_refl) as (j & ->). exists j. reflexivity.
    + destruct (rfind_from (i + 1) c s); [eexists; reflexivity|].
      assert (Hnil : startswith s [] = true) by (destruct s; reflexivity).
      rewrite Hnil, orb_false_r, andb_true_r in H.
      rewrite Z.eqb_sym, H. eexists; reflexivity.
Qed.

Lemma load_line_eq (sentences : list str) (line : str) :
  load_line sentences line
  = Ok (sentences ++ map unannotated (filter usable [strip line])).
Proof.
  unfold load_line, usable. cbn [filter].
  destruct (negb (len (strip line) =? 0)
            && negb (startswith (strip line) (lit "#"))); cbn [map].
  - unfold unannotated.
    destruct (contains (strip line) (lit "(")) eqn:Ec;
      destruct (contains (strip line) (lit "words)")); cbn [andb];
      try reflexivity.
    unfold rindex.
    destruct (contains_rfind (chr "(") (strip line) 0 Ec) as (j & ->).
    reflexivity.
  - rewrite app_nil_r. reflexivity.
Qed.

Lemma load_lines_eq (ls : list str) :
  forall sentences,
    load_lines ls sentences
    = Ok (sentences ++ map unannotated (filter usable (map strip ls))).
Proof.
  induction ls as [|line ls IH]; intros sentences.
  - simpl. rewrite app_nil_r. reflexivity.
  - cbn [load_lines]. rewrite load_line_eq, IH.
    cbn [map filter]. destruct (usable (strip line)); cbn [map app].
    + rewrite <- app_assoc. reflexivity.
    + rewrite app_nil_r. reflexivity.
Qed.

Definition no_sentences : filesystem :=
  fun path => if str_eqb path (lit "sentences.txt") then Text [] else Missing.

(** C7 does not hold as stated: on a base-sentence file that exists
    and is empty the constructor returns a generator. *)
Lemma init_accepts_empty_source :
  no_sentences (lit "sentences.txt") = Text []
  /\ fst (@init Counter.random no_sentences (lit "sentences.txt") 42 0)
     = Ok {| base_sentences_file := lit "sentences.txt"; base_sentences := [] |}.
Proof. split; reflexivity. Qed.

(** C7, amended.  The constructor fails with [FileNotFoundError] when
    the base-sentence file is missing, and with the exception of [open]
    or of the reading when what is at the path cannot be read as UTF-8
    text; nothing else makes it fail.  On a file that is read it returns
    a generator holding the file's sentences, and that list is empty
    when the file has no usable sentence: when it is empty, and when it
    has blank lines and comments only. *)
Theorem init_outcome {R : Random}
  (fs : filesystem) (file : str) (seed_value : Z) (g : rng) :
  init fs file seed_value g
  = match fs file with
    | Missing => (Raise (FileNotFoundError file), g)
    | Other _ e => (Raise e, g)
    | Text text =>
        (Ok {| base_sentences_file := file;
               base_sentences := sentences_of text |},
         seed seed_value)
    end
  /\ sentences_of [] = []
  /\ (forall text,
        Forall (fun line => usable (strip line) = false) (lines text) ->
        sentences_of text = []).
Proof.
  split; [|split; [reflexivity|]].
  - unfold init, _load_base_sentences, open_read, bind, lift.
    destruct (fs file) as [|text|found e]; try reflexivity.
    rewrite load_lines_eq. reflexivity.
  - intros text. unfold sentences_of.
    induction (lines text) as [|line rest IH]; intros H; [reflexivity|].
    inversion H as [|? ? Hline Hrest]; subst.
    cbn [map filter]. rewrite Hline. apply IH. exact Hrest.
Qed.

(** The current directory is no file: [open] raises, and so does the
    constructor. *)
Example directory_source :
  fst (@init Counter.random
         (fun path => if str_eqb path (lit ".")
                      then Other (Ok true) (IsADirectoryError (lit "."))
                      else Missing)
         (lit ".") 42 0)
  = Raise (IsADirectoryError (lit ".")).
Proof. reflexivity. Qed.

(** Blank lines and comments are no sentences either. *)
Example comments_only :
  sentences_of (lit "# base sentences" ++ [LF; CR; LF] ++ lit "   ") = [].
Proof. reflexivity. Qed.

Example annotated_line :
  sentences_of (lit "The cat sat on the mat (6 words)" ++ [LF])
  = [lit "The cat sat on the mat"].
Proof. reflexivity. Qed.

(** The number of word positions at which a test case's [corrupted]
    differs from its [original]. *)
Definition altered (tc : TestCase) : Z :=
  len (ErrorInjectorSpec.differing_positions (split (original tc))
                                             (split (corrupted tc))).

(** What holds of the fields of a generated test case. *)
Definition consistent (tc : TestCase) : Prop :=
  word_count tc = len (split (original tc))
  /\ len (split (corrupted tc)) = word_count tc
  /\ (exists x,
        PyFloat.int_mul_float (word_count tc) (target_error_rate tc) = Ok x
        /\ num_errors tc
           = Z.min (word_count tc) (Z.max 1 (PyFloat.floor x)))
  /\ (if word_count tc =? 0 then Ok PyFloat.zero
      else PyFloat.int_truediv (altered tc) (word_count tc))
     = Ok (actual_error_rate tc)
  /\ altered tc <= num_errors tc.

(** The invariant of the data model, as the specification words it:
    [num_errors] is [round(actual_error_rate * word_count)], give or take
    one. *)
Definition rounded_rate_matches (tc : TestCase) : Prop :=
  exists x r,
    PyFloat.float_mul_int (actual_error_rate tc) (word_count tc) = Ok x
    /\ PyFloat.round x = Ok r
    /\ Z.abs (num_errors tc - r) <= 1.

Section WithRandom.
Context {R : Random}.

Lemma rates_loop_spec (sentence : str) (rates : list PyFloat.float) :
  forall acc g,
    len sentence <= maxsize ->
    Forall (fun r => PyFloat.unit_rate r = true) rates ->
    Forall consistent (fst acc) ->
    exists acc' g',
      rates_loop sentence rates acc g = (Ok acc', g')
      /\ Forall consistent (fst acc').
Proof.
  induction rates as [|rate rates IH]; intros [tcs next_id] g Hlen Hrates Hacc.
  - exists (tcs, next_id), g. split; [reflexivity|assumption].
  - inversion Hrates as [|? ? Hrate Hrest]; subst.
    destruct (inject_errors_spec sentence rate g Hlen Hrate)
      as (x & words' & g1 & Hx & Hfin & Hrun & Hsolid & Hl & _ & Hdiff).
    set (joined := join (lit " ") words') in *.
    assert (Hsplit : split joined = words') by (apply split_join; assumption).
    assert (Hwc : len (split sentence) = len (split joined))
      by (rewrite Hsplit; unfold len; rewrite Hl; reflexivity).
    destruct (ErrorInjectorSpec.rate_aligned_returns sentence joined Hlen Hwc)
      as (ar & Har & _).
    cbn [rates_loop]. unfold bind, lift. rewrite Hrun, Har.
    apply IH; try assumption.
    cbn [fst]. apply Forall_app. split; [assumption|].
    constructor; [|constructor].
    unfold consistent, altered.
    cbn [original corrupted target_error_rate actual_error_rate
         word_count num_errors].
    repeat split.
    + symmetry. assumption.
    + exists x. split; [assumption|reflexivity].
    + rewrite <- Har. symmetry. apply ErrorInjectorSpec.rate_aligned. assumption.
    + rewrite <- ErrorInjectorSpec.count_differing_positions
        by (unfold len in Hwc; lia).
      rewrite Hsplit. assumption.
Qed.

Lemma sentences_loop_spec (sentences : list str) (rates : list PyFloat.float) :
  forall acc g,
    Forall (fun s => len s <= maxsize) sentences ->
    Forall (fun r => PyFloat.unit_rate r = true) rates ->
    Forall consistent (fst acc) ->
    exists acc' g',
      sentences_loop sentences rates acc g = (Ok acc', g')
      /\ Forall consistent (fst acc').
Proof.
  induction sentences as [|sentence rest IH]; intros acc g Hs Hrates Hacc.
  - exists acc, g. split; [reflexivity|assumption].
  - inversion Hs as [|? ? Hlen Hrest]; subst.
    destruct (rates_loop_spec sentence rates acc g Hlen Hrates Hacc)
      as (acc1 & g1 & Hrun & Hacc1).
    cbn [sentences_loop]. unfold bind. rewrite Hrun.
    apply IH; assumption.
Qed.

End WithRandom.

Definition short_words : filesystem :=
  fun path =>
    if str_eqb path (lit "sentences.txt") then Text (lit "I am at it")
    else Missing.

(** C3.  The generator breaks the invariant: for the sentence
    ["I am at it"] at rate 1.0 it stores [num_errors = 4], the number of
    words it selected, while the four words are all too short to be
    altered.  [corrupted] is [original], no word is altered,
    [actual_error_rate] is 0.0 and [round(actual_error_rate * word_count)]
    is 0, four away from [num_errors]. *)
Theorem generated_num_errors_is_not_rounded_rate :
  exists self g1 tc g2,
    @init Counter.random short_words (lit "sentences.txt") 42 0 = (Ok self, g1)
    /\ @generate_test_cases Counter.random self [PyFloat.one] g1 = (Ok [tc], g2)
    /\ num_errors tc = 4
    /\ word_count tc = 4
    /\ corrupted tc = original tc
    /\ altered tc = 0
    /\ actual_error_rate tc = S754_zero false
    /\ PyFloat.float_mul_int (actual_error_rate tc) (word_count tc)
       = Ok (S754_zero false)
    /\ ~ rounded_rate_matches tc.
Proof.
  eexists _, _, _, _.
  split; [vm_compute; reflexivity|].
  split; [vm_compute; reflexivity|].
  split; [reflexivity|]. split; [reflexivity|]. split; [reflexivity|].
  split; [reflexivity|]. split; [reflexivity|]. split; [reflexivity|].
  intros (x & r & Hx & Hr & Habs).
  vm_compute in Hx. injection Hx as <-.
  vm_compute in Hr. injection Hr as <-.
  vm_compute in Habs. apply Habs. reflexivity.
Qed.

(** What the code does make of the fields.  The generator returns, and
    in every test case it produces: [word_count] is the word count of
    [original] and of [corrupted]; [num_errors] is the number of selected
    words, [min(N, max(1, floor(N * R)))]; [actual_error_rate] is the
    number of altered word positions divided by [word_count]; and that
    number of altered positions is at most [num_errors]. *)
Theorem generated_num_errors_bounds_altered
  {R : Random} (self : TestCaseGenerator) (error_rates : list PyFloat.float)
  (g : rng) :
  Forall (fun s => len s <= maxsize) (base_sentences self) ->
  Forall (fun r => PyFloat.unit_rate r = true) error_rates ->
  exists test_cases g',
    generate_test_cases self error_rates g = (Ok test_cases, g')
    /\ Forall consistent test_cases.
Proof.
  intros Hs Hr.
  destruct (sentences_loop_spec (base_sentences self) error_rates ([], 1) g
              Hs Hr ltac:(constructor)) as ([tcs next_id] & g' & Hrun & Hok).
  exists tcs, g'. unfold generate_test_cases, bind. rewrite Hrun.
  split; [reflexivity|assumption].
Qed.

Definition two_sentences : TestCaseGenerator :=
  {| base_sentences_file := lit "sentences.txt";
     base_sentences := [ErrorInjectorSpec.fox; lit "I am at it"] |}.

Lemma generated_num_errors_bounds_altered_witness :
  (Forall (fun s => len s <= maxsize) (base_sentences two_sentences)
   /\ Forall (fun r => PyFloat.unit_rate r = true)
             [PyFloat.zero; ErrorInjectorSpec.quarter; PyFloat.one])
  /\ exists test_cases g',
      @generate_test_cases Counter.random two_sentences
        [PyFloat.zero; ErrorInjectorSpec.quarter; PyFloat.one] 42
      = (Ok test_cases, g')
      /\ Forall consistent test_cases.
Proof.
  assert (H1 : Forall (fun s => len s <= maxsize) (base_sentences two_sentences))
    by (repeat constructor; vm_compute; discriminate).
  assert (H2 : Forall (fun r => PyFloat.unit_rate r = true)
                 [PyFloat.zero; ErrorInjectorSpec.quarter; PyFloat.one])
    by (repeat constructor).
  split; [split; assumption|].
  exact (@generated_num_errors_bounds_altered Counter.random two_sentences _ 42
           H1 H2).
Defined.

End GeneratorSpec.

(** ** The translation pipeline *)

Module PipelineSpec.
Import Pipeline.

Section WithService.
Context {Srv : Service}.

(** The body of the [try] of [_call_agent], on the service: the call
    and, when it answers, the rate-limit pause.  It raises when the call
    raises, and when the pause does. *)
Definition attempt_once (self : TranslationPipeline) (r : request)
  (s : service) : result str * service :=
  match messages_create r s with
  | (Ok text, s1) =>
      match time_sleep (delay self) s1 with
      | (Ok _, s2) => (Ok (strip text), s2)
      | (Raise e, s2) => (Raise e, s2)
      end
  | (Raise e, s1) => (Raise e, s1)
  end.

(** The state of the service after [k] failed attempts with request [r],
    each followed by its backoff pause, the first of them being attempt
    number [attempt]; if the [k] attempts do fail and the pauses are
    granted. *)
Fixpoint after_failures (self : TranslationPipeline) (r : request)
  (attempt : Z) (k : nat) (s : service) : option service :=
  match k with
  | O => Some s
  | S k' =>
      match attempt_once self r s with
      | (Raise _, s1) =>
          match time_sleep (Int (2 ^ attempt)) s1 with
          | (Ok _, s2) => after_failures self r (attempt + 1) k' s2
          | (Raise _, _) => None
          end
      | (Ok _, _) => None
      end
  end.

(** What [k] failed attempts, each followed by a retry, leave in the log,
    the first of them being attempt number [attempt]. *)
Fixpoint retries (r : request) (attempt : Z) (k : nat) : list event :=
  match k with
  | O => []
  | S k' =>
      Request r :: Sleep (Int (2 ^ attempt)) :: retries r (attempt + 1) k'
  end.

(** The backoff delays in a log. *)
Fixpoint backoffs (evs : list event) : list Z :=
  match evs with
  | Request _ :: Sleep (Int d) :: rest => d :: backoffs rest
  | _ => []
  end.

Lemma backoffs_retries (r : request) (k : nat) :
  forall attempt,
    backoffs (retries r attempt k)
    = map (fun i => 2 ^ (attempt + Z.of_nat i)) (seq 0 k).
Proof.
  induction k as [|k IH]; intros attempt; [reflexivity|].
  cbn [retries backoffs seq map]. rewrite IH, <- seq_shift, map_map.
  rewrite Z.add_0_r. f_equal. apply map_ext. intros i. f_equal. lia.
Qed.

Lemma pow2_increasing (i j : Z) : 0 <= i < j -> 2 ^ i < 2 ^ j.
Proof. intros H. apply Z.pow_lt_mono_r; lia. Qed.

Lemma attempt_once_ok (self : TranslationPipeline) (r : request)
  (s s' : service) (t : str) :
  attempt_once self r s = (Ok t, s') ->
  exists text s1,
    messages_create r s = (Ok text, s1)
    /\ time_sleep (delay self) s1 = (Ok tt, s')
    /\ t = strip text.
Proof.
  unfold attempt_once.
  destruct (messages_create r s) as [[text|e] s1] eqn:Ecall; [|discriminate].
  destruct (time_sleep (delay self) s1) as [[[]|e] s2] eqn:Epause;
    [|discriminate].
  intros H. injection H as <- <-. exists text, s1. repeat split; assumption.
Qed.

(** One iteration of the loop of [_call_agent]. *)
Lemma attempts_step (self : TranslationPipeline) (agent_name : str)
  (r : request) (todo : nat) (attempt : Z) (w : world) :
  attempts self agent_name r (S todo) attempt w
  = match attempt_once self r (srv w) with
    | (Ok t, s') =>
        (Ok t, {| srv := s';
                  log := log w ++ [Request r; Sleep (delay self)] |})
    | (Raise e, s1) =>
        if attempt =? max_retries self - 1
        then (Raise (Exception
                       (failure_message agent_name (max_retries self) e)),
              {| srv := s1; log := log w ++ [Request r] |})
        else
          match time_sleep (Int (2 ^ attempt)) s1 with
          | (Ok _, s2) =>
              attempts self agent_name r todo (attempt + 1)
                {| srv := s2;
                   log := log w ++ [Request r; Sleep (Int (2 ^ attempt))] |}
          | (Raise e', s2) =>
              (Raise e', {| srv := s2; log := log w ++ [Request r] |})
          end
    end.
Proof.
  cbn [attempts]. unfold try_except, bind, create, sleep, ret, raise, attempt_once.
  destruct (messages_create r (srv w)) as [[text|e] s1];
    cbv beta iota; cbn [srv log].
  - destruct (time_sleep (delay self) s1) as [[[]|e] s2];
      cbv beta iota; cbn [srv log].
    + rewrite <- app_assoc. reflexivity.
    + destruct (attempt =? max_retries self - 1); [reflexivity|].
      cbv beta iota. cbn [srv log].
      destruct (time_sleep (Int (2 ^ attempt)) s2) as [[[]|e'] s3];
        cbv beta iota; cbn [srv log]; rewrite <- ?app_assoc; reflexivity.
  - destruct (attempt =? max_retries self - 1); [reflexivity|].
    cbv beta iota. cbn [srv log].
    destruct (time_sleep (Int (2 ^ attempt)) s1) as [[[]|e'] s3];
      cbv beta iota; cbn [srv log]; rewrite <- ?app_assoc; reflexivity.
Qed.

(** The loop of [_call_agent], entered with [todo] iterations left at
    attempt number [attempt]: it ends with an attempt that succeeds, with
    the last attempt failing, or with a backoff pause that is refused. *)
Lemma attempts_spec (self : TranslationPipeline) (agent_name : str)
  (r : request) (todo : nat) :
  forall (attempt : Z) (w : world),
    attempt + Z.of_nat todo = max_retries self ->
    (todo = O /\ attempts self agent_name r todo attempt w = (Ok [], w))
    \/ exists (k : nat) (s : service),
        (k < todo)%nat
        /\ after_failures self r attempt k (srv w) = Some s
        /\ ((exists text s1 s',
               messages_create r s = (Ok text, s1)
               /\ time_sleep (delay self) s1 = (Ok tt, s')
               /\ attempts self agent_name r todo attempt w
                  = (Ok (strip text),
                     {| srv := s';
                        log := log w ++ retries r attempt k
                               ++ [Request r; Sleep (delay self)] |}))
            \/ (exists e s',
                  attempt_once self r s = (Raise e, s')
                  /\ S k = todo
                  /\ attempts self agent_name r todo attempt w
                     = (Raise (Exception
                                 (failure_message agent_name (max_retries self) e)),
                        {| srv := s';
                           log := log w ++ retries r attempt k ++ [Request r] |}))
            \/ (exists e s1 e' s',
                  attempt_once self r s = (Raise e, s1)
                  /\ (S k < todo)%nat
                  /\ time_sleep (Int (2 ^ (attempt + Z.of_nat k))) s1
                     = (Raise e', s')
                  /\ attempts self agent_name r todo attempt w
                     = (Raise e',
                        {| srv := s';
                           log := log w ++ retries r attempt k ++ [Request r] |}))).
Proof.
  induction todo as [|todo IH]; intros attempt w Hinv.
  - left. split; reflexivity.
  - right. rewrite attempts_step.
    destruct (attempt_once self r (srv w)) as [[t|e] s1] eqn:Eonce.
    + exists O, (srv w). split; [lia|]. split; [reflexivity|]. left.
      destruct (attempt_once_ok self r (srv w) s1 t Eonce)
        as (text & s0 & Hcall & Hpause & ->).
      exists text, s0, s1. split; [exact Hcall|]. split; [exact Hpause|].
      reflexivity.
    + destruct (attempt =? max_retries self - 1) eqn:Elast.
      * apply Z.eqb_eq in Elast.
        exists O, (srv w). split; [lia|]. split; [reflexivity|].
        right. left. exists e, s1. split; [exact Eonce|]. split; [lia|].
        reflexivity.
      * apply Z.eqb_neq in Elast.
        destruct (time_sleep (Int (2 ^ attempt)) s1) as [[[]|e'] s2] eqn:Eback.
        -- set (w1 := {| srv := s2;
                         log := log w ++ [Request r; Sleep (Int (2 ^ attempt))] |}).
           destruct (IH (attempt + 1) w1 ltac:(lia))
             as [[Hz _]|(k & s & Hk & Hfail & Hend)]; [lia|].
           exists (S k), s. split; [lia|].
           split; [cbn [after_failures]; rewrite Eonce, Eback; exact Hfail|].
           assert (Hlog : forall tl,
                      log w1 ++ retries r (attempt + 1) k ++ tl
                      = log w ++ retries r attempt (S k) ++ tl).
           { intros tl. unfold w1. cbn [log retries]. rewrite <- !app_assoc.
             reflexivity. }
           destruct Hend
             as [(text & s0 & s3 & Hc & Hp & Hrun)
                |[(e2 & s3 & Hs & Hk2 & Hrun)
                 |(e2 & s0 & e3 & s3 & Hs & Hk2 & Hb & Hrun)]].
           ++ left. exists text, s0, s3. split; [exact Hc|]. split; [exact Hp|].
              rewrite Hrun, Hlog. reflexivity.
           ++ right. left. exists e2, s3. split; [exact Hs|]. split; [lia|].
              rewrite Hrun, Hlog. reflexivity.
           ++ right. right. exists e2, s0, e3, s3. split; [exact Hs|].
              split; [lia|]. split.
              { replace (attempt + Z.of_nat (S k)) with (attempt + 1 + Z.of_nat k)
                  by lia. exact Hb. }
              rewrite Hrun, Hlog. reflexivity.
        -- exists O, (srv w). split; [lia|]. split; [reflexivity|].
           right. right. exists e, s1, e', s2. split; [exact Eonce|].
           split; [lia|]. split; [rewrite Z.add_0_r; exact Eback|].
           reflexivity.
Qed.

(** The number of requests in a log. *)
Fixpoint calls (evs : list event) : Z :=
  match evs with
  | [] => 0
  | Request _ :: rest => 1 + calls rest
  | Sleep _ :: rest => calls rest
  end.

Lemma calls_retries (r : request) (k : nat) :
  forall attempt tl, calls (retries r attempt k ++ tl) = Z.of_nat k + calls tl.
Proof.
  induction k as [|k IH]; intros attempt tl; [reflexivity|].
  cbn [retries app calls]. rewrite IH. lia.
Qed.

Lemma powers_sorted (k : nat) :
  forall a, 0 <= a ->
            StronglySorted Z.lt (map (fun i => 2 ^ (a + Z.of_nat i)) (seq 0 k)).
Proof.
  induction k as [|k IH]; intros a Ha; [constructor|].
  cbn [seq map]. rewrite <- seq_shift, map_map.
  rewrite (map_ext _ (fun i => 2 ^ (a + 1 + Z.of_nat i)))
    by (intros i; f_equal; lia).
  constructor; [apply IH; lia|].
  apply Forall_forall. intros x Hx. apply in_map_iff in Hx as (i & <- & _).
  apply pow2_increasing. lia.
Qed.

(** C5.  [_call_agent] with a positive retry budget [n] tries until an
    attempt succeeds or [n] attempts have failed; an attempt fails when
    the call raises, and when the rate-limit pause after an answered
    call does.  With [k] the number of failed attempts that were
    retried: there are [k + 1 <= n] calls; the backoff delays are
    [2^0, ..., 2^(k-1)], one after each failed attempt but the last,
    strictly increasing; a success returns the stripped text after the
    rate-limit pause; and when attempt [n] fails too the method raises
    an error that names the agent and the number [n] of attempts.  The
    one other way out is a backoff pause that [time.sleep] refuses: its
    exception leaves the method.  With a budget [n <= 0] nothing is
    called and the empty string is returned. *)
Theorem _call_agent_retries (self : TranslationPipeline)
  (agent_name input_text : str) (w : world) :
  let r := request_of self agent_name input_text in
  let n := max_retries self in
  (n <= 0 /\ _call_agent self agent_name input_text w = (Ok [], w))
  \/ exists (k : nat) (s : service),
      0 < n
      /\ after_failures self r 0 k (srv w) = Some s
      /\ calls (retries r 0 k ++ [Request r]) = Z.of_nat k + 1
      /\ Z.of_nat k + 1 <= n
      /\ backoffs (retries r 0 k) = map (fun i => 2 ^ Z.of_nat i) (seq 0 k)
      /\ StronglySorted Z.lt (backoffs (retries r 0 k))
      /\ ((exists text s1 s',
             messages_create r s = (Ok text, s1)
             /\ time_sleep (delay self) s1 = (Ok tt, s')
             /\ _call_agent self agent_name input_text w
                = (Ok (strip text),
                   {| srv := s';
                      log := log w ++ retries r 0 k
                             ++ [Request r; Sleep (delay self)] |}))
          \/ (exists e s',
                attempt_once self r s = (Raise e, s')
                /\ Z.of_nat k + 1 = n
                /\ _call_agent self agent_name input_text w
                   = (Raise (Exception
                               (lit "Agent " ++ agent_name ++ lit " failed after "
                                ++ str_of_int n ++ lit " attempts: "
                                ++ str_of_exn e)),
                      {| srv := s';
                         log := log w ++ retries r 0 k ++ [Request r] |}))
          \/ (exists e s1 e' s',
                attempt_once self r s = (Raise e, s1)
                /\ Z.of_nat k + 1 < n
                /\ time_sleep (Int (2 ^ Z.of_nat k)) s1 = (Raise e', s')
                /\ _call_agent self agent_name input_text w
                   = (Raise e',
                      {| srv := s';
                         log := log w ++ retries r 0 k ++ [Request r] |}))).
Proof.
  intros r n. unfold _call_agent. fold r.
  destruct (Z_le_gt_dec n 0) as [Hn|Hn].
  - left. split; [assumption|].
    replace (Z.to_nat (max_retries self)) with O by (unfold n in Hn; lia).
    reflexivity.
  - right.
    destruct (attempts_spec self agent_name r (Z.to_nat (max_retries self)) 0 w
                ltac:(unfold n in Hn; lia))
      as [[Hz _]|(k & s & Hk & Hfail & Hend)]; [unfold n in Hn; lia|].
    exists k, s.
    assert (Hb : backoffs (retries r 0 k) = map (fun i => 2 ^ Z.of_nat i) (seq 0 k)).
    { rewrite backoffs_retries. apply map_ext. intros i. f_equal. }
    split; [lia|]. split; [assumption|].
    split; [rewrite calls_retries; reflexivity|].
    split; [unfold n; lia|]. split; [assumption|].
    split.
    { rewrite backoffs_retries. apply powers_sorted. lia. }
    destruct Hend
      as [(text & s1 & s' & Hc & Hp & Hrun)
         |[(e & s' & Hs & Hk2 & Hrun)
          |(e & s1 & e' & s' & Hs & Hk2 & Hback & Hrun)]].
    + left. exists text, s1, s'. repeat split; assumption.
    + right. left. exists e, s'. split; [assumption|]. split; [unfold n; lia|].
      exact Hrun.
    + right. right. exists e, s1, e', s'. split; [assumption|].
      split; [unfold n; lia|]. split; [exact Hback|exact Hrun].
Qed.

(** What [process] returns, stage by stage: the exception of the first
    stage that raises, or the record of the three translations. *)
Lemma process_outcome (self : TranslationPipeline) (english_input : str)
  (id : Z) (w : world) :
  match _call_agent self (lit "agent1") english_input w with
  | (Raise e, w1) => process self english_input id w = (Raise e, w1)
  | (Ok french, w1) =>
      match _call_agent self (lit "agent2") french w1 with
      | (Raise e, w2) => process self english_input id w = (Raise e, w2)
      | (Ok hebrew, w2) =>
          match _call_agent self (lit "agent3") hebrew w2 with
          | (Raise e, w3) => process self english_input id w = (Raise e, w3)
          | (Ok final_english, w3) =>
              process self english_input id w
              = (Ok {| test_id := id;
                       original := english_input;
                       french := french;
                       hebrew := hebrew;
                       final := final_english;
                       meta := {| duration :=
                                    SFsub PyFloat.prec PyFloat.emax
                                          (time_time (srv w3)) (time_time (srv w));
                                  success := true;
                                  meta_model := model self |} |}, w3)
          end
      end
  end.
Proof.
  unfold process, bind, now, ret.
  destruct (_call_agent self (lit "agent1") english_input w) as [[french|e] w1];
    [|reflexivity].
  destruct (_call_agent self (lit "agent2") french w1) as [[hebrew|e] w2];
    [|reflexivity].
  destruct (_call_agent self (lit "agent3") hebrew w2) as [[final_english|e] w3];
    reflexivity.
Qed.

Lemma process_ok (self : TranslationPipeline) (english_input : str)
  (id : Z) (w w' : world) (t : translation) :
  process self english_input id w = (Ok t, w') ->
  test_id t = id /\ success (meta t) = true.
Proof.
  pose proof (process_outcome self english_input id w) as H.
  destruct (_call_agent self (lit "agent1") english_input w) as [[french|e] w1];
    [|intros E; rewrite H in E; discriminate].
  destruct (_call_agent self (lit "agent2") french w1) as [[hebrew|e] w2];
    [|intros E; rewrite H in E; discriminate].
  destruct (_call_agent self (lit "agent3") hebrew w2) as [[final_english|e] w3];
    [|intros E; rewrite H in E; discriminate].
  intros E. rewrite H in E. injection E as <- _. split; reflexivity.
Qed.

(** One record per test case, in order: the result of [process] on the
    case, run in the world the earlier cases left, or the failure record
    when [process] raised. *)
Fixpoint item_results (self : TranslationPipeline)
  (test_cases : list Generator.TestCase) (w : world)
  : list batch_result * world :=
  match test_cases with
  | [] => ([], w)
  | test_case :: rest =>
      let '(outcome, w1) :=
        process self (Generator.corrupted test_case) (Generator.id test_case) w in
      let record :=
        match outcome with
        | Ok result => Translated result (fields_of test_case)
        | Raise e => Failed (Generator.id test_case) (str_of_exn e)
        end in
      let '(records, w2) := item_results self rest w1 in
      (record :: records, w2)
  end.

Lemma batch_loop_spec (self : TranslationPipeline)
  (test_cases : list Generator.TestCase) :
  forall results w,
    batch_loop self test_cases results w
    = (Ok (results ++ fst (item_results self test_cases w)),
       snd (item_results self test_cases w)).
Proof.
  induction test_cases as [|tc rest IH]; intros results w.
  - simpl. unfold ret. rewrite app_nil_r. reflexivity.
  - cbn [batch_loop item_results]. unfold bind at 1.
    unfold process_item, try_except, bind, ret.
    destruct (process self (Generator.corrupted tc) (Generator.id tc) w)
      as [[t|e] w1];
      rewrite IH; destruct (item_results self rest w1) as [records w2];
      cbn [fst snd]; rewrite <- app_assoc; reflexivity.
Qed.

Lemma item_results_shape (self : TranslationPipeline)
  (test_cases : list Generator.TestCase) :
  forall w,
    length (fst (item_results self test_cases w)) = length test_cases
    /\ map result_test_id (fst (item_results self test_cases w))
       = map Generator.id test_cases.
Proof.
  induction test_cases as [|tc rest IH]; intros w; [split; reflexivity|].
  cbn [item_results].
  destruct (process self (Generator.corrupted tc) (Generator.id tc) w)
    as [outcome w1] eqn:Ep.
  destruct (IH w1) as [Hl Hm].
  destruct (item_results self rest w1) as [records w2]. cbn [fst] in *.
  split; [simpl; congruence|].
  cbn [map]. rewrite Hm. f_equal.
  destruct outcome as [t|e]; [|reflexivity].
  apply (process_ok _ _ _ _ _ _ Ep).
Qed.

(** C6.  [process_batch] never raises; it returns one record per test
    case, in order, each carrying the id of its test case; the record of
    a case on which [process] raised is the failure record (success flag
    false, with the error text), and the cases after it are processed all
    the same. *)
Theorem process_batch_one_record_per_case (self : TranslationPipeline)
  (test_cases : list Generator.TestCase) (w : world) :
  let records := fst (item_results self test_cases w) in
  process_batch self test_cases w = (Ok records, snd (item_results self test_cases w))
  /\ length records = length test_cases
  /\ map result_test_id records = map Generator.id test_cases
  /\ Forall (fun b => result_success b = false <-> exists i e, b = Failed i e)
            records.
Proof.
  intros records. unfold process_batch. rewrite batch_loop_spec.
  split; [reflexivity|].
  destruct (item_results_shape self test_cases w) as [Hl Hm].
  split; [exact Hl|]. split; [exact Hm|].
  subst records. clear Hl Hm. revert w.
  induction test_cases as [|tc rest IH]; intros w; [constructor|].
  cbn [item_results].
  destruct (process self (Generator.corrupted tc) (Generator.id tc) w)
    as [outcome w1] eqn:Ep.
  specialize (IH w1).
  destruct (item_results self rest w1) as [recs w2]. cbn [fst] in *.
  constructor; [|exact IH].
  destruct outcome as [t|e].
  - destruct (process_ok _ _ _ _ _ _ Ep) as [_ Hs]. cbn [result_success].
    rewrite Hs. split; [discriminate|intros (i & e & Habs); discriminate].
  - cbn [result_success]. split; [eauto|reflexivity].
Qed.

End WithService.

(** *** Services to run the pipeline against; the first three grant
    every pause *)

Definition api_error : exn := Exception (lit "Persistent API Error").

(** Every call fails. *)
Definition down : Service :=
  {| service := unit;
     messages_create := fun _ s => (Raise api_error, s);
     time_sleep := fun _ s => (Ok tt, s);
     time_time := fun _ => PyFloat.zero |}.

(** The first two calls fail, the later ones answer. *)
Definition flaky : Service :=
  {| service := nat;
     messages_create := fun _ s =>
       (if (s <? 2)%nat then Raise api_error else Ok (lit " Bonjour le monde "),
        S s);
     time_sleep := fun _ s => (Ok tt, s);
     time_time := fun _ => PyFloat.zero |}.

(** Fails on a text that starts with ["bad"], echoes any other. *)
Definition picky : Service :=
  {| service := unit;
     messages_create := fun r s =>
       (if startswith (req_content r) (lit "bad") then Raise api_error
        else Ok (req_content r), s);
     time_sleep := fun _ s => (Ok tt, s);
     time_time := fun _ => PyFloat.zero |}.

Definition three_tries : TranslationPipeline :=
  {| model := lit "claude-3-5-sonnet-20241022";
     max_retries := 3;
     delay := Float PyFloat.one;
     skills := [(lit "agent1", lit "Translate to French")] |}.

Definition fresh {Srv : Service} (s : service) : world :=
  {| srv := s; log := [] |}.

(** Answers every call with the text it is given; its [time.sleep]
    refuses a negative length, a NaN and an infinity. *)
Definition punctual : Service :=
  {| service := unit;
     messages_create := fun r s => (Ok (req_content r), s);
     time_sleep := fun seconds s =>
       (match seconds with
        | Int n =>
            if n <? 0
            then Raise (ValueError (lit "sleep length must be non-negative"))
            else Ok tt
        | Float (S754_finite true _ _) =>
            Raise (ValueError (lit "sleep length must be non-negative"))
        | Float S754_nan =>
            Raise (ValueError (lit "Invalid value NaN (not a number)"))
        | Float (S754_infinity _) =>
            Raise (OverflowError
                     (lit "timestamp too large to convert to C _PyTime_t"))
        | Float _ => Ok tt
        end, s);
     time_time := fun _ => PyFloat.zero |}.

Definition hasty : TranslationPipeline :=
  {| model := lit "claude-3-5-sonnet-20241022";
     max_retries := 3;
     delay := Float (SFopp PyFloat.one);
     skills := [] |}.

(** The rate-limit pause is inside the [try]: with a delay of -1.0 every
    answered call counts as a failed attempt, and the stage fails after
    three calls. *)
Example negative_delay_fails_every_attempt :
  let r := @request_of hasty (lit "agent1") (lit "Hello") in
  @process punctual hasty (lit "Hello") 1 (@fresh punctual tt)
  = (Raise (Exception
              (lit "Agent agent1 failed after 3 attempts: sleep length must be non-negative")),
     @Build_world punctual tt
       [Request r; Sleep (Int 1); Request r; Sleep (Int 2); Request r]).
Proof. vm_compute. reflexivity. Qed.

(** C4.  With a service that fails every call and a budget of three,
    [process] does not return a record: the exception that [_call_agent]
    raises for the first stage, after three calls, leaves [process]. *)
Theorem process_raises_when_service_is_down :
  let r := @request_of three_tries (lit "agent1") (lit "Test text") in
  @process down three_tries (lit "Test text") 1 (@fresh down tt)
  = (Raise (Exception
              (lit "Agent agent1 failed after 3 attempts: Persistent API Error")),
     @Build_world down tt
       [Request r; Sleep (Int 1); Request r; Sleep (Int 2); Request r]).
Proof. vm_compute. reflexivity. Qed.

(** The batch driver is where the failure is caught. *)
Example batch_captures_failure :
  fst (@process_batch down three_tries
         [{| Generator.id := 1; Generator.original := lit "Test text";
             Generator.corrupted := lit "Tset text";
             Generator.target_error_rate := PyFloat.one;
             Generator.actual_error_rate := PyFloat.one;
             Generator.word_count := 2; Generator.num_errors := 2 |}]
         (@fresh down tt))
  = Ok [Failed 1 (lit "Agent agent1 failed after 3 attempts: Persistent API Error")].
Proof. vm_compute. reflexivity. Qed.

(** Two failures, then a success: three calls, pauses of 1 and 2, the
    answer stripped. *)
Example two_failures_then_success :
  let r := @request_of three_tries (lit "agent1") (lit "Hello world") in
  @_call_agent flaky three_tries (lit "agent1") (lit "Hello world") (@fresh flaky O)
  = (Ok (lit "Bonjour le monde"),
     @Build_world flaky 3%nat
       [Request r; Sleep (Int 1); Request r; Sleep (Int 2); Request r;
        Sleep (Float PyFloat.one)]).
Proof. vm_compute. reflexivity. Qed.

Definition case (i : Z) (text : str) : Generator.TestCase :=
  {| Generator.id := i; Generator.original := text;
     Generator.corrupted := text;
     Generator.target_error_rate := PyFloat.zero;
     Generator.actual_error_rate := PyFloat.zero;
     Generator.word_count := len (split text); Generator.num_errors := 1 |}.

(** Three cases of which the second always fails: three records, the
    second a failure. *)
Example second_of_three_fails :
  match fst (@process_batch picky three_tries
               [case 1 (lit "good one"); case 2 (lit "bad one");
                case 3 (lit "good two")] (@fresh picky tt)) with
  | Ok records =>
      map result_success records = [true; false; true]
      /\ map result_test_id records = [1; 2; 3]
  | Raise _ => False
  end.
Proof. vm_compute. split; reflexivity. Qed.

End PipelineSpec.

(** ** Semantic distance *)

Module EmbeddingsSpec.
Import Embeddings.

Section WithScalar.
Context {K : Scalar}.

Lemma dot_from_comm (a : vector) :
  forall b acc, dot_from acc a b = dot_from acc b a.
Proof.
  induction a as [|x a IH]; intros [|y b] acc; try reflexivity.
  cbn [dot_from]. rewrite s_mul_comm. apply IH.
Qed.

Lemma dot_from_self (a : vector) : forall acc, exists q, dot_from acc a a = Ok q.
Proof.
  induction a as [|x a IH]; intros acc; [eexists; reflexivity|]. apply IH.
Qed.

Lemma norm_ok (a : vector) : exists n, norm a = Ok n.
Proof.
  unfold norm, dot. destruct (dot_from_self a s_zero) as (q & ->).
  eexists; reflexivity.
Qed.

(** The cosine formula does not depend on the order of the embeddings. *)
Lemma cosine_distance_of_comm (u v : vector) :
  cosine_distance_of u v = cosine_distance_of v u.
Proof.
  unfold cosine_distance_of, dot. rewrite (dot_from_comm u v).
  destruct (norm_ok u) as (nu & ->). destruct (norm_ok v) as (nv & ->).
  destruct (dot_from s_zero v u); [|reflexivity].
  rewrite (s_mul_comm nu nv). reflexivity.
Qed.



Lemma str_eqb_refl (a : str) : str_eqb a a = true.
Proof. unfold str_eqb. destruct (list_eq_dec Z.eq_dec a a); congruence. Qed.


Lemma cache_get_app (c : list (str * vector)) (t : str) (v : vector) (t' : str) :
  cache_get (c ++ [(t, v)]) t'
  = match cache_get c t' with
    | Some x => Some x
    | None => if str_eqb t t' then Some v else None
    end.
Proof.
  induction c as [|[k x] c IH]; cbn [app cache_get]; [reflexivity|].
  destruct (str_eqb k t'); [reflexivity|exact IH].
Qed.

Section WithEncoder.
Context {E : Encoder}.


Lemma get_embedding_hit (t : str) (self : SemanticAnalyzer) (v : vector) :
  cache_get (cache self) t = Some v -> get_embedding t self = (Ok v, self).
Proof. intros H. unfold get_embedding. rewrite H. reflexivity. Qed.


End WithEncoder.

(** A model that is a function of the text. *)
Definition deterministic (f : str -> vector) : Encoder :=
  {| encoder := unit; encode := fun t m => (f t, m) |}.





End WithScalar.
End EmbeddingsSpec.

(** ** IEEE-754 binary32, the element type of the embeddings, is a [Scalar] *)

Module Binary32.

Definition prec : Z := 24.
Definition emax : Z := 128.

Definition square (x : spec_float) : spec_float := SFmul prec emax x x.

Lemma SFmul_comm (x y : spec_float) : SFmul prec emax x y = SFmul prec emax y x.
Proof.
  destruct x as [sx|sx| |sx mx ex], y as [sy|sy| |sy my ey]; simpl;
    try reflexivity; try (rewrite xorb_comm; reflexivity).
  rewrite xorb_comm, Pos.mul_comm, Z.add_comm. reflexivity.
Qed.

Lemma square_opp (x : spec_float) : square (SFopp x) = square x.
Proof.
  destruct x as [s|s| |s m e]; unfold square; simpl; try reflexivity;
    destruct s; reflexivity.
Qed.

Lemma binary_round_aux_opp (s : bool) (m e : Z) (l : location) :
  binary_round_aux prec emax (negb s) m e l
  = SFopp (binary_round_aux prec emax s m e l).
Proof.
  unfold binary_round_aux.
  destruct (shr_fexp prec emax m e l) as [mrs' e'].
  destruct (shr_fexp prec emax _ e' loc_Exact) as [mrs'' e''].
  destruct (shr_m mrs''); try reflexivity.
  destruct (e'' <=? emax - prec); reflexivity.
Qed.

Lemma binary_normalize_opp (z e : Z) :
  square (binary_normalize prec emax (- z) e false)
  = square (binary_normalize prec emax z e false).
Proof.
  destruct z as [|p|p]; [reflexivity| |]; cbn [Z.opp binary_normalize];
    unfold binary_round;
    destruct (shl_align p e (fexp prec emax (Z.pos (digits2_pos p) + e)))
      as [mz ez].
  - change true with (negb false). rewrite binary_round_aux_opp.
    apply square_opp.
  - change true with (negb false). rewrite binary_round_aux_opp.
    symmetry. apply square_opp.
Qed.

Lemma SFsub_square (x y : spec_float) :
  square (SFsub prec emax x y) = square (SFsub prec emax y x).
Proof.
  destruct x as [sx|sx| |sx mx ex], y as [sy|sy| |sy my ey];
    try reflexivity;
    try (destruct sx, sy; reflexivity);
    try (destruct sx; reflexivity);
    try (destruct sy; reflexivity).
  cbn [SFsub]. rewrite (Z.min_comm ey ex).
  set (a := cond_Zopp sx (Z.pos (fst (shl_align mx ex (Z.min ex ey))))).
  set (b := cond_Zopp sy (Z.pos (fst (shl_align my ey (Z.min ex ey))))).
  replace (b - a) with (- (a - b)) by lia.
  symmetry. apply binary_normalize_opp.
Qed.

Definition ieee : Scalar :=
  Build_Scalar spec_float
    (S754_zero false) (S754_finite false 8388608 (-23))
    (SFadd prec emax) (SFsub prec emax) (SFmul prec emax) (SFdiv prec emax)
    (SFsqrt prec emax) SFmul_comm SFsub_square.

Definition three : spec_float := S754_finite false 12582912 (-22).
Definition four : spec_float := S754_finite false 8388608 (-21).
Definition five : spec_float := S754_finite false 10485760 (-21).

(** The Euclidean distance between (3, 0) and (0, 4) is 5, both ways. *)
Example three_four_five :
  @Embeddings.euclidean_distance_of ieee [three; S754_zero false]
                                         [S754_zero false; four] = Ok five
  /\ @Embeddings.euclidean_distance_of ieee [S754_zero false; four]
                                            [three; S754_zero false] = Ok five.
Proof. split; vm_compute; reflexivity. Qed.

End Binary32.

(** ** Symmetry of the distance, as [==] sees it *)

Module DistanceSymmetry.
Import Embeddings EmbeddingsSpec.









End DistanceSymmetry.

(** ** More on the error injector: what an edit is *)

Module ErrorInjectorEdits.
Import PyFacts PyRandom ErrorInjector ErrorInjectorFacts.

(** One application of one of the four operations. *)
Inductive single_edit : str -> str -> Prop :=
| edit_swap (pre : str) (a b : char) (post : str) :
    single_edit (pre ++ [a; b] ++ post) (pre ++ [b; a] ++ post)
| edit_delete (pre : str) (a : char) (post : str) :
    single_edit (pre ++ [a] ++ post) (pre ++ post)
| edit_insert (pre : str) (c : char) (post : str) :
    In c alphabet -> single_edit (pre ++ post) (pre ++ [c] ++ post)
| edit_replace (pre : str) (a c : char) (post : str) :
    In c alphabet -> single_edit (pre ++ [a] ++ post) (pre ++ [c] ++ post).

(** Whether the last character of a word is one of the punctuation
    marks. *)
Definition punctuated (w : str) : bool :=
  match rev w with
  | last :: _ => contains punctuation [last]
  | [] => false
  end.

(** What [_corrupt_word] may make of a word: the word itself, or the word
    with one edit in its body, the body being at least three characters
    long.  The body of a word that ends in a punctuation mark is the word
    without that mark, which stays where it is; the body of any other
    word is the word. *)
Inductive edited : str -> str -> Prop :=
| edited_kept (w : str) : edited w w
| edited_body (body body' tail : str) :
    single_edit body body' ->
    3 <= len body ->
    (tail = [] /\ punctuated body = false)
    \/ (exists p, tail = [p] /\ contains punctuation [p] = true) ->
    edited (body ++ tail) (body' ++ tail).

Lemma single_edit_length (w w' : str) :
  single_edit w w' -> Z.abs (len w' - len w) <= 1.
Proof.
  intros H. destruct H; repeat rewrite len_app;
    repeat rewrite len_cons; change (len (@nil char)) with 0; lia.
Qed.

Lemma edited_length (w w' : str) :
  edited w w' -> Z.abs (len w' - len w) <= 1.
Proof.
  intros H. destruct H as [w|body body' tail He _ _]; [lia|].
  apply single_edit_length in He. rewrite !len_app. lia.
Qed.

Lemma nth_error_split {A} (l : list A) :
  forall p a, nth_error l p = Some a ->
              l = firstn p l ++ [a] ++ skipn (S p) l.
Proof.
  induction l as [|x l IH]; intros [|p] a H; simpl in H; try discriminate.
  - injection H as ->. reflexivity.
  - simpl. f_equal. apply IH. assumption.
Qed.

Lemma set_nth_swap {A} (l : list A) :
  forall p a b,
    nth_error l p = Some a -> nth_error l (S p) = Some b ->
    l = firstn p l ++ [a; b] ++ skipn (S (S p)) l
    /\ set_nth (set_nth l p b) (S p) a
       = firstn p l ++ [b; a] ++ skipn (S (S p)) l.
Proof.
  induction l as [|x l IH]; intros [|p] a b Ha Hb; simpl in Ha, Hb;
    try discriminate.
  - injection Ha as ->. destruct l as [|y l]; simpl in Hb; [discriminate|].
    injection Hb as ->. split; reflexivity.
  - destruct (IH p a b Ha Hb) as [H1 H2]. split.
    + cbn [firstn skipn app]. f_equal. exact H1.
    + cbn [set_nth firstn skipn app]. f_equal. exact H2.
Qed.

Lemma slice_to_firstn (w : str) (pos : Z) :
  0 <= pos <= len w -> slice_to w pos = firstn (Z.to_nat pos) w.
Proof.
  intros H. unfold slice_to, clamp_index.
  replace (pos <? 0) with false by (symmetry; apply Z.ltb_ge; lia).
  f_equal. lia.
Qed.

Lemma slice_from_skipn (w : str) (pos : Z) :
  0 <= pos <= len w -> slice_from w pos = skipn (Z.to_nat pos) w.
Proof.
  intros H. unfold slice_from, clamp_index.
  replace (pos <? 0) with false by (symmetry; apply Z.ltb_ge; lia).
  f_equal. lia.
Qed.

Section WithRandom.
Context {R : Random}.

Lemma _swap_characters_edit (w : str) (g : rng) :
  2 <= len w ->
  exists w' g', _swap_characters w g = (Ok w', g') /\ single_edit w w'.
Proof.
  intros Hl. unfold _swap_characters.
  replace (len w <? 2) with false by (symmetry; apply Z.ltb_ge; lia).
  destruct (randint_ok 0 (len w - 2) g ltac:(lia)) as (pos & g' & Hr & Hpos).
  destruct (getitem_ok w (pos + 1) ltac:(lia)) as (a & Ha & Hna).
  destruct (getitem_ok w pos ltac:(lia)) as (b & Hb & Hnb).
  assert (Hlen : len (set_nth w (Z.to_nat pos) a) = len w)
    by (unfold len; rewrite length_set_nth; reflexivity).
  unfold bind, lift. rewrite Hr, Ha, Hb.
  rewrite (setitem_ok w pos a) by lia.
  rewrite setitem_ok by lia.
  eexists _, g'. split; [reflexivity|].
  replace (Z.to_nat (pos + 1)) with (S (Z.to_nat pos)) in * by lia.
  destruct (set_nth_swap w (Z.to_nat pos) b a Hnb Hna) as [H1 H2].
  rewrite H2. rewrite H1 at 1. constructor.
Qed.

Lemma _delete_character_edit (w : str) (g : rng) :
  2 <= len w ->
  exists w' g', _delete_character w g = (Ok w', g') /\ single_edit w w'.
Proof.
  intros Hl. unfold _delete_character.
  replace (len w <? 2) with false by (symmetry; apply Z.ltb_ge; lia).
  destruct (randint_ok 0 (len w - 1) g ltac:(lia)) as (pos & g' & Hr & Hpos).
  destruct (getitem_ok w pos ltac:(lia)) as (a & _ & Hna).
  unfold bind. rewrite Hr. eexists _, g'. split; [reflexivity|].
  rewrite slice_to_firstn, slice_from_skipn by lia.
  replace (Z.to_nat (pos + 1)) with (S (Z.to_nat pos)) by lia.
  rewrite (nth_error_split w _ a Hna) at 1. constructor.
Qed.

Lemma _insert_character_edit (w : str) (g : rng) :
  exists w' g', _insert_character w g = (Ok w', g') /\ single_edit w w'.
Proof.
  unfold _insert_character. pose proof (len_nonneg w) as H0.
  destruct (randint_ok 0 (len w) g ltac:(lia)) as (pos & g' & Hr & Hpos).
  destruct (choice_ok alphabet g' ltac:(discriminate)) as (c & g'' & Hc & Hin).
  unfold bind. rewrite Hr, Hc. eexists _, g''. split; [reflexivity|].
  rewrite slice_to_firstn, slice_from_skipn by lia.
  rewrite <- (firstn_skipn (Z.to_nat pos) w) at 1. constructor. assumption.
Qed.

Lemma _replace_character_edit (w : str) (g : rng) :
  1 <= len w ->
  exists w' g', _replace_character w g = (Ok w', g') /\ single_edit w w'.
Proof.
  intros Hl. unfold _replace_character.
  destruct (randint_ok 0 (len w - 1) g ltac:(lia)) as (pos & g' & Hr & Hpos).
  destruct (choice_ok alphabet g' ltac:(discriminate)) as (c & g'' & Hc & Hin).
  destruct (getitem_ok w pos ltac:(lia)) as (a & _ & Hna).
  unfold bind. rewrite Hr, Hc. eexists _, g''. split; [reflexivity|].
  rewrite slice_to_firstn, slice_from_skipn by lia.
  replace (Z.to_nat (pos + 1)) with (S (Z.to_nat pos)) by lia.
  rewrite (nth_error_split w _ a Hna) at 1. constructor. assumption.
Qed.

Lemma operation_edit (t : error_type) (w : str) (g : rng) :
  3 <= len w ->
  exists w' g',
    match t with
    | character_swap => _swap_characters w
    | character_deletion => _delete_character w
    | character_insertion => _insert_character w
    | character_replacement => _replace_character w
    end g = (Ok w', g')
    /\ single_edit w w'.
Proof.
  intros Hl. destruct t.
  - apply _swap_characters_edit; lia.
  - apply _delete_character_edit; lia.
  - apply _insert_character_edit.
  - apply _replace_character_edit; lia.
Qed.

Lemma _corrupt_word_edited (w : str) (g : rng) :
  exists w' g', _corrupt_word w g = (Ok w', g') /\ edited w w'.
Proof.
  unfold _corrupt_word.
  destruct (len w <? 3) eqn:E3; [exists w, g; split; [reflexivity|constructor]|].
  apply Z.ltb_ge in E3.
  assert (Hne : w <> []) by (intros ->; unfold len in E3; simpl in E3; lia).
  destruct (getitem_last w Hne) as (a & Ha & Heq & Hlen).
  unfold bind at 1. unfold lift at 1. rewrite Ha.
  set (ops := [character_swap; character_deletion;
               character_insertion; character_replacement]).
  destruct (contains punctuation [a]) eqn:Ep.
  - destruct (len (slice_to w (-1)) <? 3) eqn:E.
    + exists w, g. rewrite <- Heq. split; [reflexivity|constructor].
    + apply Z.ltb_ge in E.
      destruct (choice_ok ops g ltac:(discriminate)) as (t & g1 & Ht & _).
      destruct (operation_edit t (slice_to w (-1)) g1 E) as (w' & g2 & He & Hw').
      unfold bind. rewrite Ht, He.
      exists (w' ++ [a]), g2. split; [reflexivity|].
      rewrite Heq at 1. constructor; [assumption|assumption|].
      right. exists a. split; [reflexivity|exact Ep].
  - rewrite (proj2 (Z.ltb_ge _ _) E3).
    destruct (choice_ok ops g ltac:(discriminate)) as (t & g1 & Ht & _).
    destruct (operation_edit t w g1 E3) as (w' & g2 & He & Hw').
    unfold bind. rewrite Ht, He.
    exists w', g2. split; [reflexivity|].
    assert (Hp : punctuated w = false).
    { unfold punctuated. rewrite Heq, rev_app_distr. exact Ep. }
    rewrite <- (app_nil_r w), <- (app_nil_r w').
    constructor; [assumption|assumption|left; split; [reflexivity|exact Hp]].
Qed.

Lemma punctuated_snoc (body : str) (p : char) :
  punctuated (body ++ [p]) = contains punctuation [p].
Proof. unfold punctuated. rewrite rev_app_distr. reflexivity. Qed.

(** An edited word that ended in a punctuation mark still ends in that
    mark. *)
Lemma edited_keeps_mark (body w' : str) (p : char) :
  contains punctuation [p] = true ->
  edited (body ++ [p]) w' ->
  exists body', w' = body' ++ [p] /\ (body' = body \/ single_edit body body').
Proof.
  intros Hp H. inversion H as [w Hw|b b' tail He Hl Ht Hw Hw'].
  - exists body. split; [reflexivity|left; reflexivity].
  - destruct Ht as [[-> Hb]|(q & -> & Hq)].
    + rewrite app_nil_r in Hw. subst b.
      rewrite punctuated_snoc, Hp in Hb. discriminate.
    + apply app_inj_tail in Hw as [-> ->].
      exists b'. split; [reflexivity|right; exact He].
Qed.

(** X1.  [_corrupt_word] never raises, on any string, and what it returns
    is the word itself or the word with exactly one edit (swap of two
    neighbours, deletion, insertion or replacement by a lowercase letter)
    in its body, so that the length changes by at most one; a trailing
    punctuation mark is no part of the body and stays in place: a word
    that ends in a mark comes back ending in that mark, what stands
    before it kept or edited once. *)
Theorem _corrupt_word_single_edit (w : str) (g : rng) :
  exists w' g',
    _corrupt_word w g = (Ok w', g')
    /\ edited w w'
    /\ Z.abs (len w' - len w) <= 1
    /\ (forall body p,
          w = body ++ [p] -> contains punctuation [p] = true ->
          exists body',
            w' = body' ++ [p] /\ (body' = body \/ single_edit body body')).
Proof.
  destruct (_corrupt_word_edited w g) as (w' & g' & Hrun & He).
  exists w', g'. split; [exact Hrun|]. split; [exact He|].
  split; [apply edited_length; exact He|].
  intros body p -> Hp. apply edited_keeps_mark; assumption.
Qed.

(** The relation tells a kept mark from a lost one. *)
Example mark_is_not_edited :
  ~ edited (lit "abc.") (lit "abc") /\ ~ edited (lit "Hello,") (lit "Hellox").
Proof.
  split; intros H.
  - destruct (edited_keeps_mark (lit "abc") (lit "abc") (chr ".") eq_refl H)
      as (body' & Hw & _).
    apply (f_equal (@rev char)) in Hw. rewrite rev_app_distr in Hw.
    discriminate Hw.
  - destruct (edited_keeps_mark (lit "Hello") (lit "Hellox") (chr ",") eq_refl H)
      as (body' & Hw & _).
    apply (f_equal (@rev char)) in Hw. rewrite rev_app_distr in Hw.
    discriminate Hw.
Qed.

End WithRandom.
End ErrorInjectorEdits.

(** ** More on the error injector: the whole sentence *)

Module ErrorInjectorExtra.
Import PyFacts PyRandom ErrorInjector ErrorInjectorFacts ErrorInjectorEdits.

Lemma nth_error_set_nth_eq {A} (l : list A) :
  forall n v, (n < length l)%nat -> nth_error (set_nth l n v) n = Some v.
Proof.
  induction l as [|a l IH]; intros [|n] v H; simpl in *; try lia.
  - reflexivity.
  - apply IH. lia.
Qed.

Lemma Forall2_nth_error {A} (P : A -> A -> Prop) (l : list A) :
  forall l',
    length l' = length l ->
    (forall n a, nth_error l n = Some a ->
                 exists b, nth_error l' n = Some b /\ P a b) ->
    Forall2 P l l'.
Proof.
  induction l as [|a l IH]; intros [|b l'] Hl H; simpl in Hl; try discriminate.
  - constructor.
  - constructor.
    + destruct (H O a eq_refl) as (b' & Hb & Hp). simpl in Hb.
      injection Hb as ->. assumption.
    + apply IH; [lia|]. intros n x Hx. exact (H (S n) x Hx).
Qed.

Lemma range_NoDup (n : Z) : NoDup (range n).
Proof.
  unfold range. apply NoDup_map_NoDup_ForallPairs.
  - intros a b _ _. apply Nat2Z.inj.
  - apply seq_NoDup.
Qed.

Section WithRandom.
Context {R : Random}.

(** The loop over distinct indices edits each selected word once and
    touches no other. *)
Lemma corrupt_at_edits (idxs : list Z) :
  forall (words : list str) (g : rng),
    NoDup idxs ->
    Forall (fun i => 0 <= i < len words) idxs ->
    exists words' g',
      corrupt_at idxs words g = (Ok words', g')
      /\ length words' = length words
      /\ forall n a, nth_error words n = Some a ->
                     exists b, nth_error words' n = Some b
                               /\ edited a b
                               /\ (~ In (Z.of_nat n) idxs -> b = a).
Proof.
  induction idxs as [|idx rest IH]; intros words g Hnd Hidx.
  - exists words, g. repeat split. intros n a Ha. exists a.
    repeat split; [assumption|constructor].
  - inversion Hidx as [|? ? Hi Hrest]; subst.
    inversion Hnd as [|? ? Hnotin Hnd']; subst.
    destruct (getitem_ok words idx Hi) as (w & Hget & Hnth).
    destruct (_corrupt_word_edited w g) as (w' & g1 & Hc & Hed).
    set (words1 := set_nth words (Z.to_nat idx) w').
    assert (Hlen1 : length words1 = length words) by apply length_set_nth.
    destruct (IH words1 g1 Hnd') as (words' & g' & Hrun & Hlen' & Hall).
    { unfold len. rewrite Hlen1. exact Hrest. }
    exists words', g'. simpl. unfold bind, lift.
    rewrite Hget, Hc, (setitem_ok words idx w' Hi). fold words1. rewrite Hrun.
    split; [reflexivity|]. split; [congruence|].
    intros n a Ha.
    destruct (Nat.eq_dec (Z.to_nat idx) n) as [Heqn|Hneq].
    + subst n. assert (a = w) by congruence. subst a.
      destruct (Hall (Z.to_nat idx) w') as (b & Hb & _ & Hsame).
      { unfold words1. apply nth_error_set_nth_eq. unfold len in Hi. lia. }
      rewrite Z2Nat.id in Hsame by lia. rewrite (Hsame Hnotin) in Hb.
      exists w'. repeat split; try assumption.
      intros Hn. exfalso. apply Hn. left. lia.
    + destruct (Hall n a) as (b & Hb & He & Hsame).
      { unfold words1. rewrite nth_error_set_nth_other; assumption. }
      exists b. repeat split; try assumption.
      intros Hn. apply Hsame. intros Hin. apply Hn. right. assumption.
Qed.

(** The selection made by [inject_errors], and what is left to do once
    it is made. *)
Lemma inject_errors_selection (text : str) (rate : PyFloat.float) (g : rng) :
  len text <= maxsize -> PyFloat.unit_rate rate = true ->
  exists x idxs g1,
    PyFloat.int_mul_float (len (split text)) rate = Ok x
    /\ NoDup idxs
    /\ Forall (fun i => 0 <= i < len (split text)) idxs
    /\ len idxs = Z.min (len (split text)) (Z.max 1 (PyFloat.floor x))
    /\ inject_errors text rate g
       = bind (corrupt_at idxs (split text))
              (fun words => ret (join (lit " ") words, len idxs)) g1.
Proof.
  intros Hlen Hrate.
  pose proof (split_length text) as Hn. pose proof (len_nonneg (split text)) as Hn0.
  destruct (PyFloatFacts.int_mul_float_finite (len (split text)) rate
              ltac:(lia) Hrate) as (x & Hx & Hfin).
  destruct (PyFloatFacts.to_int_floor x Hfin) as (t & Ht & Hmax).
  exists x. unfold inject_errors. unfold bind at 1 2. unfold lift at 1 2.
  rewrite Hx, Ht, Hmax.
  set (N := len (split text)) in *. set (k := Z.max 1 (PyFloat.floor x)).
  destruct (k >=? N) eqn:E.
  - apply Z.geb_le in E. exists (range N), g.
    split; [reflexivity|]. split; [apply range_NoDup|].
    split; [apply range_bound|]. split; [rewrite len_range; lia|].
    reflexivity.
  - assert (Hk : 0 <= k <= N).
    { unfold k in *. rewrite Z.geb_leb in E. apply Z.leb_gt in E. lia. }
    unfold bind at 1. unfold sample.
    replace ((0 <=? k) && (k <=? N)) with true
      by (symmetry; apply andb_true_iff; split; apply Z.leb_le; lia).
    pose proof (sample_range_length N k g Hk) as Hl.
    pose proof (sample_range_bound N k g Hk) as Hb.
    pose proof (sample_range_distinct N k g Hk) as Hd.
    destruct (sample_range N k g) as [idxs g1]. simpl in Hl, Hb, Hd.
    exists idxs, g1. split; [reflexivity|]. split; [assumption|].
    split; [assumption|]. split; [lia|]. reflexivity.
Qed.

(** X2.  Every word of the text that [inject_errors] returns is the word
    at the same position of the input or that word with exactly one edit:
    no word is edited twice, none is moved, merged or split; and the
    returned text is normalised, its words separated by single spaces
    whatever whitespace the input had. *)
Theorem inject_errors_edits_each_word_once
  (text : str) (rate : PyFloat.float) (g : rng) :
  len text <= maxsize -> PyFloat.unit_rate rate = true ->
  exists corrupted n g',
    inject_errors text rate g = (Ok (corrupted, n), g')
    /\ Forall2 edited (split text) (split corrupted)
    /\ join (lit " ") (split corrupted) = corrupted.
Proof.
  intros Hlen Hrate.
  destruct (inject_errors_selection text rate g Hlen Hrate)
    as (x & idxs & g1 & _ & Hnd & Hin & _ & Hrun).
  destruct (corrupt_at_edits idxs (split text) g1 Hnd Hin)
    as (words' & g' & Hc & Hl & Hall).
  (* the loop keeps words words *)
  destruct (corrupt_at_spec (split text) idxs (split text) g1 (split_solid text) Hin)
    as (ws0 & g0 & Hc0 & Hsolid & _).
  rewrite Hc in Hc0. injection Hc0 as <- <-.
  exists (join (lit " ") words'), (len idxs), g'.
  rewrite Hrun. unfold bind, ret. rewrite Hc.
  split; [reflexivity|].
  rewrite split_join by assumption. split; [|reflexivity].
  apply Forall2_nth_error; [assumption|].
  intros n a Ha. destruct (Hall n a Ha) as (b & Hb & He & _). eauto.
Qed.

End WithRandom.

Lemma inject_errors_edits_each_word_once_witness :
  (len ErrorInjectorSpec.greeting <= maxsize
   /\ PyFloat.unit_rate PyFloat.one = true)
  /\ exists corrupted n g',
      @inject_errors Counter.random ErrorInjectorSpec.greeting PyFloat.one 7
      = (Ok (corrupted, n), g')
      /\ Forall2 edited (split ErrorInjectorSpec.greeting) (split corrupted)
      /\ join (lit " ") (split corrupted) = corrupted.
Proof.
  assert (H1 : len ErrorInjectorSpec.greeting <= maxsize)
    by (vm_compute; discriminate).
  assert (H2 : PyFloat.unit_rate PyFloat.one = true) by reflexivity.
  split; [split; assumption|].
  exact (@inject_errors_edits_each_word_once Counter.random
           ErrorInjectorSpec.greeting PyFloat.one 7 H1 H2).
Defined.

End ErrorInjectorExtra.

(** ** Rates at the edges *)

Module ErrorInjectorEdges.
Import PyFacts PyRandom ErrorInjector ErrorInjectorFacts ErrorInjectorExtra.

Definition blank : str := lit "  " ++ [9; 10].

Lemma mul_zero_floor (f r : PyFloat.float) (k b : Z) :
  PyFloatFacts.small f k b -> r = S754_zero false \/ r = S754_zero true ->
  PyFloat.floor (PyFloat.mul f r) = 0.
Proof.
  intros Hf [-> | ->]; destruct f; simpl in *; try contradiction; reflexivity.
Qed.

Lemma str_eqb_sym (a b : str) : str_eqb a b = str_eqb b a.
Proof.
  unfold str_eqb.
  destruct (list_eq_dec Z.eq_dec a b), (list_eq_dec Z.eq_dec b a);
    congruence.
Qed.

Lemma count_differing_sym (a : list str) :
  forall b, count_differing a b = count_differing b a.
Proof.
  induction a as [|x a IH]; intros [|y b]; simpl; try reflexivity.
  rewrite str_eqb_sym, IH. reflexivity.
Qed.

(** X6.  [calculate_actual_error_rate] does not depend on the order of
    its two texts, whether their word counts agree or not. *)
Theorem calculate_actual_error_rate_symmetric (a b : str) :
  calculate_actual_error_rate a b = calculate_actual_error_rate b a.
Proof.
  unfold calculate_actual_error_rate.
  rewrite (Z.eqb_sym (len (split b)) (len (split a))).
  destruct (len (split a) =? len (split b)) eqn:E; cbn [negb].
  - apply Z.eqb_eq in E. rewrite count_differing_sym, E.
    destruct (split a) as [|x xs], (split b) as [|y ys]; try reflexivity.
    rewrite len_cons in E. pose proof (len_nonneg xs).
    change (len (@nil str)) with 0 in E. lia.
  - rewrite Z.min_comm, Z.max_comm. reflexivity.
Qed.

Section WithRandom.
Context {R : Random}.

(** X3.  At rate 0.0 the floor of one applies: on a text of at least one
    word [inject_errors] reports exactly one selected word, and the
    returned text differs from the input in at most one word. *)
Theorem inject_errors_zero_rate_selects_one (text : str) (g : rng) :
  len text <= maxsize -> 1 <= len (split text) ->
  exists corrupted g',
    inject_errors text PyFloat.zero g = (Ok (corrupted, 1), g')
    /\ len (ErrorInjectorSpec.differing_positions (split text) (split corrupted))
       <= 1.
Proof.
  intros Hlen Hn.
  destruct (inject_errors_selection text PyFloat.zero g Hlen eq_refl)
    as (x & idxs & g1 & Hx & Hnd & Hin & Hcount & Hrun).
  assert (Hfloor : PyFloat.floor x = 0).
  { unfold PyFloat.int_mul_float in Hx.
    pose proof (split_length text). pose proof (len_nonneg (split text)).
    destruct (PyFloatFacts.of_int_small (len (split text)) ltac:(lia))
      as (f & Hf & Hs).
    rewrite Hf in Hx. injection Hx as <-.
    apply (mul_zero_floor f _ 64 21 Hs). left. reflexivity. }
  rewrite Hfloor in Hcount.
  destruct (corrupt_at_spec (split text) idxs (split text) g1 (split_solid text) Hin)
    as (words' & g' & Hc & Hsolid & Hl & _ & Hdiff).
  exists (join (lit " ") words'), g'.
  rewrite Hrun. unfold bind, ret. rewrite Hc.
  replace (len idxs) with 1 in * by lia.
  split; [reflexivity|].
  rewrite split_join by assumption.
  rewrite <- ErrorInjectorSpec.count_differing_positions by congruence.
  rewrite count_differing_refl in Hdiff. lia.
Qed.

(** X4.  A rate that is not a finite number (NaN or an infinity) makes
    [inject_errors] raise, for every text, before anything is drawn from
    the generator. *)
Theorem inject_errors_rejects_non_finite_rate
  (text : str) (rate : PyFloat.float) (g : rng) :
  PyFloat.is_finite rate = false ->
  exists e, inject_errors text rate g = (Raise e, g).
Proof.
  intros Hr. unfold inject_errors, bind. unfold lift at 1 2.
  unfold PyFloat.int_mul_float.
  destruct (PyFloat.of_int (len (split text))) as [f|e];
    [|eexists; reflexivity].
  assert (H : exists e, PyFloat.to_int (PyFloat.mul f rate) = Raise e).
  { destruct rate as [s|s| |s m e]; try discriminate;
      destruct f as [sf|sf| |sf mf ef]; simpl; eexists; reflexivity. }
  destruct H as (e & ->). exists e. reflexivity.
Qed.

(** X5.  A text without words (empty, or whitespace only) gives the empty
    text and a count of 0 at every finite rate, and draws nothing from
    the generator. *)
Theorem inject_errors_no_words (text : str) (rate : PyFloat.float) (g : rng) :
  split text = [] -> PyFloat.is_finite rate = true ->
  inject_errors text rate g = (Ok ([], 0), g).
Proof.
  intros Hs Hr. unfold inject_errors. rewrite Hs.
  unfold bind. unfold lift at 1 2. change (len (@nil str)) with 0.
  destruct rate as [s|s| |s m e]; try discriminate; reflexivity.
Qed.

End WithRandom.

Lemma inject_errors_zero_rate_selects_one_witness :
  (len ErrorInjectorSpec.fox <= maxsize /\ 1 <= len (split ErrorInjectorSpec.fox))
  /\ exists corrupted g',
      @inject_errors Counter.random ErrorInjectorSpec.fox PyFloat.zero 3
      = (Ok (corrupted, 1), g')
      /\ len (ErrorInjectorSpec.differing_positions
                (split ErrorInjectorSpec.fox) (split corrupted)) <= 1.
Proof.
  assert (H1 : len ErrorInjectorSpec.fox <= maxsize) by (vm_compute; discriminate).
  assert (H2 : 1 <= len (split ErrorInjectorSpec.fox))
    by (vm_compute; discriminate).
  split; [split; assumption|].
  exact (@inject_errors_zero_rate_selects_one Counter.random
           ErrorInjectorSpec.fox 3 H1 H2).
Defined.

Lemma inject_errors_rejects_non_finite_rate_witness :
  PyFloat.is_finite S754_nan = false
  /\ exists e,
      @inject_errors Counter.random ErrorInjectorSpec.fox S754_nan 3
      = (Raise e, 3).
Proof.
  split; [reflexivity|].
  exact (@inject_errors_rejects_non_finite_rate Counter.random
           ErrorInjectorSpec.fox S754_nan 3 eq_refl).
Defined.

Lemma inject_errors_no_words_witness :
  (split blank = [] /\ PyFloat.is_finite ErrorInjectorSpec.quarter = true)
  /\ @inject_errors Counter.random blank ErrorInjectorSpec.quarter 3
     = (Ok ([], 0), 3).
Proof.
  split; [split; reflexivity|].
  exact (@inject_errors_no_words Counter.random blank ErrorInjectorSpec.quarter 3
           eq_refl eq_refl).
Defined.

End ErrorInjectorEdges.

(** ** More on the generator: how many cases, numbered how, in what order *)

Module GeneratorExtra.
Import PyFacts ErrorInjector ErrorInjectorFacts Generator GeneratorSpec.

(** The elements of a list numbered from [start]. *)
Fixpoint number {A} (start : Z) (l : list A) : list (Z * A) :=
  match l with
  | [] => []
  | x :: l' => (start, x) :: number (start + 1) l'
  end.

Lemma number_app {A} (l1 l2 : list A) :
  forall start,
    number start (l1 ++ l2) = number start l1 ++ number (start + len l1) l2.
Proof.
  induction l1 as [|x l1 IH]; intros start; cbn [number app].
  - change (len (@nil A)) with 0. rewrite Z.add_0_r. reflexivity.
  - rewrite IH, len_cons. do 3 f_equal. lia.
Qed.

Lemma number_fst {A} (l : list A) :
  forall start,
    map fst (number start l) = map (fun i => start + Z.of_nat i) (seq 0 (length l)).
Proof.
  induction l as [|x l IH]; intros start; [reflexivity|].
  cbn [number map length seq fst]. rewrite IH, <- seq_shift, map_map.
  rewrite Z.add_0_r. f_equal. apply map_ext. intros i. lia.
Qed.

(** What identifies a test case: its id, its sentence and its target
    rate. *)
Definition key (tc : TestCase) : Z * (str * PyFloat.float) :=
  (id tc, (original tc, target_error_rate tc)).

Section WithRandom.
Context {R : Random}.

Lemma rates_loop_keys (sentence : str) (rates : list PyFloat.float) :
  forall test_cases next_id g,
    len sentence <= maxsize ->
    Forall (fun r => PyFloat.unit_rate r = true) rates ->
    exists new g',
      rates_loop sentence rates (test_cases, next_id) g
      = (Ok (test_cases ++ new, next_id + len rates), g')
      /\ map key new = number next_id (map (fun y => (sentence, y)) rates).
Proof.
  induction rates as [|rate rates IH]; intros tcs next_id g Hlen Hrates.
  - exists [], g. rewrite app_nil_r. change (len (@nil PyFloat.float)) with 0.
    rewrite Z.add_0_r. split; reflexivity.
  - inversion Hrates as [|? ? Hrate Hrest]; subst.
    destruct (inject_errors_spec sentence rate g Hlen Hrate)
      as (x & words' & g1 & _ & _ & Hrun & Hsolid & Hl & _).
    set (joined := join (lit " ") words') in *.
    assert (Hwc : len (split sentence) = len (split joined)).
    { unfold joined. rewrite split_join by assumption.
      unfold len. rewrite Hl. reflexivity. }
    destruct (ErrorInjectorSpec.rate_aligned_returns sentence joined Hlen Hwc)
      as (ar & Har & _).
    cbn [rates_loop]. unfold bind, lift. rewrite Hrun, Har.
    match goal with
    | |- context [rates_loop _ _ (tcs ++ [?tc], _)] => set (new_case := tc)
    end.
    destruct (IH (tcs ++ [new_case]) (next_id + 1) g1 Hlen Hrest)
      as (new & g' & Hloop & Hkeys).
    exists (new_case :: new), g'. split.
    + rewrite Hloop, <- app_assoc, len_cons. do 3 f_equal. lia.
    + cbn [map number]. rewrite Hkeys. reflexivity.
Qed.

Lemma sentences_loop_keys (sentences : list str) (rates : list PyFloat.float) :
  forall test_cases next_id g,
    Forall (fun s => len s <= maxsize) sentences ->
    Forall (fun r => PyFloat.unit_rate r = true) rates ->
    exists new g',
      sentences_loop sentences rates (test_cases, next_id) g
      = (Ok (test_cases ++ new, next_id + len (list_prod sentences rates)), g')
      /\ map key new = number next_id (list_prod sentences rates).
Proof.
  induction sentences as [|sentence rest IH]; intros tcs next_id g Hs Hrates.
  - exists [], g. rewrite app_nil_r. cbn [list_prod].
    change (len (@nil (str * PyFloat.float))) with 0.
    rewrite Z.add_0_r. split; reflexivity.
  - inversion Hs as [|? ? Hlen Hrest]; subst.
    destruct (rates_loop_keys sentence rates tcs next_id g Hlen Hrates)
      as (new1 & g1 & Hrun & Hk1).
    destruct (IH (tcs ++ new1) (next_id + len rates) g1 Hrest Hrates)
      as (new2 & g2 & Hrun2 & Hk2).
    exists (new1 ++ new2), g2.
    assert (Hlm : len (map (fun y => (sentence, y)) rates) = len rates)
      by (unfold len; rewrite length_map; reflexivity).
    cbn [sentences_loop list_prod]. unfold bind. rewrite Hrun, Hrun2. split.
    + rewrite <- app_assoc, len_app, Hlm. do 3 f_equal. lia.
    + rewrite map_app, number_app, Hk1, Hk2, Hlm. reflexivity.
Qed.

(** X7.  For [S] base sentences and [R] rates [generate_test_cases]
    returns [S * R] test cases, numbered 1, 2, 3, ... in the order of
    generation, sentence by sentence and, within a sentence, rate by rate
    in the order given; each case carries its sentence as [original] and
    its rate as [target_error_rate]. *)
Theorem generate_test_cases_numbered
  (self : TestCaseGenerator) (error_rates : list PyFloat.float) (g : rng) :
  Forall (fun s => len s <= maxsize) (base_sentences self) ->
  Forall (fun r => PyFloat.unit_rate r = true) error_rates ->
  exists test_cases g',
    generate_test_cases self error_rates g = (Ok test_cases, g')
    /\ map key test_cases = number 1 (list_prod (base_sentences self) error_rates)
    /\ len test_cases = len (base_sentences self) * len error_rates
    /\ map id test_cases
       = map (fun i => 1 + Z.of_nat i) (seq 0 (length test_cases)).
Proof.
  intros Hs Hr.
  destruct (sentences_loop_keys (base_sentences self) error_rates [] 1 g Hs Hr)
    as (tcs & g' & Hrun & Hkeys).
  exists tcs, g'. unfold generate_test_cases, bind. rewrite Hrun.
  split; [reflexivity|]. split; [assumption|].
  assert (Hlen : length tcs = length (list_prod (base_sentences self) error_rates)).
  { apply (f_equal (@List.length _)) in Hkeys.
    rewrite length_map in Hkeys. rewrite Hkeys.
    clear. generalize 1. induction (list_prod (base_sentences self) error_rates);
      intros z; simpl; [reflexivity|]. f_equal. apply IHl. }
  split.
  - unfold len. rewrite Hlen, length_prod. lia.
  - replace (map id tcs) with (map fst (map key tcs))
      by (rewrite map_map; reflexivity).
    rewrite Hkeys, number_fst, Hlen. reflexivity.
Qed.

End WithRandom.

Lemma generate_test_cases_numbered_witness :
  (Forall (fun s => len s <= maxsize) (base_sentences two_sentences)
   /\ Forall (fun r => PyFloat.unit_rate r = true)
             [PyFloat.zero; ErrorInjectorSpec.quarter; PyFloat.one])
  /\ exists test_cases g',
      @generate_test_cases Counter.random two_sentences
        [PyFloat.zero; ErrorInjectorSpec.quarter; PyFloat.one] 42
      = (Ok test_cases, g')
      /\ map key test_cases
         = number 1 (list_prod (base_sentences two_sentences)
                       [PyFloat.zero; ErrorInjectorSpec.quarter; PyFloat.one])
      /\ len test_cases = len (base_sentences two_sentences) * 3
      /\ map id test_cases
         = map (fun i => 1 + Z.of_nat i) (seq 0 (length test_cases)).
Proof.
  assert (H1 : Forall (fun s => len s <= maxsize) (base_sentences two_sentences))
    by (repeat constructor; vm_compute; discriminate).
  assert (H2 : Forall (fun r => PyFloat.unit_rate r = true)
                 [PyFloat.zero; ErrorInjectorSpec.quarter; PyFloat.one])
    by (repeat constructor).
  split; [split; assumption|].
  exact (@generate_test_cases_numbered Counter.random two_sentences _ 42 H1 H2).
Defined.

End GeneratorExtra.

(** ** [strip], and what the loader keeps *)

Module StripFacts.
Import PyFacts.

(** Nothing to strip on the left. *)
Definition trimmed_left (s : str) : Prop :=
  match s with
  | [] => True
  | c :: _ => isspace c = false
  end.

Lemma lstrip_trimmed (s : str) : trimmed_left (lstrip s).
Proof.
  induction s as [|c s IH]; simpl; [exact I|].
  destruct (isspace c) eqn:E; [exact IH|exact E].
Qed.

Lemma lstrip_fixed (s : str) : trimmed_left s -> lstrip s = s.
Proof. destruct s as [|c s]; simpl; [reflexivity|]. intros ->. reflexivity. Qed.

Lemma lstrip_suffix (s : str) : exists sp, s = sp ++ lstrip s.
Proof.
  induction s as [|c s (sp & IH)]; simpl; [exists []; reflexivity|].
  destruct (isspace c); [|exists []; reflexivity].
  exists (c :: sp). simpl. f_equal. exact IH.
Qed.

Lemma rstrip_prefix (s : str) : exists sp, s = rstrip s ++ sp.
Proof.
  unfold rstrip. destruct (lstrip_suffix (rev s)) as (sp & H).
  exists (rev sp). rewrite <- rev_app_distr, <- H, rev_involutive. reflexivity.
Qed.

Lemma trimmed_left_prefix (p s : str) :
  (exists t, s = p ++ t) -> trimmed_left s -> trimmed_left p.
Proof.
  intros (t & ->) H. destruct p; [exact I|exact H].
Qed.

Lemma rstrip_trimmed_left (s : str) : trimmed_left s -> trimmed_left (rstrip s).
Proof. apply trimmed_left_prefix. apply rstrip_prefix. Qed.

Lemma rstrip_idempotent (s : str) : rstrip (rstrip s) = rstrip s.
Proof.
  unfold rstrip. rewrite rev_involutive.
  rewrite (lstrip_fixed _ (lstrip_trimmed (rev s))). reflexivity.
Qed.

Lemma strip_trimmed_left (s : str) : trimmed_left (strip s).
Proof. apply rstrip_trimmed_left, lstrip_trimmed. Qed.

(** Stripping twice is stripping once. *)
Lemma strip_idempotent (s : str) : strip (strip s) = strip s.
Proof.
  unfold strip at 1. rewrite (lstrip_fixed _ (strip_trimmed_left s)).
  unfold strip. apply rstrip_idempotent.
Qed.

Lemma strip_of_trimmed_left (p : str) :
  trimmed_left p -> exists t, p = strip p ++ t.
Proof.
  intros H. unfold strip. rewrite (lstrip_fixed p H). apply rstrip_prefix.
Qed.

Lemma startswith_nil (s : str) : startswith s [] = true.
Proof. destruct s; reflexivity. Qed.

Lemma startswith_one (c : char) (s p : str) :
  (exists t, s = p ++ t) -> startswith s [c] = false -> startswith p [c] = false.
Proof.
  intros (t & ->) H. destruct p as [|a p]; [reflexivity|].
  cbn [app startswith] in *. rewrite startswith_nil in *. exact H.
Qed.

End StripFacts.

Module GeneratorLoading.
Import PyFacts StripFacts Generator GeneratorSpec.

Lemma sentences_of_trimmed (text : str) :
  Forall (fun s => strip s = s /\ startswith s (lit "#") = false)
         (sentences_of text).
Proof.
  unfold sentences_of. apply Forall_forall. intros s Hs.
  apply in_map_iff in Hs as (line & <- & Hline).
  apply filter_In in Hline as [Hin Huse].
  apply in_map_iff in Hin as (raw & <- & _).
  unfold usable in Huse. apply andb_true_iff in Huse as [_ Hhash].
  apply negb_true_iff in Hhash.
  assert (Hkeep : strip (strip raw) = strip raw
                  /\ startswith (strip raw) (lit "#") = false)
    by (split; [apply strip_idempotent|assumption]).
  unfold unannotated.
  destruct (contains (strip raw) (lit "(") && contains (strip raw) (lit "words)"));
    [|exact Hkeep].
  destruct (rfind_from 0 (chr "(") (strip raw)) as [i|]; [|exact Hkeep].
  split; [apply strip_idempotent|].
  set (p := slice_to (strip raw) i).
  assert (Hp : exists t, strip raw = p ++ t).
  { exists (skipn (clamp_index (strip raw) i) (strip raw)).
    unfold p, slice_to. symmetry. apply firstn_skipn. }
  assert (Htl : trimmed_left p)
    by (apply (trimmed_left_prefix p (strip raw) Hp), strip_trimmed_left).
  destruct (strip_of_trimmed_left p Htl) as (t & Hpt).
  apply (startswith_one (chr "#") (strip raw) (strip p)); [|exact Hhash].
  destruct Hp as (t' & Hp). exists (t ++ t').
  rewrite Hp. rewrite Hpt at 1. rewrite <- app_assoc. reflexivity.
Qed.

(** X8.  Every base sentence that [_load_base_sentences] returns is
    stripped of surrounding whitespace and does not start with [#]; this
    holds of the sentences cut off before a word-count annotation too. *)
Theorem loaded_sentences_are_trimmed
  (fs : filesystem) (file : str) (sentences : list str) :
  _load_base_sentences fs file = Ok sentences ->
  Forall (fun s => strip s = s /\ startswith s (lit "#") = false) sentences.
Proof.
  unfold _load_base_sentences, open_read.
  destruct (fs file) as [|text|found e]; try discriminate.
  rewrite load_lines_eq. intros H. injection H as <-.
  apply sentences_of_trimmed.
Qed.

Definition annotated : filesystem :=
  fun path =>
    if str_eqb path (lit "sentences.txt")
    then Text (lit "# base sentences" ++ [LF]
               ++ lit "  The cat sat on the mat   (6 words)" ++ [CR; LF; LF]
               ++ lit "Dogs bark. ")
    else Missing.

Lemma loaded_sentences_are_trimmed_witness :
  _load_base_sentences annotated (lit "sentences.txt")
  = Ok [lit "The cat sat on the mat"; lit "Dogs bark."]
  /\ Forall (fun s => strip s = s /\ startswith s (lit "#") = false)
            [lit "The cat sat on the mat"; lit "Dogs bark."].
Proof.
  assert (H : _load_base_sentences annotated (lit "sentences.txt")
              = Ok [lit "The cat sat on the mat"; lit "Dogs bark."])
    by reflexivity.
  split; [exact H|].
  exact (loaded_sentences_are_trimmed annotated (lit "sentences.txt") _ H).
Defined.

End GeneratorLoading.

(** ** More on the pipeline *)

Module PipelineExtra.
Import PyFacts StripFacts Pipeline PipelineSpec.

Section WithService.
Context {Srv : Service}.

(** The total of the backoff pauses in a log. *)
Fixpoint backoff_total (evs : list event) : Z :=
  match evs with
  | [] => 0
  | Sleep (Int d) :: rest => d + backoff_total rest
  | _ :: rest => backoff_total rest
  end.

Lemma calls_app (a b : list event) : calls (a ++ b) = calls a + calls b.
Proof.
  induction a as [|[r|d] a IH]; cbn [app calls]; rewrite ?IH; lia.
Qed.

Lemma calls_nonneg (a : list event) : 0 <= calls a.
Proof. induction a as [|[r|d] a IH]; cbn [calls]; lia. Qed.

Lemma backoff_total_retries (r : request) (k : nat) :
  forall attempt tl,
    0 <= attempt ->
    backoff_total (retries r attempt k ++ tl)
    = 2 ^ (attempt + Z.of_nat k) - 2 ^ attempt + backoff_total tl.
Proof.
  induction k as [|k IH]; intros attempt tl Ha.
  - cbn [retries app]. rewrite Z.add_0_r. lia.
  - cbn [retries app backoff_total]. rewrite IH by lia.
    replace (attempt + 1 + Z.of_nat k) with (attempt + Z.of_nat (S k)) by lia.
    rewrite (Z.pow_add_r 2 attempt 1) by lia. lia.
Qed.

(** The ways a call of [_call_agent] can go. *)
Lemma call_agent_cases (self : TranslationPipeline)
  (agent_name input_text : str) (w : world) :
  let r := request_of self agent_name input_text in
  let n := max_retries self in
  (n <= 0 /\ _call_agent self agent_name input_text w = (Ok [], w))
  \/ exists (k : nat) (s' : service),
      Z.of_nat k + 1 <= n
      /\ ((exists text,
             _call_agent self agent_name input_text w
             = (Ok (strip text),
                {| srv := s';
                   log := log w ++ retries r 0 k
                          ++ [Request r; Sleep (delay self)] |}))
          \/ (exists e,
                Z.of_nat k + 1 = n
                /\ _call_agent self agent_name input_text w
                   = (Raise (Exception (failure_message agent_name n e)),
                      {| srv := s';
                         log := log w ++ retries r 0 k ++ [Request r] |}))
          \/ (exists e' s1,
                Z.of_nat k + 1 < n
                /\ time_sleep (Int (2 ^ Z.of_nat k)) s1 = (Raise e', s')
                /\ _call_agent self agent_name input_text w
                   = (Raise e',
                      {| srv := s';
                         log := log w ++ retries r 0 k ++ [Request r] |}))).
Proof.
  intros r n. unfold _call_agent. fold r.
  destruct (Z_le_gt_dec n 0) as [Hn|Hn].
  - left. split; [assumption|].
    replace (Z.to_nat (max_retries self)) with O by (unfold n in Hn; lia).
    reflexivity.
  - right.
    destruct (attempts_spec self agent_name r (Z.to_nat (max_retries self)) 0 w
                ltac:(unfold n in Hn; lia))
      as [[Hz _]|(k & s & Hk & _ & Hend)]; [unfold n in Hn; lia|].
    destruct Hend
      as [(text & s1 & s' & _ & _ & Hrun)
         |[(e & s' & _ & Hk2 & Hrun)
          |(e & s1 & e' & s' & _ & Hk2 & Hback & Hrun)]].
    + exists k, s'. split; [unfold n; lia|]. left. exists text. exact Hrun.
    + exists k, s'. split; [unfold n; lia|]. right. left. exists e.
      split; [unfold n; lia|exact Hrun].
    + exists k, s'. split; [unfold n; lia|]. right. right. exists e', s1.
      split; [unfold n; lia|]. split; [exact Hback|exact Hrun].
Qed.

(** X9.  The text that [_call_agent] returns has no whitespace at either
    end: stripping it again changes nothing. *)
Theorem _call_agent_returns_stripped (self : TranslationPipeline)
  (agent_name input_text : str) (w w' : world) (text : str) :
  _call_agent self agent_name input_text w = (Ok text, w') ->
  strip text = text.
Proof.
  intros Hrun.
  destruct (call_agent_cases self agent_name input_text w)
    as [[_ H]|(k & s' & _ & [(t & H)|[(e & _ & H)|(e & s1 & _ & _ & H)]])];
    rewrite H in Hrun; try discriminate; injection Hrun as <- _.
  - reflexivity.
  - apply strip_idempotent.
Qed.

(** X10.  When a call raises, and [time.sleep] grants the backoff
    pauses of the budget (it refuses a pause of [2^34] seconds and
    more), the budget is used up: the service was called exactly
    [max_retries] times and the backoff pauses add up to
    [2^(max_retries - 1) - 1]. *)
Theorem _call_agent_exhaustion_cost (self : TranslationPipeline)
  (agent_name input_text : str) (w w' : world) (e : exn) :
  (forall a s, 0 <= a < max_retries self - 1 ->
               exists s', time_sleep (Int (2 ^ a)) s = (Ok tt, s')) ->
  _call_agent self agent_name input_text w = (Raise e, w') ->
  exists evs,
    log w' = log w ++ evs
    /\ calls evs = max_retries self
    /\ backoff_total evs = 2 ^ (max_retries self - 1) - 1.
Proof.
  intros Hgrant Hrun.
  destruct (call_agent_cases self agent_name input_text w)
    as [[_ H]|(k & s' & Hk & [(t & H)|[(e' & Hn & H)|(e' & s1 & Hn & Hb & H)]])];
    rewrite H in Hrun; try discriminate.
  - injection Hrun as _ <-.
    eexists. split; [reflexivity|]. split.
    + rewrite calls_retries. cbn [calls]. lia.
    + rewrite backoff_total_retries by lia. cbn [backoff_total].
      replace (0 + Z.of_nat k) with (max_retries self - 1) by lia. lia.
  - destruct (Hgrant (Z.of_nat k) s1 ltac:(lia)) as (s2 & Hok).
    rewrite Hok in Hb. discriminate.
Qed.

Lemma call_agent_first_try (self : TranslationPipeline)
  (agent_name input_text : str) (w : world) (text : str) (s1 s' : service) :
  1 <= max_retries self ->
  messages_create (request_of self agent_name input_text) (srv w) = (Ok text, s1) ->
  time_sleep (delay self) s1 = (Ok tt, s') ->
  _call_agent self agent_name input_text w
  = (Ok (strip text),
     {| srv := s';
        log := log w ++ [Request (request_of self agent_name input_text);
                         Sleep (delay self)] |}).
Proof.
  intros Hn Hcall Hpause. unfold _call_agent.
  destruct (Z.to_nat (max_retries self)) as [|todo] eqn:E; [lia|].
  rewrite attempts_step. unfold attempt_once. rewrite Hcall, Hpause.
  reflexivity.
Qed.

(** X11.  When the service answers each stage at the first attempt and
    [time.sleep] grants the rate-limit pause each time, [process] makes
    exactly three requests, each followed by the pause; the second stage
    is given the stripped answer of the first and the third the stripped
    answer of the second; and the record returned holds the three
    stripped answers and [success] true. *)
Theorem process_chains_the_stages (self : TranslationPipeline)
  (english_input : str) (id : Z) (w : world)
  (t1 t2 t3 : str) (s1 s2 s3 p1 p2 p3 : service) :
  let r1 := request_of self (lit "agent1") english_input in
  let r2 := request_of self (lit "agent2") (strip t1) in
  let r3 := request_of self (lit "agent3") (strip t2) in
  1 <= max_retries self ->
  messages_create r1 (srv w) = (Ok t1, s1) ->
  time_sleep (delay self) s1 = (Ok tt, p1) ->
  messages_create r2 p1 = (Ok t2, s2) ->
  time_sleep (delay self) s2 = (Ok tt, p2) ->
  messages_create r3 p2 = (Ok t3, s3) ->
  time_sleep (delay self) s3 = (Ok tt, p3) ->
  exists elapsed,
    process self english_input id w
    = (Ok {| test_id := id;
             original := english_input;
             french := strip t1;
             hebrew := strip t2;
             final := strip t3;
             meta := {| duration := elapsed;
                        success := true;
                        meta_model := model self |} |},
       {| srv := p3;
          log := log w ++ [Request r1; Sleep (delay self);
                           Request r2; Sleep (delay self);
                           Request r3; Sleep (delay self)] |}).
Proof.
  intros r1 r2 r3 Hn H1 P1 H2 P2 H3 P3. subst r1 r2 r3. eexists.
  pose proof (process_outcome self english_input id w) as H.
  set (w1 := {| srv := p1;
                log := log w ++ [Request (request_of self (lit "agent1") english_input);
                                 Sleep (delay self)] |}).
  set (w2 := {| srv := p2;
                log := log w1 ++ [Request (request_of self (lit "agent2") (strip t1));
                                  Sleep (delay self)] |}).
  rewrite (call_agent_first_try self (lit "agent1") english_input w t1 s1 p1
             Hn H1 P1) in H.
  fold w1 in H.
  rewrite (call_agent_first_try self (lit "agent2") (strip t1) w1 t2 s2 p2
             Hn H2 P2) in H.
  cbn [srv] in H. fold w2 in H.
  rewrite (call_agent_first_try self (lit "agent3") (strip t2) w2 t3 s3 p3
             Hn H3 P3) in H.
  rewrite H. unfold w2, w1. cbn [srv log]. rewrite <- !app_assoc. reflexivity.
Qed.

(** X12.  With a retry budget of zero or less no stage calls the
    service: [process] returns at once a record with [success] true whose
    three translations are empty strings. *)
Theorem process_without_budget (self : TranslationPipeline)
  (english_input : str) (id : Z) (w : world) :
  max_retries self <= 0 ->
  exists elapsed,
    process self english_input id w
    = (Ok {| test_id := id;
             original := english_input;
             french := [];
             hebrew := [];
             final := [];
             meta := {| duration := elapsed;
                        success := true;
                        meta_model := model self |} |}, w).
Proof.
  intros Hn. eexists.
  assert (Hcall : forall a i, _call_agent self a i w = (Ok [], w)).
  { intros a i. unfold _call_agent.
    replace (Z.to_nat (max_retries self)) with O by lia. reflexivity. }
  pose proof (process_outcome self english_input id w) as H.
  rewrite !Hcall in H. exact H.
Qed.

(** A world reached from another by a run: the log has grown by events
    of which at most [bound] are requests. *)
Definition grown (w w' : world) (bound : Z) : Prop :=
  exists evs, log w' = log w ++ evs /\ calls evs <= bound.

Lemma grown_refl (w : world) (bound : Z) : 0 <= bound -> grown w w bound.
Proof. intros H. exists []. rewrite app_nil_r. split; [reflexivity|exact H]. Qed.

Lemma grown_trans (w1 w2 w3 : world) (b1 b2 : Z) :
  grown w1 w2 b1 -> grown w2 w3 b2 -> grown w1 w3 (b1 + b2).
Proof.
  intros (e1 & H1 & Hc1) (e2 & H2 & Hc2). exists (e1 ++ e2).
  rewrite H2, H1, app_assoc, calls_app. split; [reflexivity|lia].
Qed.

Lemma call_agent_grown (self : TranslationPipeline)
  (agent_name input_text : str) (w : world) :
  grown w (snd (_call_agent self agent_name input_text w))
        (Z.max 0 (max_retries self)).
Proof.
  destruct (call_agent_cases self agent_name input_text w)
    as [[_ H]|(k & s' & Hk & [(t & H)|[(e' & Hn & H)|(e' & s1 & Hn & _ & H)]])];
    rewrite H; cbn [snd].
  - apply grown_refl. lia.
  - eexists. split; [reflexivity|]. rewrite calls_retries. cbn [calls]. lia.
  - eexists. split; [reflexivity|]. rewrite calls_retries. cbn [calls]. lia.
  - eexists. split; [reflexivity|]. rewrite calls_retries. cbn [calls]. lia.
Qed.

Lemma process_grown (self : TranslationPipeline) (english_input : str)
  (id : Z) (w : world) :
  grown w (snd (process self english_input id w))
        (3 * Z.max 0 (max_retries self)).
Proof.
  set (b := Z.max 0 (max_retries self)).
  assert (Hb : 0 <= b) by (unfold b; lia).
  assert (Hweak : forall w1 w2 c, c <= 3 * b -> grown w1 w2 c -> grown w1 w2 (3 * b)).
  { intros w1 w2 c Hc (evs & He & Hcalls). exists evs. split; [assumption|lia]. }
  pose proof (process_outcome self english_input id w) as H.
  pose proof (call_agent_grown self (lit "agent1") english_input w) as G1.
  destruct (_call_agent self (lit "agent1") english_input w) as [[french|e] w1];
    cbn [snd] in G1.
  2:{ rewrite H. cbn [snd]. apply (Hweak _ _ b); [lia|exact G1]. }
  pose proof (call_agent_grown self (lit "agent2") french w1) as G2.
  destruct (_call_agent self (lit "agent2") french w1) as [[hebrew|e] w2];
    cbn [snd] in G2.
  2:{ rewrite H. cbn [snd]. apply (Hweak _ _ (b + b)); [lia|].
      exact (grown_trans _ _ _ _ _ G1 G2). }
  pose proof (call_agent_grown self (lit "agent3") hebrew w2) as G3.
  destruct (_call_agent self (lit "agent3") hebrew w2) as [[final_english|e] w3];
    cbn [snd] in G3; rewrite H; cbn [snd];
    apply (Hweak _ _ (b + b + b)); try lia;
    exact (grown_trans _ _ _ _ _ (grown_trans _ _ _ _ _ G1 G2) G3).
Qed.

(** X13.  A batch of [N] test cases costs at most [3 * max_retries * N]
    requests; the log of the world is only ever extended. *)
Theorem process_batch_request_bound (self : TranslationPipeline)
  (test_cases : list Generator.TestCase) (w : world) :
  exists evs,
    log (snd (process_batch self test_cases w)) = log w ++ evs
    /\ calls evs <= 3 * Z.max 0 (max_retries self) * len test_cases.
Proof.
  unfold process_batch. rewrite batch_loop_spec. cbn [snd].
  revert w. induction test_cases as [|tc rest IH]; intros w.
  - exists []. cbn [item_results snd]. rewrite app_nil_r.
    change (len (@nil Generator.TestCase)) with 0. cbn [calls].
    split; [reflexivity|lia].
  - cbn [item_results].
    pose proof (process_grown self (Generator.corrupted tc) (Generator.id tc) w)
      as G1.
    destruct (process self (Generator.corrupted tc) (Generator.id tc) w)
      as [outcome w1]. cbn [snd] in G1.
    specialize (IH w1).
    destruct (item_results self rest w1) as [records w2]. cbn [snd] in *.
    destruct G1 as (e1 & H1 & Hc1). destruct IH as (e2 & H2 & Hc2).
    exists (e1 ++ e2). rewrite H2, H1, app_assoc, calls_app, len_cons.
    split; [reflexivity|lia].
Qed.

End WithService.

Lemma _call_agent_returns_stripped_witness :
  @_call_agent flaky three_tries (lit "agent1") (lit "Hello world") (@fresh flaky O)
  = (Ok (lit "Bonjour le monde"),
     snd (@_call_agent flaky three_tries (lit "agent1") (lit "Hello world")
            (@fresh flaky O)))
  /\ strip (lit "Bonjour le monde") = lit "Bonjour le monde".
Proof.
  assert (H : @_call_agent flaky three_tries (lit "agent1") (lit "Hello world")
                (@fresh flaky O)
              = (Ok (lit "Bonjour le monde"),
                 snd (@_call_agent flaky three_tries (lit "agent1")
                        (lit "Hello world") (@fresh flaky O))))
    by (vm_compute; reflexivity).
  split; [exact H|].
  exact (@_call_agent_returns_stripped flaky three_tries _ _ _ _ _ H).
Defined.

Lemma _call_agent_exhaustion_cost_witness :
  exists w' evs,
    @_call_agent down three_tries (lit "agent1") (lit "Test text") (@fresh down tt)
    = (Raise (Exception
                (lit "Agent agent1 failed after 3 attempts: Persistent API Error")),
       w')
    /\ log w' = log (@fresh down tt) ++ evs
    /\ calls evs = 3
    /\ backoff_total evs = 2 ^ (3 - 1) - 1.
Proof.
  eexists.
  assert (H : @_call_agent down three_tries (lit "agent1") (lit "Test text")
                (@fresh down tt)
              = (Raise (Exception
                          (lit "Agent agent1 failed after 3 attempts: Persistent API Error")),
                 snd (@_call_agent down three_tries (lit "agent1")
                        (lit "Test text") (@fresh down tt))))
    by (vm_compute; reflexivity).
  assert (Hgrant : forall a s, 0 <= a < max_retries three_tries - 1 ->
                      exists s', @time_sleep down (Int (2 ^ a)) s = (Ok tt, s'))
    by (intros a s _; exists s; reflexivity).
  destruct (@_call_agent_exhaustion_cost down three_tries _ _ _ _ _ Hgrant H)
    as (evs & H1 & H2 & H3).
  exists evs. split; [exact H|]. split; [exact H1|]. split; assumption.
Defined.

Definition no_tries : TranslationPipeline :=
  {| model := lit "claude-3-5-sonnet-20241022";
     max_retries := 0;
     delay := Float PyFloat.one;
     skills := [] |}.

Lemma process_chains_the_stages_witness :
  let r := fun agent => @request_of three_tries agent (lit "good one") in
  exists elapsed,
    @process picky three_tries (lit "  good one ") 7 (@fresh picky tt)
    = (Ok {| test_id := 7;
             original := lit "  good one ";
             french := lit "good one";
             hebrew := lit "good one";
             final := lit "good one";
             meta := {| duration := elapsed;
                        success := true;
                        meta_model := model three_tries |} |},
       @Build_world picky tt
         [Request (@request_of three_tries (lit "agent1") (lit "  good one "));
          Sleep (delay three_tries);
          Request (r (lit "agent2")); Sleep (delay three_tries);
          Request (r (lit "agent3")); Sleep (delay three_tries)]).
Proof.
  exact (@process_chains_the_stages picky three_tries (lit "  good one ") 7
           (@fresh picky tt) (lit "  good one ") (lit "good one") (lit "good one")
           tt tt tt tt tt tt ltac:(vm_compute; discriminate)
           eq_refl eq_refl eq_refl eq_refl eq_refl eq_refl).
Defined.

Lemma process_without_budget_witness :
  max_retries no_tries <= 0
  /\ exists elapsed,
      @process down no_tries (lit "Test text") 1 (@fresh down tt)
      = (Ok {| test_id := 1;
               original := lit "Test text";
               french := [];
               hebrew := [];
               final := [];
               meta := {| duration := elapsed;
                          success := true;
                          meta_model := model no_tries |} |},
         @fresh down tt).
Proof.
  assert (H : max_retries no_tries <= 0) by (vm_compute; discriminate).
  split; [exact H|].
  exact (@process_without_budget down no_tries (lit "Test text") 1
           (@fresh down tt) H).
Defined.

End PipelineExtra.

(** ** Dictionaries, skill files, stored test cases, configuration *)

Module DictFacts.
Import Dict.

Lemma str_eqb_same (a : str) : str_eqb a a = true.
Proof. unfold str_eqb. destruct (list_eq_dec Z.eq_dec a a); congruence. Qed.

Lemma str_eqb_neq (a b : str) : a <> b -> str_eqb a b = false.
Proof. unfold str_eqb. destruct (list_eq_dec Z.eq_dec a b); congruence. Qed.

Lemma str_eqb_true (a b : str) : str_eqb a b = true -> a = b.
Proof. unfold str_eqb. destruct (list_eq_dec Z.eq_dec a b); congruence. Qed.

(** Lookup after assignment, at the key assigned. *)
Lemma get_set_same {V} (d : dict V) (k : str) (v : V) : get (set d k v) k = Some v.
Proof.
  induction d as [|[k0 v0] d IH]; cbn [set get].
  - rewrite str_eqb_same. reflexivity.
  - destruct (str_eqb k0 k) eqn:E; cbn [get]; rewrite E; [reflexivity|exact IH].
Qed.

(** Lookup after assignment, at another key. *)
Lemma get_set_other {V} (d : dict V) (k k' : str) (v : V) :
  k <> k' -> get (set d k v) k' = get d k'.
Proof.
  intros Hne. induction d as [|[k0 v0] d IH]; cbn [set get].
  - rewrite str_eqb_neq by assumption. reflexivity.
  - destruct (str_eqb k0 k) eqn:E; cbn [get].
    + apply str_eqb_true in E. subst k0.
      rewrite str_eqb_neq by assumption. reflexivity.
    + destruct (str_eqb k0 k'); [reflexivity|exact IH].
Qed.

Lemma get_absent {V} (d : dict V) (k : str) : ~ In k (map fst d) -> get d k = None.
Proof.
  induction d as [|[k0 v0] d IH]; cbn [map fst get]; intros H; [reflexivity|].
  rewrite str_eqb_neq by (intros ->; apply H; left; reflexivity).
  apply IH. intros Hin. apply H. right. assumption.
Qed.

End DictFacts.

Module SkillsSpec.
Import Dict DictFacts Skills.

(** A path at which there is nothing or a text file. *)
Definition regular (fs : Generator.filesystem) (path : str) : bool :=
  match fs path with
  | Generator.Other _ _ => false
  | _ => true
  end.

(** An agent's configuration names a skill file, and that path is
    regular. *)
Definition loadable (fs : Generator.filesystem) (agent_config : dict str)
  : Prop :=
  match get agent_config (lit "skill_file") with
  | Some skill_file => regular fs skill_file = true
  | None => False
  end.

(** The instruction text an agent ends up with: the text of its skill
    file if the agent is configured and the file exists, and otherwise
    what it had before. *)
Definition skill_text (fs : Generator.filesystem) (agents : agents_config)
  (before : dict str) (agent_name : str) : option str :=
  match get agents agent_name with
  | Some agent_config =>
      match get agent_config (lit "skill_file") with
      | Some skill_file =>
          match fs skill_file with
          | Generator.Text text => Some (Generator.universal_newlines text)
          | _ => get before agent_name
          end
      | None => get before agent_name
      end
  | None => get before agent_name
  end.

Lemma load_skills_loop_spec (fs : Generator.filesystem) (agents : agents_config) :
  forall before,
    NoDup (map fst agents) ->
    Forall (fun a => loadable fs (snd a)) agents ->
    exists skills,
      load_skills_loop fs agents before = inr skills
      /\ forall name, get skills name = skill_text fs agents before name.
Proof.
  induction agents as [|[n cfg] rest IH]; intros before Hnd Hkeys.
  - exists before. split; reflexivity.
  - inversion Hnd as [|? ? Hnotin Hnd']; subst.
    inversion Hkeys as [|? ? Hkey Hrest]; subst.
    unfold loadable, regular in Hkey. cbn [snd] in Hkey.
    cbn [load_skills_loop]. unfold load_skill.
    destruct (get cfg (lit "skill_file")) as [path|] eqn:Ep; [|contradiction].
    unfold Generator.path_exists, Generator.open_read.
    destruct (fs path) as [|text|found e] eqn:Ef; [| |discriminate].
    + destruct (IH before Hnd' Hrest) as (skills & Hrun & Hget).
      exists skills. split; [exact Hrun|]. intros name. rewrite Hget.
      unfold skill_text. cbn [get].
      destruct (str_eqb n name) eqn:En; [|reflexivity].
      apply str_eqb_true in En. subst name.
      rewrite (get_absent rest n Hnotin), Ep, Ef. reflexivity.
    + destruct (IH (set before n (Generator.universal_newlines text)) Hnd' Hrest)
        as (skills & Hrun & Hget).
      exists skills. split; [exact Hrun|]. intros name. rewrite Hget.
      unfold skill_text. cbn [get].
      destruct (str_eqb n name) eqn:En.
      * apply str_eqb_true in En. subst name.
        rewrite (get_absent rest n Hnotin), Ep, Ef. apply get_set_same.
      * assert (Hne : n <> name) by (intros ->; rewrite str_eqb_same in En; discriminate).
        rewrite (get_set_other before n name _ Hne). reflexivity.
Qed.

Lemma skills_get_get (skills : dict str) (name : str) :
  Pipeline.skills_get skills name
  = match get skills name with Some text => text | None => [] end.
Proof.
  induction skills as [|[k v] skills IH]; cbn [Pipeline.skills_get get];
    [reflexivity|]. destruct (str_eqb k name); [reflexivity|exact IH].
Qed.

(** X14.  When every configured agent names a skill file, and at each
    of these paths there is a text file or nothing at all, [_load_skills]
    does not fail: an agent whose file exists gets the text of the file
    (as text mode gives it, its line ends as LF), and an agent whose
    file is missing (or that is not configured) gets no entry, so that
    its instruction text in [_call_agent] is the empty string. *)
Theorem _load_skills_tolerates_missing_files
  (fs : Generator.filesystem) (agents : agents_config) :
  NoDup (map fst agents) ->
  Forall (fun a => loadable fs (snd a)) agents ->
  exists skills,
    _load_skills fs agents = inr skills
    /\ forall name,
        Pipeline.skills_get skills name
        = match get agents name with
          | Some agent_config =>
              match get agent_config (lit "skill_file") with
              | Some skill_file =>
                  match fs skill_file with
                  | Generator.Text text => Generator.universal_newlines text
                  | _ => []
                  end
              | None => []
              end
          | None => []
          end.
Proof.
  intros Hnd Hkeys.
  destruct (load_skills_loop_spec fs agents [] Hnd Hkeys) as (skills & Hrun & Hget).
  exists skills. split; [exact Hrun|]. intros name.
  rewrite skills_get_get, Hget. unfold skill_text. cbn [get].
  destruct (get agents name) as [cfg|]; [|reflexivity].
  destruct (get cfg (lit "skill_file")) as [path|]; [|reflexivity].
  destruct (fs path); reflexivity.
Qed.

Definition two_agents : agents_config :=
  [(lit "agent1", [(lit "skill_file", lit "skills/en_fr.md")]);
   (lit "agent2", [(lit "source", lit "fr");
                   (lit "skill_file", lit "skills/fr_he.md")])].

Definition one_skill_file : Generator.filesystem :=
  fun path =>
    if str_eqb path (lit "skills/en_fr.md")
    then Generator.Text (lit "Translate" ++ [Generator.CR; Generator.LF]
                         ++ lit "to French")
    else Generator.Missing.

Lemma _load_skills_tolerates_missing_files_witness :
  _load_skills one_skill_file two_agents
  = inr [(lit "agent1", lit "Translate" ++ [Generator.LF] ++ lit "to French")]
  /\ exists skills,
      _load_skills one_skill_file two_agents = inr skills
      /\ Pipeline.skills_get skills (lit "agent1")
         = lit "Translate" ++ [Generator.LF] ++ lit "to French"
      /\ Pipeline.skills_get skills (lit "agent2") = [].
Proof.
  split; [reflexivity|].
  assert (H1 : NoDup (map fst two_agents)).
  { repeat constructor; cbn; intros H;
      repeat (destruct H as [H|H]; [discriminate|]); exact H. }
  assert (H2 : Forall (fun a => loadable one_skill_file (snd a)) two_agents)
    by (repeat constructor).
  destruct (_load_skills_tolerates_missing_files one_skill_file two_agents H1 H2)
    as (skills & Hrun & Hget).
  exists skills. split; [exact Hrun|].
  split; [rewrite Hget; reflexivity|rewrite Hget; reflexivity].
Defined.

(** A skill file that is a directory exists, and reading it raises: the
    loader raises too. *)
Example skill_file_is_a_directory :
  _load_skills
    (fun path => Generator.Other (Ok true) (IsADirectoryError path))
    [(lit "agent1", [(lit "skill_file", lit ".")])]
  = inl (Raised (IsADirectoryError (lit "."))).
Proof. reflexivity. Qed.

End SkillsSpec.

Module StorageSpec.
Import Json Storage.

(** The keys that [load_test_cases] reads from every item. *)
Definition fields : list str :=
  [lit "id"; lit "original"; lit "corrupted"; lit "target_error_rate";
   lit "actual_error_rate"; lit "word_count"; lit "num_errors"].

(** An item that is a dictionary with all the keys, whatever else it has
    and whatever is stored under them. *)
Definition complete (item : value) : bool :=
  match item with
  | Object members =>
      forallb (fun key => match Dict.get members key with
                          | Some _ => true
                          | None => false
                          end) fields
  | _ => false
  end.

(** The first key an item lacks. *)
Definition first_missing (members : list (str * value)) : option str :=
  find (fun key => match Dict.get members key with
                   | Some _ => false
                   | None => true
                   end) fields.

Lemma load_case_to_dict (tc : Generator.TestCase) :
  load_case (to_dict tc) = inr (dynamic tc).
Proof. reflexivity. Qed.

Lemma load_cases_to_dict (test_cases : list Generator.TestCase) :
  load_cases (map to_dict test_cases) = inr (map dynamic test_cases).
Proof.
  induction test_cases as [|tc rest IH]; [reflexivity|].
  cbn [map load_cases]. rewrite load_case_to_dict. cbn [and_then].
  rewrite IH. reflexivity.
Qed.

(** What [load_case] does with a dictionary: it fails with the first
    missing key, or builds the case. *)
Lemma load_case_object (members : list (str * value)) :
  match first_missing members with
  | Some key => load_case (Object members) = inl (KeyError key)
  | None => complete (Object members) = true
            /\ exists tc, load_case (Object members) = inr tc
  end.
Proof.
  unfold first_missing, complete, load_case, subscript, fields.
  cbn [find forallb].
  repeat match goal with
         | |- context [Dict.get members ?k] =>
             destruct (Dict.get members k); cbn [and_then andb];
             [|reflexivity]
         end.
  split; [reflexivity|]. eexists. reflexivity.
Qed.

Lemma load_case_complete (item : value) :
  (exists tc, load_case item = inr tc) <-> complete item = true.
Proof.
  destruct item as [| | | | | |members];
    try (split; [intros (tc & H); discriminate H|intros H; discriminate H]).
  pose proof (load_case_object members) as H.
  destruct (first_missing members) as [key|] eqn:Em.
  - split.
    + intros (tc & Htc). rewrite H in Htc. discriminate.
    + intros Hc. exfalso. unfold first_missing in Em.
      apply find_some in Em. destruct Em as (Hin & Hk).
      unfold complete in Hc. rewrite forallb_forall in Hc.
      specialize (Hc key Hin). destruct (Dict.get members key); discriminate.
  - destruct H as (Hc & Htc). split; auto.
Qed.

Lemma load_cases_complete (items : list value) :
  (exists cases, load_cases items = inr cases /\ length cases = length items)
  <-> forallb complete items = true.
Proof.
  induction items as [|item rest IH]; cbn [load_cases forallb].
  - split; [reflexivity|]. intros _. exists []. split; reflexivity.
  - rewrite andb_true_iff, <- IH, <- load_case_complete. split.
    + intros (cases & Hrun & Hlen).
      destruct (load_case item) as [e|tc]; [discriminate|]. cbn [and_then] in Hrun.
      destruct (load_cases rest) as [e|tcs]; [discriminate|]. cbn [and_then] in Hrun.
      injection Hrun as <-. cbn [length] in Hlen.
      split; [eexists; reflexivity|]. exists tcs. split; [reflexivity|lia].
    + intros ((tc & ->) & (tcs & -> & Hlen)). cbn [and_then].
      exists (tc :: tcs). split; [reflexivity|]. cbn [length]. lia.
Qed.

Section WithCodec.
Context {C : Codec}.

(** X15.  What [save_test_cases] has written, [load_test_cases] reads
    back from the same path: the test cases, in order, each field with
    the value it had.  The keys written are the keys read. *)
Theorem save_then_load (files files' : store)
  (test_cases : list Generator.TestCase) (path : str) :
  save_test_cases files test_cases path = inr files' ->
  load_test_cases files' path = inr (map dynamic test_cases).
Proof.
  unfold save_test_cases, load_test_cases. intros H.
  destruct (dump (Array (map to_dict test_cases))) as [written|] eqn:Ed;
    [|discriminate].
  injection H as <-. rewrite DictFacts.str_eqb_same.
  rewrite (load_dump _ _ Ed). cbn [iterate and_then].
  apply load_cases_to_dict.
Qed.

(** X16.  On a file that holds a list, [load_test_cases] returns (one
    test case per item) exactly when every item is a dictionary with the
    seven keys; further keys are ignored and the values are taken as they
    are, of whatever type.  A dictionary that lacks a key makes the load
    fail. *)
Theorem load_test_cases_needs_every_field (files : store) (path : str)
  (written : text) (items : list value) :
  files path = Some written ->
  load written = Some (Array items) ->
  ((exists cases, load_test_cases files path = inr cases
                  /\ length cases = length items)
   <-> forallb complete items = true)
  /\ (forall members rest key,
         items = Object members :: rest ->
         first_missing members = Some key ->
         load_test_cases files path = inl (KeyError key)).
Proof.
  intros Hf Hl. unfold load_test_cases. rewrite Hf, Hl. cbn [iterate and_then].
  split; [apply load_cases_complete|].
  intros members rest key -> Hm. cbn [load_cases].
  pose proof (load_case_object members) as H. rewrite Hm in H.
  rewrite H. reflexivity.
Qed.

End WithCodec.

(** A codec that keeps the document as it is. *)
Definition plain : Codec :=
  {| text := value;
     dump := fun v => Some v;
     load := fun t => Some t;
     load_dump := fun v t H => eq_sym H |}.

Definition sample_case : Generator.TestCase :=
  {| Generator.id := 1;
     Generator.original := lit "the cat";
     Generator.corrupted := lit "teh cat";
     Generator.target_error_rate := PyFloat.one;
     Generator.actual_error_rate := PyFloat.one;
     Generator.word_count := 2;
     Generator.num_errors := 1 |}.

Definition no_files : @store plain := fun _ => None.

Lemma save_then_load_witness :
  @load_test_cases plain
    (fun p => if str_eqb p (lit "cases.json")
              then Some (Array [to_dict sample_case]) else None)
    (lit "cases.json")
  = inr [dynamic sample_case].
Proof.
  apply (@save_then_load plain no_files _ [sample_case] (lit "cases.json")).
  reflexivity.
Defined.

(** A list whose second item has no ["corrupted"]. *)
Definition damaged : list value :=
  [to_dict sample_case;
   Object [(lit "id", Integer 2); (lit "original", String (lit "a dog"))]].

Lemma load_test_cases_needs_every_field_witness :
  forallb complete damaged = false
  /\ ~ (exists cases,
          @load_test_cases plain (fun _ => Some (Array damaged)) (lit "cases.json")
          = inr cases /\ length cases = length damaged).
Proof.
  split; [reflexivity|].
  intros H.
  apply (proj1 (@load_test_cases_needs_every_field plain
                  (fun _ => Some (Array damaged)) (lit "cases.json")
                  (Array damaged) damaged eq_refl eq_refl)) in H.
  discriminate H.
Defined.

End StorageSpec.

Module ConfigSpec.
Import Json Config.

(** The value a key path leads to, if it leads anywhere. *)
Fixpoint resolve (config : value) (keys : list str) : option value :=
  match keys with
  | [] => Some config
  | key :: rest =>
      match config with
      | Object members =>
          match Dict.get members key with
          | Some v => resolve v rest
          | None => None
          end
      | _ => None
      end
  end.

Lemma resolve_app (keys1 keys2 : list str) :
  forall config,
    resolve config (keys1 ++ keys2)
    = match resolve config keys1 with
      | Some v => resolve v keys2
      | None => None
      end.
Proof.
  induction keys1 as [|key rest IH]; intros config; [reflexivity|].
  cbn [app resolve]. destruct config; try reflexivity.
  destruct (Dict.get members key); [apply IH|reflexivity].
Qed.

Lemma get_config_value_resolve (keys : list str) (default : value) :
  forall config,
    get_config_value config keys default
    = match resolve config keys with
      | Some v => v
      | None => default
      end.
Proof.
  induction keys as [|key rest IH]; intros config; [reflexivity|].
  cbn [get_config_value resolve]. destruct config; try reflexivity.
  destruct (Dict.get members key); [apply IH|reflexivity].
Qed.

(** X17.  Looking up a key path in two steps gives what looking it up in
    one step gives, as long as the first part of the path exists: the
    default is returned both when the first part is missing (or runs into
    a value that is not a dictionary) and when the second is.  When the
    first part is missing the default comes back whatever the second
    part is. *)
Theorem get_config_value_in_two_steps (config default : value)
  (keys1 keys2 : list str) :
  get_config_value config (keys1 ++ keys2) default
  = match resolve config keys1 with
    | Some inner => get_config_value inner keys2 default
    | None => default
    end.
Proof.
  rewrite get_config_value_resolve, resolve_app.
  destruct (resolve config keys1) as [inner|]; [|reflexivity].
  symmetry. apply get_config_value_resolve.
Qed.

End ConfigSpec.

(** ** More on the analyzer: the cache, batches, degenerate embeddings *)

Module EmbeddingsExtra.
Import Embeddings EmbeddingsSpec.

Section WithScalar.
Context {K : Scalar}.

Lemma dot_from_aligned (a : vector) :
  forall b acc, length a = length b -> exists q, dot_from acc a b = Ok q.
Proof.
  induction a as [|x a IH]; intros [|y b] acc H; try discriminate H.
  - eexists; reflexivity.
  - cbn [dot_from]. apply IH. injection H as H. exact H.
Qed.

Lemma subtract_aligned (a : vector) :
  forall b, length a = length b ->
            exists d, subtract a b = Ok d /\ length d = length a.
Proof.
  induction a as [|x a IH]; intros [|y b] H; try discriminate H.
  - exists []. split; reflexivity.
  - injection H as H. destruct (IH b H) as (d & Hd & Hlen).
    cbn [subtract]. rewrite Hd. eexists. split; [reflexivity|].
    cbn [length]. rewrite Hlen. reflexivity.
Qed.

Lemma cosine_distance_of_aligned (u v : vector) :
  length u = length v -> exists x, cosine_distance_of u v = Ok x.
Proof.
  intros H. unfold cosine_distance_of, dot.
  destruct (dot_from_aligned u v s_zero H) as (q & ->).
  destruct (norm_ok u) as (nu & ->). destruct (norm_ok v) as (nv & ->).
  eexists; reflexivity.
Qed.

Lemma euclidean_distance_of_aligned (u v : vector) :
  length u = length v -> exists x, euclidean_distance_of u v = Ok x.
Proof.
  intros H. unfold euclidean_distance_of.
  destruct (subtract_aligned u v H) as (d & -> & _). apply norm_ok.
Qed.

Lemma cache_get_In (c : list (str * vector)) (t : str) (v : vector) :
  cache_get c t = Some v -> exists k, In (k, v) c.
Proof.
  induction c as [|[k x] c IH]; cbn [cache_get]; [discriminate|].
  destruct (str_eqb k t).
  - intros H. injection H as ->. exists k. left. reflexivity.
  - intros H. destruct (IH H) as (k' & Hin). exists k'. right. exact Hin.
Qed.

Lemma cache_get_keeps (c new : list (str * vector)) (t : str) (v : vector) :
  cache_get c t = Some v -> cache_get (c ++ new) t = Some v.
Proof.
  induction c as [|[k x] c IH]; cbn [app cache_get]; [discriminate|].
  destruct (str_eqb k t); [auto|exact IH].
Qed.

Section WithEncoder.
Context {E : Encoder}.

(** The embeddings in the cache all have [d] components. *)
Definition uniform (d : nat) (self : SemanticAnalyzer) : Prop :=
  Forall (fun kv => length (snd kv) = d) (cache self).

(** The model produces embeddings of [d] components. *)
Definition sized (d : nat) : Prop :=
  forall t m, length (fst (encode t m)) = d.

(** The metrics that [calculate_distance] knows. *)
Definition supported (metric : str) : bool :=
  str_eqb metric (lit "cosine") || str_eqb metric (lit "euclidean").

(** A call of [get_embedding] either finds the text and changes
    nothing, or asks the model and appends one entry. *)
Lemma get_embedding_grows (t : str) (self : SemanticAnalyzer) :
  exists v self' new,
    get_embedding t self = (Ok v, self')
    /\ cache_get (cache self') t = Some v
    /\ cache self' = cache self ++ new
    /\ (new = [] \/ new = [(t, v)])
    /\ (cache_get (cache self) t <> None -> self' = self).
Proof.
  unfold get_embedding. destruct (cache_get (cache self) t) as [v|] eqn:Ec.
  - exists v, self, []. rewrite app_nil_r. repeat split; auto.
  - destruct (encode t (model self)) as [v m'].
    eexists v, _, [(t, v)].
    split; [reflexivity|]. cbn [cache].
    split; [rewrite cache_get_app, Ec, str_eqb_refl; reflexivity|].
    split; [reflexivity|]. split; [right; reflexivity|].
    intros H. contradiction.
Qed.

(** X18.  [get_embedding] asks the model at most once for a text: the
    call returns a vector and leaves the text in the cache, so that a
    second call returns the same vector and changes neither the model
    nor the cache; and a call for a text that is already cached changes
    nothing at all.  The cache grows by at most one entry. *)
Theorem get_embedding_encodes_once (t : str) (self : SemanticAnalyzer) :
  exists v self1 new,
    get_embedding t self = (Ok v, self1)
    /\ get_embedding t self1 = (Ok v, self1)
    /\ (cache_get (cache self) t <> None -> self1 = self)
    /\ cache self1 = cache self ++ new
    /\ (length new <= 1)%nat.
Proof.
  destruct (get_embedding_grows t self) as (v & s1 & new & Hrun & Hin & Hc & Hn & Hu).
  exists v, s1, new. split; [exact Hrun|].
  split; [apply get_embedding_hit; exact Hin|].
  split; [exact Hu|]. split; [exact Hc|].
  destruct Hn as [-> | ->]; cbn [length]; lia.
Qed.

(** Two lookups in a row, as both distance functions start. *)
Lemma two_lookups {A} (f : vector -> vector -> result A)
  (text1 text2 : str) (self : SemanticAnalyzer) :
  exists v1 v2 self' new,
    bind (get_embedding text1)
         (fun emb1 => bind (get_embedding text2)
                           (fun emb2 => lift (f emb1 emb2))) self
    = (f v1 v2, self')
    /\ cache_get (cache self') text1 = Some v1
    /\ cache_get (cache self') text2 = Some v2
    /\ cache self' = cache self ++ new
    /\ (length new <= 2)%nat
    /\ incl (map fst new) [text1; text2]
    /\ (cache_get (cache self) text1 <> None ->
        cache_get (cache self) text2 <> None -> self' = self).
Proof.
  destruct (get_embedding_grows text1 self)
    as (v1 & s1 & n1 & E1 & G1 & C1 & N1 & U1).
  destruct (get_embedding_grows text2 s1)
    as (v2 & s2 & n2 & E2 & G2 & C2 & N2 & U2).
  exists v1, v2, s2, (n1 ++ n2). unfold bind, lift. rewrite E1, E2.
  split; [reflexivity|].
  split; [rewrite C2; apply cache_get_keeps; exact G1|].
  split; [exact G2|].
  split; [rewrite C2, C1, app_assoc; reflexivity|].
  split; [rewrite length_app;
          destruct N1 as [-> | ->], N2 as [-> | ->]; cbn [length]; lia|].
  split.
  - rewrite map_app. apply incl_app.
    + destruct N1 as [-> | ->]; cbn [map fst]; intros x Hx;
        [contradiction|]. destruct Hx as [<-|[]]. left. reflexivity.
    + destruct N2 as [-> | ->]; cbn [map fst]; intros x Hx;
        [contradiction|]. destruct Hx as [<-|[]]. right. left. reflexivity.
  - intros H1 H2. specialize (U1 H1). subst s1. apply U2. exact H2.
Qed.

(** X19.  Whatever the metric, [calculate_distance] only ever appends to
    the cache: at most two entries, for the two texts; an embedding that
    is cached stays as it is; and when both texts are cached already the
    call changes neither the model nor the cache. *)
Theorem calculate_distance_cache (text1 text2 metric : str)
  (self : SemanticAnalyzer) :
  let self' := snd (calculate_distance text1 text2 metric self) in
  (exists new,
      cache self' = cache self ++ new
      /\ (length new <= 2)%nat
      /\ incl (map fst new) [text1; text2])
  /\ (forall t v, cache_get (cache self) t = Some v ->
                  cache_get (cache self') t = Some v)
  /\ (cache_get (cache self) text1 <> None ->
      cache_get (cache self) text2 <> None -> self' = self).
Proof.
  assert (H : exists new,
             cache (snd (calculate_distance text1 text2 metric self))
             = cache self ++ new
             /\ (length new <= 2)%nat
             /\ incl (map fst new) [text1; text2]
             /\ (cache_get (cache self) text1 <> None ->
                 cache_get (cache self) text2 <> None ->
                 snd (calculate_distance text1 text2 metric self) = self)).
  { unfold calculate_distance.
    destruct (str_eqb metric (lit "cosine")).
    - unfold calculate_cosine_distance.
      destruct (two_lookups cosine_distance_of text1 text2 self)
        as (v1 & v2 & s' & new & -> & _ & _ & Hc & Hl & Hi & Hu).
      exists new. cbn [snd]. auto.
    - destruct (str_eqb metric (lit "euclidean")).
      + unfold calculate_euclidean_distance.
        destruct (two_lookups euclidean_distance_of text1 text2 self)
          as (v1 & v2 & s' & new & -> & _ & _ & Hc & Hl & Hi & Hu).
        exists new. cbn [snd]. auto.
      + exists []. unfold raise. cbn [snd length map]. rewrite app_nil_r.
        split; [reflexivity|]. split; [lia|].
        split; [intros x Hx; contradiction|auto]. }
  destruct H as (new & Hc & Hl & Hi & Hu). cbv zeta.
  split; [exists new; auto|]. split; [|exact Hu].
  intros t v Ht. rewrite Hc. apply cache_get_keeps. exact Ht.
Qed.

Lemma get_embedding_uniform (d : nat) (t : str) (self : SemanticAnalyzer) :
  sized d -> uniform d self ->
  exists v self',
    get_embedding t self = (Ok v, self') /\ length v = d /\ uniform d self'.
Proof.
  intros Hs Hu. unfold get_embedding.
  destruct (cache_get (cache self) t) as [v|] eqn:Ec.
  - exists v, self. split; [reflexivity|]. split; [|exact Hu].
    destruct (cache_get_In _ _ _ Ec) as (k & Hin).
    unfold uniform in Hu. rewrite Forall_forall in Hu.
    exact (Hu (k, v) Hin).
  - pose proof (Hs t (model self)) as Hlen.
    destruct (encode t (model self)) as [v m']. cbn [fst] in Hlen.
    eexists v, _. split; [reflexivity|]. split; [exact Hlen|].
    unfold uniform. cbn [cache]. apply Forall_app. split; [exact Hu|].
    constructor; [exact Hlen|constructor].
Qed.

Lemma calculate_distance_uniform (d : nat) (text1 text2 metric : str)
  (self : SemanticAnalyzer) :
  sized d -> uniform d self -> supported metric = true ->
  exists x self',
    calculate_distance text1 text2 metric self = (Ok x, self')
    /\ uniform d self'.
Proof.
  intros Hs Hu Hm.
  destruct (get_embedding_uniform d text1 self Hs Hu) as (v1 & s1 & E1 & L1 & U1).
  destruct (get_embedding_uniform d text2 s1 Hs U1) as (v2 & s2 & E2 & L2 & U2).
  assert (Hlen : length v1 = length v2) by congruence.
  unfold calculate_distance, supported in *.
  destruct (str_eqb metric (lit "cosine")).
  - unfold calculate_cosine_distance, bind, lift. rewrite E1, E2.
    destruct (cosine_distance_of_aligned v1 v2 Hlen) as (x & ->).
    exists x, s2. split; [reflexivity|exact U2].
  - cbn [orb] in Hm. rewrite Hm.
    unfold calculate_euclidean_distance, bind, lift. rewrite E1, E2.
    destruct (euclidean_distance_of_aligned v1 v2 Hlen) as (x & ->).
    exists x, s2. split; [reflexivity|exact U2].
Qed.

Lemma distances_loop_spec (d : nat) (metric : str) (text_pairs : list (str * str)) :
  sized d -> supported metric = true ->
  forall distances self,
    uniform d self ->
    exists ds self',
      distances_loop text_pairs metric distances self
      = (Ok (distances ++ ds), self')
      /\ length ds = length text_pairs
      /\ uniform d self'.
Proof.
  intros Hs Hm.
  induction text_pairs as [|[text1 text2] rest IH]; intros distances self Hu.
  - exists [], self. rewrite app_nil_r. repeat split; auto.
  - destruct (calculate_distance_uniform d text1 text2 metric self Hs Hu Hm)
      as (x & s1 & Hx & U1).
    destruct (IH (distances ++ [x]) s1 U1) as (ds & s2 & Hrun & Hlen & U2).
    exists (x :: ds), s2. cbn [distances_loop]. unfold bind at 1. rewrite Hx.
    rewrite Hrun, <- app_assoc. cbn [app length].
    repeat split; auto.
Qed.

(** X20.  When the model produces embeddings of one dimension, and the
    cached ones have it too, [batch_calculate_distances] with a metric
    it knows does not fail: it returns one distance per pair, and the
    first of them is what [calculate_distance] returns for the first
    pair.  The cache keeps the one dimension. *)
Theorem batch_calculate_distances_returns (d : nat) (metric : str)
  (text_pairs : list (str * str)) (self : SemanticAnalyzer) :
  sized d -> uniform d self -> supported metric = true ->
  exists ds self',
    batch_calculate_distances text_pairs metric self = (Ok ds, self')
    /\ length ds = length text_pairs
    /\ uniform d self'
    /\ (forall text1 text2 rest,
           text_pairs = (text1, text2) :: rest ->
           exists x, fst (calculate_distance text1 text2 metric self) = Ok x
                     /\ hd_error ds = Some x).
Proof.
  intros Hs Hu Hm.
  destruct (distances_loop_spec d metric text_pairs Hs Hm [] self Hu)
    as (ds & s' & Hrun & Hlen & Hu').
  exists ds, s'. unfold batch_calculate_distances.
  split; [exact Hrun|]. split; [exact Hlen|]. split; [exact Hu'|].
  intros text1 text2 rest ->. cbn [distances_loop] in Hrun.
  unfold bind in Hrun at 1.
  destruct (calculate_distance_uniform d text1 text2 metric self Hs Hu Hm)
    as (x & s1 & Hx & U1).
  rewrite Hx in Hrun. exists x. rewrite Hx. split; [reflexivity|].
  destruct (distances_loop_spec d metric rest Hs Hm ([] ++ [x]) s1 U1)
    as (ds' & s2 & Hrun' & _ & _).
  rewrite Hrun' in Hrun. injection Hrun as <- _. reflexivity.
Qed.

(** X21.  With a metric it does not know, [batch_calculate_distances]
    fails at the first pair, with [ValueError("Unknown metric: ...")]
    naming the metric, before any embedding is computed; on an empty
    list of pairs it returns the empty list, and the metric goes
    unchecked. *)
Theorem batch_calculate_distances_unknown_metric (metric : str)
  (self : SemanticAnalyzer) :
  supported metric = false ->
  batch_calculate_distances [] metric self = (Ok [], self)
  /\ forall pair rest,
      batch_calculate_distances (pair :: rest) metric self
      = (Raise (ValueError (lit "Unknown metric: " ++ metric)), self).
Proof.
  intros Hm. split; [reflexivity|]. intros [text1 text2] rest.
  unfold batch_calculate_distances. cbn [distances_loop].
  unfold bind, calculate_distance, supported in *.
  apply orb_false_iff in Hm. destruct Hm as (-> & ->). reflexivity.
Qed.

End WithEncoder.
End WithScalar.

(** *** Embeddings of binary32 numbers *)

Definition finite (x : spec_float) : bool :=
  match x with
  | S754_zero _ | S754_finite _ _ _ => true
  | _ => false
  end.

Definition is_zero (x : spec_float) : bool :=
  match x with
  | S754_zero _ => true
  | _ => false
  end.

Definition positive_zero : spec_float := S754_zero false.

Lemma SFsub_self (x : spec_float) :
  finite x = true -> SFsub Binary32.prec Binary32.emax x x = positive_zero.
Proof.
  destruct x as [s|s| |s m e]; try discriminate; intros _.
  - destruct s; reflexivity.
  - cbn [SFsub]. rewrite Z.sub_diag. reflexivity.
Qed.

Lemma subtract_self (v : @vector Binary32.ieee) :
  Forall (fun x => finite x = true) v ->
  @subtract Binary32.ieee v v = Ok (map (fun _ => positive_zero) v).
Proof.
  induction 1 as [|x v Hx Hv IH]; [reflexivity|].
  cbn [subtract map]. rewrite IH.
  change (@s_sub Binary32.ieee x x) with (SFsub Binary32.prec Binary32.emax x x).
  rewrite (SFsub_self x Hx). reflexivity.
Qed.

Lemma dot_from_zeros (u v : @vector Binary32.ieee) :
  Forall (fun x => is_zero x = true) u ->
  Forall (fun x => is_zero x = true) v ->
  length u = length v ->
  @dot_from Binary32.ieee positive_zero u v = Ok positive_zero.
Proof.
  intros Hu. revert v.
  induction Hu as [|x u Hx Hu IH]; intros v Hv Hlen.
  - destruct v; [reflexivity|discriminate].
  - destruct Hv as [|y v Hy Hv]; [discriminate|].
    injection Hlen as Hlen. cbn [dot_from].
    destruct x as [sx|sx| |sx mx ex]; try discriminate.
    destruct y as [sy|sy| |sy my ey]; try discriminate.
    replace (@s_add Binary32.ieee positive_zero
               (@s_mul Binary32.ieee (S754_zero sx) (S754_zero sy)))
      with positive_zero by (destruct sx, sy; reflexivity).
    apply IH; assumption.
Qed.

Lemma norm_zeros (u : @vector Binary32.ieee) :
  Forall (fun x => is_zero x = true) u ->
  @norm Binary32.ieee u = Ok positive_zero.
Proof.
  intros Hu. unfold norm, dot.
  change (@s_zero Binary32.ieee) with positive_zero.
  rewrite (dot_from_zeros u u Hu Hu eq_refl). reflexivity.
Qed.

Lemma euclidean_distance_of_self (v : @vector Binary32.ieee) :
  Forall (fun x => finite x = true) v ->
  @euclidean_distance_of Binary32.ieee v v = Ok positive_zero.
Proof.
  intros Hv. unfold euclidean_distance_of. rewrite (subtract_self v Hv).
  apply norm_zeros. apply Forall_map. apply Forall_forall. reflexivity.
Qed.

(** X22.  The Euclidean distance of a text to itself is exactly [+0.0]
    when the components of its embedding are finite: the second lookup
    finds the embedding the first one cached, and [x - x] is [+0.0] for
    every finite [x]. *)
Theorem euclidean_distance_to_itself (E : @Encoder Binary32.ieee) (t : str)
  (self self1 : @SemanticAnalyzer Binary32.ieee E) (v : list spec_float) :
  @get_embedding Binary32.ieee E t self = (Ok v, self1) ->
  Forall (fun x => finite x = true) v ->
  calculate_distance t t (lit "euclidean") self = (Ok positive_zero, self1).
Proof.
  intros Hrun Hv.
  destruct (get_embedding_grows t self) as (v' & s1 & new & E1 & G1 & _).
  rewrite E1 in Hrun. injection Hrun as -> ->.
  unfold calculate_distance.
  change (str_eqb (lit "euclidean") (lit "cosine")) with false.
  change (str_eqb (lit "euclidean") (lit "euclidean")) with true.
  cbv iota. unfold calculate_euclidean_distance, bind, lift.
  rewrite E1, (get_embedding_hit t self1 v G1).
  rewrite (euclidean_distance_of_self v Hv). reflexivity.
Qed.

(** A partial sum that is [+0.0] or not a number. *)
Definition zero_or_nan (x : spec_float) : bool :=
  match x with
  | S754_zero false | S754_nan => true
  | _ => false
  end.

Lemma dot_from_zero_left (u : @vector Binary32.ieee) :
  Forall (fun x => is_zero x = true) u ->
  forall v acc,
    zero_or_nan acc = true -> length u = length v ->
    exists q, @dot_from Binary32.ieee acc u v = Ok q /\ zero_or_nan q = true.
Proof.
  induction 1 as [|x u Hx Hu IH]; intros v acc Hacc Hlen.
  - destruct v; [|discriminate]. exists acc. split; [reflexivity|exact Hacc].
  - destruct v as [|y v]; [discriminate|]. injection Hlen as Hlen.
    cbn [dot_from]. apply IH; [|exact Hlen].
    destruct x as [sx|sx| |sx mx ex]; try discriminate.
    destruct acc as [[|]|sa| |sa ma ea]; try discriminate;
      destruct y as [sy|sy| |sy my ey]; try reflexivity;
      destruct sx; try destruct sy; reflexivity.
Qed.

Lemma cosine_distance_of_zero (u v : @vector Binary32.ieee) :
  Forall (fun x => is_zero x = true) u ->
  length u = length v ->
  @cosine_distance_of Binary32.ieee u v = Ok S754_nan.
Proof.
  intros Hu Hlen. unfold cosine_distance_of, dot.
  destruct (dot_from_zero_left u Hu v positive_zero eq_refl Hlen)
    as (q & Hq & Hz).
  change (@s_zero Binary32.ieee) with positive_zero. rewrite Hq.
  rewrite (norm_zeros u Hu).
  destruct (norm_ok v) as (nv & ->).
  destruct q as [[|]|sq| |sq mq eq]; try discriminate;
    destruct nv as [sn|sn| |sn mn en]; try reflexivity;
    destruct sn; reflexivity.
Qed.

(** X23.  Nothing guards the cosine formula against an embedding of
    norm zero: when the embedding of one of the texts is all zeros, the
    cosine distance is not a number, whatever the other embedding is,
    and no exception is raised. *)
Theorem cosine_distance_of_zero_embedding (E : @Encoder Binary32.ieee)
  (text1 text2 : str) (self : @SemanticAnalyzer Binary32.ieee E)
  (u v : list spec_float) :
  @cache_get Binary32.ieee (cache self) text1 = Some u ->
  @cache_get Binary32.ieee (cache self) text2 = Some v ->
  Forall (fun x => is_zero x = true) u ->
  length u = length v ->
  calculate_distance text1 text2 (lit "cosine") self = (Ok S754_nan, self)
  /\ calculate_distance text2 text1 (lit "cosine") self = (Ok S754_nan, self).
Proof.
  intros H1 H2 Hu Hlen. unfold calculate_distance.
  change (str_eqb (lit "cosine") (lit "cosine")) with true. cbv iota.
  unfold calculate_cosine_distance, bind, lift.
  rewrite (get_embedding_hit text1 self u H1), (get_embedding_hit text2 self v H2).
  rewrite (get_embedding_hit text1 self u H1).
  rewrite (@cosine_distance_of_comm Binary32.ieee v u), (cosine_distance_of_zero u v Hu Hlen).
  split; reflexivity.
Qed.

(** A model whose embedding of a text is [(len text, 4)]. *)
Definition by_length : @Encoder Binary32.ieee :=
  @deterministic Binary32.ieee
    (fun t => [binary_normalize Binary32.prec Binary32.emax (len t) 0 false;
               Binary32.four]).

Definition start : @SemanticAnalyzer Binary32.ieee by_length :=
  @Build_SemanticAnalyzer Binary32.ieee by_length tt [].

(** An analyzer that has cached an all-zero embedding for the empty
    text. *)
Definition seen_empty : @SemanticAnalyzer Binary32.ieee by_length :=
  @Build_SemanticAnalyzer Binary32.ieee by_length tt
    [(lit "", [positive_zero; positive_zero]);
     (lit "cat", [Binary32.three; Binary32.four])].

Lemma batch_calculate_distances_returns_witness :
  exists ds self',
    @batch_calculate_distances Binary32.ieee by_length
      [(lit "a", lit "bc"); (lit "bc", lit "a")] (lit "cosine") start
    = (Ok ds, self')
    /\ length ds = 2%nat.
Proof.
  destruct (@batch_calculate_distances_returns Binary32.ieee by_length 2%nat
              (lit "cosine") [(lit "a", lit "bc"); (lit "bc", lit "a")] start)
    as (ds & s' & Hrun & Hlen & _).
  - intros t m. reflexivity.
  - constructor.
  - reflexivity.
  - exists ds, s'. split; [exact Hrun|exact Hlen].
Defined.

Lemma batch_calculate_distances_unknown_metric_witness :
  @batch_calculate_distances Binary32.ieee by_length
    [(lit "a", lit "bc")] (lit "manhattan") start
  = (Raise (ValueError (lit "Unknown metric: " ++ lit "manhattan")), start).
Proof.
  apply (proj2 (@batch_calculate_distances_unknown_metric Binary32.ieee
                  by_length (lit "manhattan") start eq_refl)).
Defined.

Lemma euclidean_distance_to_itself_witness :
  @calculate_distance Binary32.ieee by_length (lit "a") (lit "a")
    (lit "euclidean") start
  = (Ok positive_zero,
     @Build_SemanticAnalyzer Binary32.ieee by_length tt
       [(lit "a", [S754_finite false 8388608 (-23); Binary32.four])]).
Proof.
  apply (euclidean_distance_to_itself by_length (lit "a") start _
           [S754_finite false 8388608 (-23); Binary32.four]).
  - reflexivity.
  - repeat constructor.
Defined.

Lemma cosine_distance_of_zero_embedding_witness :
  @calculate_distance Binary32.ieee by_length (lit "") (lit "cat")
    (lit "cosine") seen_empty
  = (Ok S754_nan, seen_empty).
Proof.
  apply (cosine_distance_of_zero_embedding by_length (lit "") (lit "cat")
           seen_empty [positive_zero; positive_zero]
           [Binary32.three; Binary32.four]).
  - reflexivity.
  - reflexivity.
  - repeat constructor.
  - reflexivity.
Defined.

End EmbeddingsExtra.

(** ** The analysis loop *)

Module AnalysisSpec.
Import Embeddings EmbeddingsSpec EmbeddingsExtra Analysis.

Section WithScalar.
Context {K : Scalar} {E : @Encoder K}.

(** The row that the loop builds for a record, the distance apart. *)
Definition describes (r : row) (b : Pipeline.batch_result) : Prop :=
  match b with
  | Pipeline.Translated t test_case =>
      row_test_id r = Pipeline.test_id t
      /\ row_original r = Pipeline.original_clean test_case
      /\ row_final r = Pipeline.final t
      /\ error_rate r = Pipeline.tc_actual_error_rate test_case
      /\ row_target_error_rate r = Pipeline.tc_target_error_rate test_case
      /\ row_word_count r = Pipeline.tc_word_count test_case
  | Pipeline.Failed _ _ => False
  end.

Lemma analysis_loop_spec (d : nat) (metric : str) :
  sized d -> supported metric = true ->
  forall results rows self,
    uniform d self ->
    exists new self',
      analysis_loop results metric rows self = (Ok (rows ++ new), self')
      /\ Forall2 describes new (filter Pipeline.result_success results)
      /\ uniform d self'.
Proof.
  intros Hs Hm.
  induction results as [|result rest IH]; intros rows self Hu.
  - exists [], self. rewrite app_nil_r. repeat split; [constructor|exact Hu].
  - cbn [analysis_loop filter]. destruct result as [t test_case|i e].
    + cbn [Pipeline.result_success].
      destruct (Pipeline.success (Pipeline.meta t)).
      * destruct (calculate_distance_uniform d
                    (Pipeline.original_clean test_case) (Pipeline.final t)
                    metric self Hs Hu Hm) as (x & s1 & Hx & U1).
        unfold bind at 1. rewrite Hx.
        match goal with
        | |- context [analysis_loop rest metric (rows ++ [?r]) s1] =>
            destruct (IH (rows ++ [r]) s1 U1) as (new & s2 & Hrun & Hd & U2);
            exists (r :: new), s2
        end.
        rewrite Hrun, <- app_assoc. split; [reflexivity|].
        split; [|exact U2]. constructor; [|exact Hd].
        cbn. repeat split.
      * apply IH. exact Hu.
    + cbn [Pipeline.result_success]. apply IH. exact Hu.
Qed.

(** X24.  With embeddings of one dimension and a metric the analyzer
    knows, the analysis loop does not fail, and its rows are the
    successful records, in their order: each row carries the identifier,
    the clean original, the final text and the rates of its record, and
    a failed record gives no row. *)
Theorem analyze_rows_are_the_successes (d : nat) (metric : str)
  (results : list Pipeline.batch_result) (self : SemanticAnalyzer) :
  sized d -> uniform d self -> supported metric = true ->
  exists rows self',
    analyze results metric self = (Ok rows, self')
    /\ Forall2 describes rows (filter Pipeline.result_success results)
    /\ map row_test_id rows
       = map Pipeline.result_test_id (filter Pipeline.result_success results)
    /\ (length rows <= length results)%nat.
Proof.
  intros Hs Hu Hm.
  destruct (analysis_loop_spec d metric Hs Hm results [] self Hu)
    as (rows & s' & Hrun & Hd & _).
  exists rows, s'. split; [exact Hrun|]. split; [exact Hd|]. split.
  - clear Hrun. induction Hd as [|r b rows bs Hrb Hd IH]; [reflexivity|].
    cbn [map]. rewrite IH. f_equal.
    destruct b as [t test_case|i e]; [|contradiction].
    destruct Hrb as (-> & _). reflexivity.
  - rewrite (Forall2_length Hd). apply filter_length_le.
Qed.

End WithScalar.

Definition translated : Pipeline.batch_result :=
  Pipeline.Translated
    {| Pipeline.test_id := 2;
       Pipeline.original := lit "teh cat";
       Pipeline.french := lit "le chat";
       Pipeline.hebrew := lit "hatul";
       Pipeline.final := lit "the cat";
       Pipeline.meta := {| Pipeline.duration := PyFloat.one;
                           Pipeline.success := true;
                           Pipeline.meta_model := lit "m" |} |}
    {| Pipeline.tc_id := 2;
       Pipeline.original_clean := lit "the cat";
       Pipeline.tc_target_error_rate := PyFloat.one;
       Pipeline.tc_actual_error_rate := PyFloat.one;
       Pipeline.tc_word_count := 2 |}.

Lemma analyze_rows_are_the_successes_witness :
  exists rows self',
    @analyze Binary32.ieee by_length
      [Pipeline.Failed 1 (lit "boom"); translated] (lit "euclidean") start
    = (Ok rows, self')
    /\ map (@row_test_id Binary32.ieee) rows = [2].
Proof.
  destruct (@analyze_rows_are_the_successes Binary32.ieee by_length 2%nat
              (lit "euclidean") [Pipeline.Failed 1 (lit "boom"); translated]
              start)
    as (rows & s' & Hrun & _ & Hids & _).
  - intros t m. reflexivity.
  - constructor.
  - reflexivity.
  - exists rows, s'. split; [exact Hrun|exact Hids].
Defined.

End AnalysisSpec.
